(** * kubefirst runtime, package k3d: gitops and metaphor repository assembly

    A shallow embedding of [pkg/k3d/adjustContent.go] and [pkg/k3d/config.go].

    The two functions of [adjustContent.go] are straight sequences of calls
    into the operating system ([os.RemoveAll], [os.Remove], [os.Mkdir]), the
    recursive copy utility ([cp.Copy]), a [sed] subprocess and the git client.
    They are embedded in a state-and-error monad over a [World]: a file
    system, the git repositories and a log of every external operation with
    its outcome. *)

From Stdlib Require Import ZArith Ascii.
From stdpp Require Import base tactics option list strings gmap fin_maps sorting.

Local Open Scope Z_scope.

(** ** Strings: the functions of Go's [strings] package that the code uses *)

Module Strings.

Definition len (s : string) : nat := String.length s.

(** [strings.HasPrefix(s, prefix)]. *)
Fixpoint HasPrefix (s pre : string) {struct pre} : bool :=
  match pre, s with
  | EmptyString, _ => true
  | String _ _, EmptyString => false
  | String a pre', String b s' =>
      if Ascii.eqb a b then HasPrefix s' pre' else false
  end.

(** [s[n:]]. *)
Fixpoint drop (n : nat) (s : string) : string :=
  match n, s with
  | O, _ => s
  | S _, EmptyString => EmptyString
  | S n', String _ s' => drop n' s'
  end.

(** [strings.HasSuffix(s, suffix)]:
    [len(s) >= len(suffix) && s[len(s)-len(suffix):] == suffix]. *)
Definition HasSuffix (s suffix : string) : bool :=
  (len suffix <=? len s)%nat && String.eqb (drop (len s - len suffix) s) suffix.

(** [strings.Index(s, substr)]: the index of the first instance of [substr]
    in [s], or [-1] when there is none. *)
Fixpoint Index (s substr : string) : Z :=
  if HasPrefix s substr then 0
  else match s with
       | EmptyString => -1
       | String _ s' => let i := Index s' substr in
                        if i <? 0 then -1 else i + 1
       end.

(** [substr] occurs in [s] at byte offset [i]. *)
Definition occurs_at (i : nat) (substr s : string) : Prop :=
  ∃ pre post, s = pre +:+ substr +:+ post ∧ len pre = i.

Definition contains (substr s : string) : Prop := ∃ i, occurs_at i substr s.

Definition ends_with (suffix s : string) : Prop := ∃ pre, s = pre +:+ suffix.

Definition starts_with (pre s : string) : Prop := ∃ post, s = pre +:+ post.

End Strings.

(** ** The copy filter

    The same closure is written out in [AdjustGitopsRepo] and in
    [AdjustMetaphorRepo] (the [Skip] field of [cp.Options]); it returns the
    pair [(bool, error)]. *)

Definition error := string.

Definition Skip (src : string) : bool * option error :=
  if Strings.HasSuffix src ".git" then (true, None)
  else if 0 <? Strings.Index src "/.terraform" then (true, None)
  else (false, None).

(** ** Paths

    Path strings are built by the code with [fmt.Sprintf] and string
    concatenation; the operating system resolves them segment by segment.
    Empty segments (doubled or trailing slashes) and [.] name the directory
    itself.  Symbolic links and [..] segments are outside this model: the
    directories handed to these functions are plain directories below the
    user's [~/.k1] and [..] is kept as an ordinary name. *)

Module Path.

Abbreviation path := (list string).

(** The pieces of [s] between occurrences of the byte [c]. *)
Fixpoint split_on (c : ascii) (s : string) : list string :=
  match s with
  | EmptyString => [EmptyString]
  | String a r =>
      if Ascii.eqb a c then EmptyString :: split_on c r
      else match split_on c r with
           | h :: t => String a h :: t
           | [] => [String a EmptyString]
           end
  end.

Fixpoint join_with (sep : string) (l : list string) : string :=
  match l with
  | [] => EmptyString
  | [x] => x
  | x :: r => x +:+ sep +:+ join_with sep r
  end.

Definition segment (x : string) : Prop := x ≠ "" ∧ x ≠ ".".

Definition resolve (s : string) : path := filter segment (split_on "/" s).

Definition rooted (s : string) : bool := Strings.HasPrefix s "/".

(** [filepath.Clean], without the treatment of [..]. *)
Definition Clean (s : string) : string :=
  let body := join_with "/" (resolve s) in
  if rooted s then "/" +:+ body
  else if String.eqb body "" then "." else body.

(** [filepath.Join(a, b)]: empty elements are ignored, the result is
    cleaned. *)
Definition Join (a b : string) : string :=
  if String.eqb a "" then (if String.eqb b "" then "" else Clean b)
  else if String.eqb b "" then Clean a
  else Clean (a +:+ "/" +:+ b).

(** [q] minus its prefix [p]. *)
Fixpoint strip (p q : path) : option path :=
  match p, q with
  | [], _ => Some q
  | _ :: _, [] => None
  | x :: p', y :: q' => if decide (x = y) then strip p' q' else None
  end.

(** Two paths are comparable when one is a prefix of the other: one names
    an ancestor (or the same entry) of the other. *)
Definition comparable (p q : path) : Prop := p `prefix_of` q ∨ q `prefix_of` p.

End Path.
Import Path.

(** ** The file system *)

Inductive node :=
  | File (data : string)
  | Dir.

Global Instance node_eq_dec : EqDecision node.
Proof. solve_decision. Defined.

Definition is_file (o : option node) : bool :=
  match o with Some (File _) => true | _ => false end.

Module FS.

Definition ENOENT : error := "no such file or directory".
Definition ENOTDIR : error := "not a directory".
Definition EISDIR : error := "is a directory".
Definition EEXIST : error := "file exists".
Definition ENOTEMPTY : error := "directory not empty".
Definition EINVAL : error := "invalid argument".
Definition EBUSY : error := "device or resource busy".
Definition ENAMETOOLONG : error := "file name too long".

(** The root directory always exists; every other entry is a key. *)
Definition stat (m : gmap path node) (p : path) : option node :=
  if decide (p = []) then Some Dir else m !! p.

(** Nothing exists at [p] or below it. *)
Definition absent (m : gmap path node) (p : path) : Prop :=
  ∀ q, p `prefix_of` q → m !! q = None.

Definition child_of (p q : path) : option string :=
  match strip p q with
  | Some [n] => Some n
  | _ => None
  end.

(** [ioutil.ReadDir]: the names in a directory, sorted by file name. *)
Definition readDir (m : gmap path node) (p : path) : list string :=
  merge_sort String.le (omap (λ kv, child_of p kv.1) (map_to_list m)).

Definition has_children (m : gmap path node) (p : path) : bool :=
  bool_decide (readDir m p ≠ []).

Definition parent (p : path) : path := removelast p.

(** A path with a trailing slash must name a directory. *)
Definition dir_only (s : string) : bool := Strings.HasSuffix s "/".

Fixpoint mkdirAll_go (base rest : path) (m : gmap path node)
  : error + gmap path node :=
  match rest with
  | [] => inr m
  | x :: r =>
      let b := base ++ [x] in
      match m !! b with
      | Some (File _) => inl ENOTDIR
      | Some Dir => mkdirAll_go b r m
      | None => mkdirAll_go b r (<[b := Dir]> m)
      end
  end.

(** [os.MkdirAll]: creates the directory and every missing parent; fails,
    creating nothing, when a regular file is in the way. *)
Definition MkdirAll (p : path) (m : gmap path node)
  : option error * gmap path node :=
  match mkdirAll_go [] p m with
  | inr m' => (None, m')
  | inl e => (Some e, m)
  end.

(** [os.Mkdir]. *)
Definition Mkdir (s : string) (m : gmap path node)
  : option error * gmap path node :=
  let p := resolve s in
  match stat m p with
  | Some _ => (Some EEXIST, m)
  | None =>
      match stat m (parent p) with
      | Some Dir => (None, <[p := Dir]> m)
      | Some (File _) => (Some ENOTDIR, m)
      | None => (Some ENOENT, m)
      end
  end.

(** [os.Remove]: a file or an empty directory. *)
Definition Remove (s : string) (m : gmap path node)
  : option error * gmap path node :=
  let p := resolve s in
  if decide (p = []) then (Some EBUSY, m)
  else match m !! p with
       | None => (Some ENOENT, m)
       | Some (File _) =>
           if dir_only s then (Some ENOTDIR, m) else (None, delete p m)
       | Some Dir =>
           if has_children m p then (Some ENOTEMPTY, m)
           else (None, delete p m)
       end.

(** [endsWithDot] of [os.RemoveAll]. *)
Definition endsWithDot (s : string) : bool :=
  String.eqb s "." || Strings.HasSuffix s "/.".

(** Some proper ancestor of [p] is a regular file. *)
Fixpoint ancestors_go (base rest : path) : list path :=
  match rest with
  | [] => []
  | x :: r =>
      match r with
      | [] => []
      | _ :: _ => (base ++ [x]) :: ancestors_go (base ++ [x]) r
      end
  end.

Definition below_file (m : gmap path node) (p : path) : bool :=
  existsb (λ q, is_file (m !! q)) (ancestors_go [] p).

(** [os.RemoveAll]: removes the path and everything below it; a missing
    path is no error.  It fails on a path that ends in a dot and below a
    regular file; on a well-formed tree nothing lies below a regular file,
    so removing everything at and below the path changes nothing there. *)
Definition RemoveAll (s : string) (m : gmap path node)
  : option error * gmap path node :=
  if String.eqb s "" then (None, m)
  else if endsWithDot s then (Some EINVAL, m)
  else
    let p := resolve s in
    (if below_file m p then Some ENOTDIR else None,
     filter (λ kv, ¬ p `prefix_of` kv.1) m).

End FS.

(** ** The recursive copy utility [github.com/otiai10/copy]

    [Copy] stats the source and dispatches on its kind; a directory is copied
    by creating the destination and copying every entry that the [Skip]
    predicate does not exclude; a regular file is copied by creating the
    parent of the destination and writing the file.  The predicate is asked
    about the entries of a directory, not about the source itself. *)

Module cp.

Record Options := { OptSkip : string → bool * option error }.

(** Without options nothing is skipped. *)
Definition default : Options := {| OptSkip := λ _, (false, None) |}.

Definition fcopy (data : string) (dest : path) (m : gmap path node)
  : option error * gmap path node :=
  match FS.MkdirAll (FS.parent dest) m with
  | (Some e, m') => (Some e, m')
  | (None, m1) =>
      match FS.stat m1 dest with
      | Some Dir => (Some FS.EISDIR, m1)
      | _ => (None, <[dest := File data]> m1)
      end
  end.

(** Run [f] on every element, stopping at the first error. *)
Fixpoint for_each {A S : Type} (f : A → S → option error * S)
    (l : list A) (s : S) : option error * S :=
  match l with
  | [] => (None, s)
  | x :: r =>
      match f x s with
      | (Some e, s') => (Some e, s')
      | (None, s') => for_each f r s'
      end
  end.

(** [switchboard], [dcopy] and [copyNextOrSkip].  The directory is read
    when it is visited; [fuel] bounds the depth of the walk. *)
Fixpoint switchboard (fuel : nat) (opt : Options) (src : string)
    (sp dp : path) (m : gmap path node) : option error * gmap path node :=
  match fuel with
  | O => (Some FS.ENAMETOOLONG, m)
  | S fuel' =>
      match FS.stat m sp with
      | None => (Some FS.ENOENT, m)
      | Some (File data) => fcopy data dp m
      | Some Dir =>
          match FS.MkdirAll dp m with
          | (Some e, m') => (Some e, m')
          | (None, m1) =>
              for_each
                (λ name m',
                   let cs := Join src name in
                   match OptSkip opt cs with
                   | (_, Some e) => (Some e, m')
                   | (true, None) => (None, m')
                   | (false, None) =>
                       switchboard fuel' opt cs (sp ++ [name]) (dp ++ [name]) m'
                   end)
                (FS.readDir m1 sp) m1
          end
      end
  end.

(** The depth of the deepest entry: no walk over a tree that the copy does
    not itself keep extending goes deeper. *)
Definition depth (m : gmap path node) : nat :=
  map_fold (λ k _ acc, Nat.max (length k) acc) 0%nat m.

(** [cp.Copy(src, dest, opt)]. *)
Definition Copy (src dest : string) (opt : Options) (m : gmap path node)
  : option error * gmap path node :=
  let sp := resolve src in
  match FS.stat m sp with
  | None => (Some FS.ENOENT, m)
  | Some (File _) =>
      if FS.dir_only src then (Some FS.ENOTDIR, m)
      else switchboard (S (S (depth m))) opt src sp (resolve dest) m
  | Some Dir => switchboard (S (S (depth m))) opt src sp (resolve dest) m
  end.

End cp.

(** ** The stream editor

    [sed -i 's/PATTERN/REPLACEMENT/' file] rewrites the file line by line,
    replacing on every line the first match of the pattern.  The two scripts
    the code builds have a pattern of letters and underscores, so a pattern
    is matched literally here and a script whose pattern has a regular
    expression operator is refused; in the replacement [&] stands for the
    matched text and a backslash quotes the next byte.  Flags and further
    commands after the closing delimiter are refused. *)

Module sed.

Definition newline : ascii := "010"%char.

Inductive item := Lit (c : ascii) | Matched.

Definition is_operator (c : ascii) : bool :=
  bool_decide (c ∈ ["."; "*"; "["; "]"; "^"; "$"; "\"]%char).

Definition is_digit (c : ascii) : bool :=
  bool_decide (c ∈ ["0"; "1"; "2"; "3"; "4"; "5"; "6"; "7"; "8"; "9"]%char).

(** The pattern up to the delimiter, and what follows the delimiter. *)
Fixpoint parse_pattern (s : string) : option (string * string) :=
  match s with
  | EmptyString => None
  | String c r =>
      if Ascii.eqb c "/" then Some (EmptyString, r)
      else if is_operator c || Ascii.eqb c newline then None
      else '(p, rest) ← parse_pattern r; Some (String c p, rest)
  end.

(** The replacement up to the delimiter, and what follows the delimiter. *)
Fixpoint parse_replacement (s : string) : option (list item * string) :=
  match s with
  | EmptyString => None
  | String c r =>
      if Ascii.eqb c "/" then Some ([], r)
      else if Ascii.eqb c newline then None
      else if Ascii.eqb c "&" then
        '(t, rest) ← parse_replacement r; Some (Matched :: t, rest)
      else if Ascii.eqb c "\" then
        match r with
        | EmptyString => None
        | String d r' =>
            if is_digit d then None
            else '(t, rest) ← parse_replacement r';
                 Some (Lit (if Ascii.eqb d "n" then newline else d) :: t, rest)
        end
      else '(t, rest) ← parse_replacement r; Some (Lit c :: t, rest)
  end.

(** A script [s/PATTERN/REPLACEMENT/]. *)
Definition parse_script (script : string) : option (string * list item) :=
  match script with
  | String "s" (String "/" r) =>
      '(pat, r1) ← parse_pattern r;
      '(repl, r2) ← parse_replacement r1;
      if String.eqb pat "" then None
      else if String.eqb r2 "" then Some (pat, repl) else None
  | _ => None
  end.

Fixpoint expand (repl : list item) (matched : string) : string :=
  match repl with
  | [] => EmptyString
  | Lit c :: t => String c (expand t matched)
  | Matched :: t => matched +:+ expand t matched
  end.

(** Replace the first occurrence of [pat] in [line], when there is one. *)
Fixpoint replace_first (pat repl line : string) : option string :=
  if Strings.HasPrefix line pat
  then Some (repl +:+ Strings.drop (Strings.len pat) line)
  else match line with
       | EmptyString => None
       | String c r => String c <$> replace_first pat repl r
       end.

Definition subst_line (pat repl line : string) : string :=
  default line (replace_first pat repl line).

Definition subst (pat repl content : string) : string :=
  join_with (String newline "")
    (subst_line pat repl <$> split_on newline content).

(** [sed -i script file]. *)
Definition in_place (script file : string) (m : gmap path node)
  : option error * gmap path node :=
  match parse_script script with
  | None => (Some "sed: bad script", m)
  | Some (pat, repl) =>
      let p := resolve file in
      match m !! p with
      | None => (Some "sed: can't read: No such file or directory", m)
      | Some Dir => (Some "sed: couldn't edit: not a regular file", m)
      | Some (File content) =>
          (None, <[p := File (subst pat (expand repl pat) content)]> m)
      end
  end.

End sed.

(** ** Git repositories *)

Record Commit := {
  Message : string;
  Tree : list (path * string);
  Parents : list nat
}.

Record Repository := {
  Commits : list Commit;
  Refs : gmap string nat;
  HEAD : string;
  Remotes : gmap string (list string)
}.

Record RemoteConfig := { Name : string; URLs : list string }.

Module plumbing.
(** [plumbing.NewBranchReferenceName]. *)
Definition NewBranchReferenceName (name : string) : string :=
  "refs/heads/" +:+ name.
End plumbing.

(** ** The world: file system, repositories, and the log of operations *)

(** An external operation with its arguments. *)
Inductive Op :=
  | OpRemoveAll (path : string)
  | OpRemove (path : string)
  | OpMkdir (path : string)
  | OpCopy (src dest : string) (filtered : bool)
  | OpExec (command : string) (args : list string)
  | OpPlainInit (path : string)
  | OpCommit (repo : path) (msg : string)
  | OpSetRefToMainBranch (repo : path)
  | OpRemoveReference (repo : path) (name : string)
  | OpCreateRemote (repo : path) (c : RemoteConfig).

(** The storage behind a repository is not part of the file system model, so
    whether a git operation fails for reasons of its own is given by the
    world: [gitFault op = Some e] makes [op] fail with [e]. *)
Record World := {
  fs : gmap path node;
  repos : gmap path Repository;
  gitFault : Op → option error;
  log : list (Op * option error)
}.

Definition M (A : Type) : Type := World → A * World.

Global Instance M_ret : MRet M := λ A a w, (a, w).
Global Instance M_bind : MBind M := λ A B f m w, let (a, w') := m w in f a w'.

(** Go's [if err != nil { return ... }]. *)
Definition on_error (err : option error) (handler : error → option error)
    (k : M (option error)) : M (option error) :=
  match err with
  | Some e => mret (handler e)
  | None => k
  end.

(** An operation on the file system alone, entered in the log. *)
Definition fs_op (op : Op)
    (f : gmap path node → option error * gmap path node) : M (option error) :=
  λ w, let (err, m) := f (fs w) in
       (err, {| fs := m; repos := repos w; gitFault := gitFault w;
                log := log w ++ [(op, err)] |}).

(** An operation of the git client on the repository at [r]. *)
Definition git_op (op : Op) (r : path)
    (f : Repository → error + Repository) : M (option error) :=
  λ w,
    let finish err rs :=
      (err, {| fs := fs w; repos := rs; gitFault := gitFault w;
               log := log w ++ [(op, err)] |}) in
    match gitFault w op with
    | Some e => finish (Some e) (repos w)
    | None =>
        match repos w !! r with
        | None => finish (Some "repository does not exist") (repos w)
        | Some repo =>
            match f repo with
            | inl e => finish (Some e) (repos w)
            | inr repo' => finish None (<[r := repo']> (repos w))
            end
        end
    end.

Module os.
Definition RemoveAll (path : string) : M (option error) :=
  fs_op (OpRemoveAll path) (FS.RemoveAll path).
Definition Remove (path : string) : M (option error) :=
  fs_op (OpRemove path) (FS.Remove path).
Definition Mkdir (path : string) : M (option error) :=
  fs_op (OpMkdir path) (FS.Mkdir path).
End os.

Definition cpCopy (src dest : string) (opt : option cp.Options) : M (option error) :=
  fs_op (OpCopy src dest (bool_decide (is_Some opt)))
        (cp.Copy src dest (default cp.default opt)).

Module pkg.

(** The command lines that the model can run: the stream editor with the
    in-place flag, a script and a file. *)
Definition run_command (command : string) (args : list string)
    (m : gmap path node) : option error * gmap path node :=
  match args with
  | [flag; script; file] =>
      if String.eqb command "sed" && String.eqb flag "-i"
      then sed.in_place script file m
      else (Some "exec: executable file not found in $PATH", m)
  | _ => (Some "exec: executable file not found in $PATH", m)
  end.

(** Modelled from the spec: [pkg.ExecShellReturnStrings], the
    process-execution helper [run(command, args...) -> (stdout, stderr,
    error)]; it is used only to run the stream editor with the in-place
    flag, a substitution script and a file, and any other command line is
    reported as a failure to start the process. *)
Definition ExecShellReturnStrings (command : string) (args : list string)
  : M (string * string * option error) :=
  err ← fs_op (OpExec command args) (run_command command args);
  mret ("", default "" err, err).

End pkg.

Module git.

Definition ErrRepositoryAlreadyExists : error := "repository already exists".
Definition ErrRemoteExists : error := "remote already exists".
Definition ErrRemoteConfigEmptyName : error := "remote config: empty name".
Definition ErrRemoteConfigEmptyURL : error := "remote config: empty URL".
Definition ErrReferenceNotFound : error := "reference not found".

Definition empty : Repository :=
  {| Commits := []; Refs := ∅;
     HEAD := plumbing.NewBranchReferenceName "master"; Remotes := ∅ |}.

(** [git.PlainInit(path, false)]: a new repository with a worktree at
    [path] and its storage in [path/.git]; the handle it returns is the
    location of the repository. *)
Definition PlainInit (dir : string) : M (path * option error) :=
  λ w,
    let r := resolve dir in
    let finish err m rs :=
      ((r, err), {| fs := m; repos := rs; gitFault := gitFault w;
                    log := log w ++ [(OpPlainInit dir, err)] |}) in
    match gitFault w (OpPlainInit dir) with
    | Some e => finish (Some e) (fs w) (repos w)
    | None =>
        match repos w !! r with
        | Some _ => finish (Some ErrRepositoryAlreadyExists) (fs w) (repos w)
        | None =>
            match FS.MkdirAll (r ++ [".git"]) (fs w) with
            | (Some e, m) => finish (Some e) m (repos w)
            | (None, m) => finish None m (<[r := empty]> (repos w))
            end
        end
    end.

(** [Repository.Storer.RemoveReference]: removing a reference that does
    not exist is no error. *)
Definition RemoveReference (r : path) (name : string) : M (option error) :=
  git_op (OpRemoveReference r name) r
    (λ repo, inr {| Commits := Commits repo; Refs := delete name (Refs repo);
                    HEAD := HEAD repo; Remotes := Remotes repo |}).

(** [Repository.CreateRemote]. *)
Definition CreateRemote (r : path) (c : RemoteConfig) : M (option error) :=
  git_op (OpCreateRemote r c) r
    (λ repo,
       if String.eqb (Name c) "" then inl ErrRemoteConfigEmptyName
       else if bool_decide (URLs c = []) then inl ErrRemoteConfigEmptyURL
       else match Remotes repo !! Name c with
            | Some _ => inl ErrRemoteExists
            | None =>
                inr {| Commits := Commits repo; Refs := Refs repo;
                       HEAD := HEAD repo;
                       Remotes := <[Name c := URLs c]> (Remotes repo) |}
            end).

End git.

Module gitClient.

(** The regular files of the worktree at [r], without the repository's own
    storage. *)
Definition worktree (m : gmap path node) (r : path) : list (path * string) :=
  omap (λ kv, match strip r kv.1, kv.2 with
              | Some (x :: rel), File data =>
                  if decide (x = ".git") then None else Some (x :: rel, data)
              | _, _ => None
              end) (map_to_list m).

(** Modelled from the spec: [gitClient.Commit], which is to "stage and
    commit all copied content as a single initial commit with a fixed
    message": one commit of the whole worktree is added on the branch that
    [HEAD] names, with the commit that branch pointed to (if any) as its
    parent. *)
Definition Commit (r : path) (msg : string) : M (option error) :=
  λ w,
    git_op (OpCommit r msg) r
      (λ repo,
         let c := {| Message := msg; Tree := worktree (fs w) r;
                     Parents := option_list (Refs repo !! HEAD repo) |} in
         inr {| Commits := Commits repo ++ [c];
                Refs := <[HEAD repo := length (Commits repo)]> (Refs repo);
                HEAD := HEAD repo; Remotes := Remotes repo |}) w.

(** Modelled from the spec: [gitClient.SetRefToMainBranch], which is to
    "rename/normalize the repository's default branch to the canonical main
    branch" and leaves the superseded branch reference for the caller to
    remove: the branch [main] is set to the commit of [HEAD], and [HEAD] is
    moved to it.  It returns the repository it was given. *)
Definition SetRefToMainBranch (r : path) : M (path * option error) :=
  λ w,
    let (err, w') :=
      git_op (OpSetRefToMainBranch r) r
        (λ repo,
           match Refs repo !! HEAD repo with
           | None => inl git.ErrReferenceNotFound
           | Some h =>
               let main := plumbing.NewBranchReferenceName "main" in
               inr {| Commits := Commits repo;
                      Refs := <[main := h]> (Refs repo);
                      HEAD := main; Remotes := Remotes repo |}
           end) w in
    ((r, err), w').

End gitClient.

(** ** Package [k3d] *)

(** Constants of [config.go]. *)
Definition CloudProvider : string := "k3d".
Definition DomainName : string := "kubefirst.dev".
Definition GithubHost : string := "github.com".
Definition GitlabHost : string := "gitlab.com".

(** [for _, x := range l { body }]. *)
Fixpoint range {A : Type} (l : list A) (body : A → M unit) : M unit :=
  match l with
  | [] => mret ()
  | x :: r => _ ← body x; range r body
  end.

(** The double quote, as a one-byte string. *)
Definition dquote : ascii := "034"%char.
Definition quote : string := String dquote EmptyString.

(** The copy options of both functions. *)
Definition opt : cp.Options := {| cp.OptSkip := Skip |}.

Section adjustContent.

(** [pkg.SupportedPlatforms] and [pkg.LocalhostARCH] are declared in
    package [pkg]: the list of [{cloudProvider}-{gitProvider}] directory
    names, and [runtime.GOARCH]. *)
Variable SupportedPlatforms : list string.
Variable LocalhostARCH : string.

(** adjustContent.go, lines 25-30: clean up all other platforms.  The
    result of [os.RemoveAll] is dropped. *)
Definition cleanUpPlatforms (gitopsRepoDir gitProvider : string) : M unit :=
  range SupportedPlatforms (λ platform,
    if bool_decide (platform ≠ CloudProvider +:+ "-" +:+ gitProvider)
    then _ ← os.RemoveAll (gitopsRepoDir +:+ "/" +:+ platform); mret ()
    else mret ()).

Definition driverContent (gitopsRepoDir gitProvider : string) : string :=
  gitopsRepoDir +:+ "/" +:+ CloudProvider +:+ "-" +:+ gitProvider +:+ "/".

Definition clusterContent (gitopsRepoDir clusterType : string) : string :=
  gitopsRepoDir +:+ "/cluster-types/" +:+ clusterType.

Definition registryLocation (gitopsRepoDir clusterName : string) : string :=
  gitopsRepoDir +:+ "/registry/" +:+ clusterName.

Definition amdConsoleFileLocation (gitopsRepoDir clusterName : string) :=
  registryLocation gitopsRepoDir clusterName
    +:+ "/components/kubefirst/console.yaml".

Definition armConsoleFileLocation (gitopsRepoDir clusterName : string) :=
  registryLocation gitopsRepoDir clusterName
    +:+ "/components/kubefirst/console-arm.yaml".

Definition atlantisRegistryFileLocation (gitopsRepoDir clusterName : string) :=
  registryLocation gitopsRepoDir clusterName +:+ "/atlantis.yaml".

Definition reposTf (gitopsRepoDir : string) : string :=
  gitopsRepoDir +:+ "/" +:+ "terraform/github/repos.tf".

Definition reposTfTmpl (gitopsRepoDir : string) : string :=
  gitopsRepoDir +:+ "/" +:+ "terraform/github/repos.tf.tmpl".

Definition gitopsPattern (gitopsRepoName : string) : string :=
  "s/GITOPS_REPO_NAME/" +:+ quote +:+ gitopsRepoName +:+ quote +:+ "/".

Definition metaphorPattern (metaphorRepoName : string) : string :=
  "s/METAPHOR_REPO_NAME/" +:+ quote +:+ metaphorRepoName +:+ quote +:+ "/".

(** adjustContent.go, lines 25-61: the other platforms are removed, the
    content of the [k3d] variant is copied over the root and the variant
    removed, and the content of the cluster type is copied into the
    registry.  ([log] calls have no effect on the world and are left
    out.) *)
Definition promoteContent
    (clusterName clusterType gitopsRepoDir gitProvider : string)
  : M (option error) :=
  _ ← cleanUpPlatforms gitopsRepoDir gitProvider;
  err ← cpCopy (driverContent gitopsRepoDir gitProvider) gitopsRepoDir (Some opt);
  on_error err Some (
    _ ← os.RemoveAll (driverContent gitopsRepoDir gitProvider);
    err ← cpCopy (clusterContent gitopsRepoDir clusterType)
                 (registryLocation gitopsRepoDir clusterName) (Some opt);
    on_error err Some (mret None)).

(** adjustContent.go, lines 62-77: the cluster types and the services are
    removed, then one of the two console manifests, then the Atlantis
    manifest on request.  The results of the removals are dropped. *)
Definition pruneRegistry
    (cloudProvider clusterName gitopsRepoDir : string) (removeAtlantis : bool)
  : M unit :=
  _ ← os.RemoveAll (gitopsRepoDir +:+ "/cluster-types");
  _ ← os.RemoveAll (gitopsRepoDir +:+ "/services");
  _ ← (if String.eqb LocalhostARCH "arm64" && String.eqb cloudProvider CloudProvider
       then os.Remove (amdConsoleFileLocation gitopsRepoDir clusterName)
       else os.Remove (armConsoleFileLocation gitopsRepoDir clusterName));
  if removeAtlantis
  then _ ← os.Remove (atlantisRegistryFileLocation gitopsRepoDir clusterName);
       mret ()
  else mret ().

(** adjustContent.go, lines 79-98: [repos.tf] is copied from its template
    and the gitops repository name substituted in it. *)
Definition detokenizeReposTf (gitopsRepoDir gitopsRepoName : string)
  : M (option error) :=
  err ← cpCopy (reposTfTmpl gitopsRepoDir) (reposTf gitopsRepoDir) None;
  on_error err Some (
    '(_, _, err) ← pkg.ExecShellReturnStrings "sed"
                     ["-i"; gitopsPattern gitopsRepoName; reposTf gitopsRepoDir];
    on_error err Some (mret err)).

Definition AdjustGitopsRepo
    (cloudProvider clusterName clusterType gitopsRepoDir gitopsRepoName
       gitProvider k1Dir : string) (removeAtlantis : bool)
  : M (option error) :=
  err ← promoteContent clusterName clusterType gitopsRepoDir gitProvider;
  on_error err Some (
    _ ← pruneRegistry cloudProvider clusterName gitopsRepoDir removeAtlantis;
    detokenizeReposTf gitopsRepoDir gitopsRepoName).

(** adjustContent.go, lines 135-155: copy ci content. *)
Definition copyCIContent (gitProvider k1Dir metaphorDir : string)
  : M (option error) :=
  if String.eqb gitProvider "github" then
    cpCopy (k1Dir +:+ "/gitops/ci/.github") (metaphorDir +:+ "/.github") (Some opt)
  else if String.eqb gitProvider "gitlab" then
    cpCopy (k1Dir +:+ "/gitops/ci/.gitlab-ci.yml")
           (metaphorDir +:+ "/.gitlab-ci.yml") (Some opt)
  else mret None.

(** adjustContent.go, lines 178-215: commit, rename the branch, detokenize
    [repos.tf], create the remote. *)
Definition commitAndPublish
    (metaphorRepo : path)
    (destinationMetaphorRepoGitURL gitopsRepoDir metaphorRepoName : string)
  : M (option error) :=
  err ← gitClient.Commit metaphorRepo
          "committing initial detokenized metaphor repo content";
  on_error err Some (
    '(metaphorRepo, err) ← gitClient.SetRefToMainBranch metaphorRepo;
    on_error err Some (
      err ← git.RemoveReference metaphorRepo
              (plumbing.NewBranchReferenceName "master");
      on_error err (λ e, Some ("error removing previous git ref: " +:+ e)) (
        '(_, _, err) ← pkg.ExecShellReturnStrings "sed"
           ["-i"; metaphorPattern metaphorRepoName;
            gitopsRepoDir +:+ "/terraform/github/repos.tf"];
        on_error err
          (λ e, Some ("error replacing gitops repo name in repos.tf: " +:+ e)) (
          err ← git.CreateRemote metaphorRepo
                  {| Name := "origin"; URLs := [destinationMetaphorRepoGitURL] |};
          on_error err
            (λ e, Some ("error problem creating Metaphore repo: URL="
                          +:+ destinationMetaphorRepoGitURL +:+ ": " +:+ e))
            (mret err))))).

Definition AdjustMetaphorRepo
    (destinationMetaphorRepoGitURL gitopsRepoDir metaphorRepoName
       gitProvider k1Dir : string) : M (option error) :=
  let metaphorDir := k1Dir +:+ "/metaphor" in
  _ ← os.Mkdir metaphorDir;
  '(metaphorRepo, err) ← git.PlainInit metaphorDir;
  on_error err Some (
    err ← cpCopy (gitopsRepoDir +:+ "/metaphor") metaphorDir (Some opt);
    on_error err Some (
      err ← copyCIContent gitProvider k1Dir metaphorDir;
      on_error err Some (
        err ← cpCopy (k1Dir +:+ "/gitops/ci/.argo") (metaphorDir +:+ "/.argo")
                (Some opt);
        on_error err Some (
          _ ← os.Mkdir (metaphorDir +:+ "/build");
          err ← cpCopy (metaphorDir +:+ "/Dockerfile")
                  (metaphorDir +:+ "/build/Dockerfile") (Some opt);
          on_error err Some (
            _ ← os.RemoveAll (gitopsRepoDir +:+ "/ci");
            _ ← os.RemoveAll (gitopsRepoDir +:+ "/metaphor");
            commitAndPublish metaphorRepo destinationMetaphorRepoGitURL
              gitopsRepoDir metaphorRepoName))))).

End adjustContent.

(** ** [config.go] *)

Record K3dConfig := {
  GithubToken : string;
  GitlabToken : string;
  DestinationGitopsRepoGitURL : string;
  DestinationGitopsRepoURL : string;
  DestinationMetaphorRepoURL : string;
  DestinationMetaphorRepoGitURL : string;
  DestinationGitopsRepoHttpsURL : string;
  DestinationMetaphorRepoHttpsURL : string;
  GitopsDir : string;
  GitProvider : string;
  GitProtocol : string;
  K1Dir : string;
  K3dClient : string;
  Kubeconfig : string;
  KubectlClient : string;
  KubefirstConfig : string;
  MetaphorDir : string;
  MkCertClient : string;
  MkCertPemDir : string;
  MkCertSSLSecretDir : string;
  TerraformClient : string;
  ToolsDir : string;
  GitopsRepoName : string;
  MetaphorRepoName : string
}.

(** What a call does to its caller: it returns, or it ends the process
    ([log.Fatal] writes the message and calls [os.Exit(1)]). *)
Inductive outcome (A : Type) :=
  | Returns (a : A)
  | Exits (status : Z).
Global Arguments Returns {A} a.
Global Arguments Exits {A} status.

(** The process environment. *)
Record Environ := { Getenv : string → string }.

(** [os.UserHomeDir] on Unix: the value of [$HOME], an error when it is
    empty. *)
Definition UserHomeDir (e : Environ) : string * option error :=
  let v := Getenv e "HOME" in
  if String.eqb v "" then ("", Some "$HOME is not defined") else (v, None).

(** [env.Parse(&config)]: no field of [K3dConfig] carries an [env] tag, so
    parsing the environment into it sets nothing. *)
Definition envParse (e : Environ) (config : K3dConfig) : K3dConfig * option error :=
  (config, None).

Definition zeroConfig : K3dConfig :=
  {| GithubToken := ""; GitlabToken := "";
     DestinationGitopsRepoGitURL := ""; DestinationGitopsRepoURL := "";
     DestinationMetaphorRepoURL := ""; DestinationMetaphorRepoGitURL := "";
     DestinationGitopsRepoHttpsURL := ""; DestinationMetaphorRepoHttpsURL := "";
     GitopsDir := ""; GitProvider := ""; GitProtocol := ""; K1Dir := "";
     K3dClient := ""; Kubeconfig := ""; KubectlClient := "";
     KubefirstConfig := ""; MetaphorDir := ""; MkCertClient := "";
     MkCertPemDir := ""; MkCertSSLSecretDir := ""; TerraformClient := "";
     ToolsDir := ""; GitopsRepoName := ""; MetaphorRepoName := "" |}.

(** [cGitHost] describes which git host to use depending on [gitProvider];
    the switch has no default case. *)
Definition cGitHost (gitProvider : string) : string :=
  if String.eqb gitProvider "github" then GithubHost
  else if String.eqb gitProvider "gitlab" then GitlabHost
  else "".

Definition GetConfig (e : Environ)
    (configName clusterName gitopsRepoName metaphorRepoName gitProvider
       gitOwner gitProtocol : string) : outcome K3dConfig :=
  let '(config, _) := envParse e zeroConfig in
  match UserHomeDir e with
  | (_, Some _) => Exits 1
  | (homeDir, None) =>
      let host := cGitHost gitProvider in
      let base := homeDir +:+ "/.k1/configs/" +:+ configName in
      Returns
        {| GithubToken := GithubToken config;
           GitlabToken := GitlabToken config;
           DestinationGitopsRepoGitURL :=
             "git@" +:+ host +:+ ":" +:+ gitOwner +:+ "/" +:+ gitopsRepoName +:+ ".git";
           DestinationGitopsRepoURL :=
             "https://" +:+ host +:+ "/" +:+ gitOwner +:+ "/" +:+ gitopsRepoName +:+ ".git";
           DestinationMetaphorRepoURL :=
             "https://" +:+ host +:+ "/" +:+ gitOwner +:+ "/" +:+ metaphorRepoName +:+ ".git";
           DestinationMetaphorRepoGitURL :=
             "git@" +:+ host +:+ ":" +:+ gitOwner +:+ "/" +:+ metaphorRepoName +:+ ".git";
           DestinationGitopsRepoHttpsURL := DestinationGitopsRepoHttpsURL config;
           DestinationMetaphorRepoHttpsURL := DestinationMetaphorRepoHttpsURL config;
           GitopsDir := base +:+ "/gitops";
           GitProvider := gitProvider;
           GitProtocol := gitProtocol;
           K1Dir := base;
           K3dClient := base +:+ "/tools/k3d";
           Kubeconfig := base +:+ "/kubeconfig";
           KubectlClient := base +:+ "/tools/kubectl";
           KubefirstConfig := base +:+ "/" +:+ ".kubefirst";
           MetaphorDir := base +:+ "/metaphor";
           MkCertClient := base +:+ "/tools/mkcert";
           MkCertPemDir := base +:+ "/ssl/" +:+ DomainName +:+ "/pem";
           MkCertSSLSecretDir := base +:+ "/ssl/" +:+ DomainName +:+ "/secrets";
           TerraformClient := base +:+ "/tools/terraform";
           ToolsDir := base +:+ "/tools";
           GitopsRepoName := gitopsRepoName;
           MetaphorRepoName := metaphorRepoName |}
  end.

(** ** Notions used in the statements *)

(** [m'] differs from [m] only at ancestors of [d], at [d] and below it. *)
Definition within (d : path) (m m' : gmap path node) : Prop :=
  ∀ q, ¬ comparable q d → m' !! q = m !! q.

(** Every run of [c] from a file system satisfying [P] ends in one satisfying
    [Q], whatever it returns. *)
Definition hoare {A : Type} (P : gmap path node → Prop) (c : M A)
    (Q : gmap path node → Prop) : Prop :=
  ∀ w, P (fs w) → Q (fs (c w).2).

(** No run of [c] changes what is found at [q]. *)
Definition keeps {A : Type} (q : path) (c : M A) : Prop :=
  ∀ w, fs (c w).2 !! q = fs w !! q.

(** The operations whose failure the code checks: copies and subprocesses.
    (The results of [os.RemoveAll], [os.Remove] and [os.Mkdir] are
    dropped.) *)
Definition fatal (op : Op) : bool :=
  match op with
  | OpCopy _ _ _ | OpExec _ _ => true
  | _ => false
  end.

Definition deletes (op : Op) : bool :=
  match op with
  | OpRemoveAll _ | OpRemove _ => true
  | _ => false
  end.

(** What a run adds to the log. *)
Definition trace {A : Type} (c : M A) (w : World) : list (Op * option error) :=
  drop (length (log w)) (log (c w).2).

(** The log only grows. *)
Definition extends {A : Type} (c : M A) : Prop :=
  ∀ w, log (c w).2 = log w ++ trace c w.

(** No operation whose failure the code checks has failed. *)
Definition clean (l : list (Op * option error)) : Prop :=
  ∀ op e, (op, Some e) ∈ l → fatal op = false.

(** The discipline of the error checks: either the run returns [nil] and no
    checked operation failed, or the last operation of the run is a checked
    one that failed, and the run returns its error. *)
Definition aborts_on_fatal (r : option error) (l : list (Op * option error))
  : Prop :=
  (r = None ∧ clean l) ∨
  (∃ l0 op e, l = l0 ++ [(op, Some e)] ∧ fatal op = true ∧ r = Some e ∧ clean l0).

Definition quiet {A : Type} (c : M A) : Prop :=
  extends c ∧ ∀ w, clean (trace c w).

Definition obeys (c : M (option error)) : Prop :=
  extends c ∧ ∀ w, aborts_on_fatal (c w).1 (trace c w).

Fixpoint has_byte (c : ascii) (s : string) : bool :=
  match s with
  | EmptyString => false
  | String a r => Ascii.eqb a c || has_byte c r
  end.

(** A name of a directory entry. *)
Definition entry_name (x : string) : Prop :=
  x ≠ "" ∧ x ≠ "." ∧ has_byte "/" x = false.

(** A [{cloudProvider}-{gitProvider}] directory name. *)
Definition pair_name (x : string) : Prop :=
  entry_name x ∧ has_byte "-" x = true.

Definition is_RemoveReference (op : Op) : Prop :=
  match op with
  | OpRemoveReference _ _ => True
  | _ => False
  end.

(** No run of [c] performs an operation in [S]. *)
Definition never {A : Type} (S : Op → Prop) (c : M A) : Prop :=
  extends c ∧ ∀ w op res, (op, res) ∈ trace c w → ¬ S op.

Definition is_Exec (op : Op) : Prop :=
  match op with
  | OpExec _ _ => True
  | _ => False
  end.

(** A run in which an operation in [S] fails returns that error under
    [message]. *)
Definition reports (S : Op → Prop) (message : string) (c : M (option error))
  : Prop :=
  extends c ∧
  ∀ w op e, S op → (op, Some e) ∈ trace c w → (c w).1 = Some (message +:+ e).

(** The replacement that stands for a string taken literally. *)
Fixpoint lits (s : string) : list sed.item :=
  match s with
  | EmptyString => []
  | String c r => sed.Lit c :: lits r
  end.

(** A string with none of the bytes that are special in the replacement part
    of a [sed] substitution: the delimiter, [&], the backslash and the
    newline. *)
Fixpoint sed_plain (s : string) : bool :=
  match s with
  | EmptyString => true
  | String c r =>
      negb (Ascii.eqb c "/" || Ascii.eqb c "&" || Ascii.eqb c "092"
            || Ascii.eqb c sed.newline)
      && sed_plain r
  end.

(** [sub] occurs at most once in [line]; at most once on every line of
    [content]. *)
Definition at_most_once (sub line : string) : Prop :=
  ∀ i j, Strings.occurs_at i sub line → Strings.occurs_at j sub line → i = j.

Definition once_per_line (sub content : string) : Prop :=
  ∀ line, line ∈ split_on sed.newline content → at_most_once sub line.

(** [line'] is [line] with its first occurrence of [pat], when it has one,
    replaced by [repl]. *)
Definition first_replaced (pat repl line line' : string) : Prop :=
  (¬ Strings.contains pat line ∧ line' = line)
  ∨ ∃ pre post,
      line = pre +:+ pat +:+ post ∧ line' = pre +:+ repl +:+ post
      ∧ ∀ i, Strings.occurs_at i pat line → (Strings.len pre ≤ i)%nat.

(** [after] is [before] with that done on every line. *)
Definition substituted (pat repl before after : string) : Prop :=
  ∃ lines,
    Forall2 (first_replaced pat repl) (split_on sed.newline before) lines
    ∧ after = join_with (String sed.newline "") lines.

(** A name in double quotes. *)
Definition quoted (name : string) : string := quote +:+ name +:+ quote.

(** What a substitution of the quoted [name] for [placeholder] makes of a
    file: on every line the first occurrence is replaced; the quoted name is
    there when the placeholder was; no placeholder is left when no line had
    two and the name has none. *)
Definition detokenized (placeholder name before after : string) : Prop :=
  substituted placeholder (quoted name) before after
  ∧ (Strings.contains placeholder before →
     Strings.contains (quoted name) after)
  ∧ (once_per_line placeholder before →
     ¬ Strings.contains placeholder name →
     ¬ Strings.contains placeholder after).

(** In a run of [c] in which a subprocess succeeds, the file at [p] was a
    regular file and is one now, detokenized. *)
Definition replaces (p : path) (placeholder name : string)
    (c : M (option error)) : Prop :=
  extends c ∧
  ∀ w command args, (OpExec command args, None) ∈ trace c w →
    ∃ before after,
      fs w !! p = Some (File before)
      ∧ fs (c w).2 !! p = Some (File after)
      ∧ detokenized placeholder name before after.

Definition is_copy (op : Op) : bool :=
  match op with
  | OpCopy _ _ _ => true
  | _ => false
  end.

(** The copy of CI content that [AdjustMetaphorRepo] makes, by gitProvider. *)
Definition ciCopies (gitProvider k1Dir metaphorDir : string) : list Op :=
  if String.eqb gitProvider "github" then
    [OpCopy (k1Dir +:+ "/gitops/ci/.github") (metaphorDir +:+ "/.github") true]
  else if String.eqb gitProvider "gitlab" then
    [OpCopy (k1Dir +:+ "/gitops/ci/.gitlab-ci.yml")
       (metaphorDir +:+ "/.gitlab-ci.yml") true]
  else [].

Definition commitMessage : string :=
  "committing initial detokenized metaphor repo content".

(** The repository that a successful [AdjustMetaphorRepo] leaves: one commit
    of the worktree, the branch [main] on it, [HEAD] on [main], and the
    remote [origin]. *)
Definition assembledRepository (tree : list (path * string)) (url : string)
  : Repository :=
  {| Commits := [{| Message := commitMessage; Tree := tree; Parents := [] |}];
     Refs := {[ plumbing.NewBranchReferenceName "main" := 0%nat ]};
     HEAD := plumbing.NewBranchReferenceName "main";
     Remotes := {[ "origin" := [url] ]} |}.

(** ** Example environments and worlds *)

Definition unixEnviron : Environ :=
  {| Getenv := λ k, if String.eqb k "HOME" then "/home/dev" else "" |}.

Definition mkfs (entries : list (string * node)) : gmap path node :=
  list_to_map ((λ e, (resolve e.1, e.2)) <$> entries).

Definition examplePlatforms : list string :=
  ["aws-github"; "aws-gitlab"; "civo-github"; "civo-gitlab";
   "k3d-github"; "k3d-gitlab"].

(** A [repos.tf.tmpl] with both placeholders, each on a line of its own. *)
Definition templateReposTf : string :=
  "gitops = GITOPS_REPO_NAME
metaphor = METAPHOR_REPO_NAME
".

(** A line with the placeholder twice. *)
Definition repeatedReposTf : string :=
  "gitops = GITOPS_REPO_NAME # was GITOPS_REPO_NAME".

(** A template tree cloned to [/k1/gitops]. *)
Definition templateTree : gmap path node :=
  mkfs [
    ("/k1", Dir);
    ("/k1/gitops", Dir);
    ("/k1/gitops/.git", Dir);
    ("/k1/gitops/.git/HEAD", File "ref: refs/heads/main");
    ("/k1/gitops/aws-github", Dir);
    ("/k1/gitops/aws-github/terraform", Dir);
    ("/k1/gitops/aws-github/terraform/main.tf", File "aws");
    ("/k1/gitops/aws-gitlab", Dir);
    ("/k1/gitops/civo-github", Dir);
    ("/k1/gitops/civo-gitlab", Dir);
    ("/k1/gitops/k3d-github", Dir);
    ("/k1/gitops/k3d-github/terraform", Dir);
    ("/k1/gitops/k3d-github/terraform/github", Dir);
    ("/k1/gitops/k3d-github/terraform/github/repos.tf.tmpl",
       File templateReposTf);
    ("/k1/gitops/k3d-github/terraform/.terraform", Dir);
    ("/k1/gitops/k3d-github/terraform/.terraform/lock", File "lock");
    ("/k1/gitops/k3d-gitlab", Dir);
    ("/k1/gitops/k3d-gitlab/terraform", Dir);
    ("/k1/gitops/cluster-types", Dir);
    ("/k1/gitops/cluster-types/local", Dir);
    ("/k1/gitops/cluster-types/local/atlantis.yaml", File "atlantis");
    ("/k1/gitops/cluster-types/local/components", Dir);
    ("/k1/gitops/cluster-types/local/components/kubefirst", Dir);
    ("/k1/gitops/cluster-types/local/components/kubefirst/console.yaml",
       File "amd64");
    ("/k1/gitops/cluster-types/local/components/kubefirst/console-arm.yaml",
       File "arm64");
    ("/k1/gitops/cluster-types/production", Dir);
    ("/k1/gitops/services", Dir);
    ("/k1/gitops/services/README.md", File "legacy");
    ("/k1/gitops/metaphor", Dir);
    ("/k1/gitops/metaphor/Dockerfile", File "FROM scratch");
    ("/k1/gitops/metaphor/main.go", File "package main");
    ("/k1/gitops/ci", Dir);
    ("/k1/gitops/ci/.github", Dir);
    ("/k1/gitops/ci/.github/workflows", Dir);
    ("/k1/gitops/ci/.github/workflows/main.yaml", File "on: push");
    ("/k1/gitops/ci/.gitlab-ci.yml", File "stages: [build]");
    ("/k1/gitops/ci/.argo", Dir);
    ("/k1/gitops/ci/.argo/ci.yaml", File "kind: Workflow")
  ].

Definition noFault : Op → option error := λ _, None.

Definition templateWorld : World :=
  {| fs := templateTree; repos := ∅; gitFault := noFault; log := [] |}.

(** The same template, where the [k3d-github] variant has a directory named
    like another platform. *)
Definition nestedTree : gmap path node :=
  mkfs [
    ("/k1/gitops/k3d-github/aws-github", Dir);
    ("/k1/gitops/k3d-github/aws-github/README.md", File "notes")
  ] ∪ templateTree.

Definition nestedWorld : World :=
  {| fs := nestedTree; repos := ∅; gitFault := noFault; log := [] |}.

(** The same template, where the placeholder stands twice on a line of
    [repos.tf.tmpl]. *)
Definition repeatedTree : gmap path node :=
  mkfs [
    ("/k1/gitops/k3d-github/terraform/github/repos.tf.tmpl",
       File repeatedReposTf)
  ] ∪ templateTree.

Definition repeatedWorld : World :=
  {| fs := repeatedTree; repos := ∅; gitFault := noFault; log := [] |}.

(** The world that [AdjustGitopsRepo] leaves from the template. *)
Definition gitopsWorld : World :=
  (AdjustGitopsRepo examplePlatforms "amd64" "k3d" "dev" "local" "/k1/gitops"
     "gitops" "github" "/k1" true templateWorld).2.

(** The same, with a storage that refuses to remove references. *)
Definition lockedRefsWorld : World :=
  {| fs := fs gitopsWorld; repos := ∅;
     gitFault := λ op, match op with
                       | OpRemoveReference _ _ => Some "permission denied"
                       | _ => None
                       end;
     log := [] |}.


(** ** Notions used in the further properties *)

(** A config as [GetConfig] lays out its paths below [K1Dir]. *)
Definition laid_out (home configName : string) (config : K3dConfig) : Prop :=
  K1Dir config = home +:+ "/.k1/configs/" +:+ configName
  ∧ GitopsDir config = K1Dir config +:+ "/gitops"
  ∧ MetaphorDir config = K1Dir config +:+ "/metaphor"
  ∧ Kubeconfig config = K1Dir config +:+ "/kubeconfig"
  ∧ KubefirstConfig config = K1Dir config +:+ "/.kubefirst"
  ∧ ToolsDir config = K1Dir config +:+ "/tools"
  ∧ K3dClient config = ToolsDir config +:+ "/k3d"
  ∧ KubectlClient config = ToolsDir config +:+ "/kubectl"
  ∧ MkCertClient config = ToolsDir config +:+ "/mkcert"
  ∧ TerraformClient config = ToolsDir config +:+ "/terraform"
  ∧ MkCertPemDir config = K1Dir config +:+ "/ssl/" +:+ DomainName +:+ "/pem"
  ∧ MkCertSSLSecretDir config
    = K1Dir config +:+ "/ssl/" +:+ DomainName +:+ "/secrets".

(** An environment with the tokens set. *)
Definition tokenEnviron : Environ :=
  {| Getenv := λ k,
       if String.eqb k "HOME" then "/home/dev"
       else if String.eqb k "GITHUB_TOKEN" then "ghp_example"
       else if String.eqb k "GITLAB_TOKEN" then "glpat_example"
       else "" |}.

(** No run of [c] changes a repository; no run changes the one at [r]. *)
Definition keeps_repos {A : Type} (c : M A) : Prop :=
  ∀ w, repos (c w).2 = repos w.

Definition keeps_repo {A : Type} (r : path) (c : M A) : Prop :=
  ∀ w, repos (c w).2 !! r = repos w !! r.

(** The file system after every run of [c] that returns [nil] satisfies
    [Q]. *)
Definition ensures (c : M (option error)) (Q : gmap path node → Prop) : Prop :=
  ∀ w, (c w).1 = None → Q (fs (c w).2).

(** The template next to a kubeconfig and the tools, and a repository that
    is not the metaphor one. *)
Definition sharedTree : gmap path node :=
  mkfs [
    ("/k1/kubeconfig", File "clusters: []");
    ("/k1/tools", Dir);
    ("/k1/tools/k3d", File "k3d")
  ] ∪ templateTree.

Definition sharedWorld : World :=
  {| fs := sharedTree; repos := {[ resolve "/k1/other" := git.empty ]};
     gitFault := noFault; log := [] |}.

(** The world that [AdjustGitopsRepo] leaves from it. *)
Definition sharedGitopsWorld : World :=
  (AdjustGitopsRepo examplePlatforms "amd64" "k3d" "dev" "local" "/k1/gitops"
     "gitops" "github" "/k1" true sharedWorld).2.

(** The operations whose failure [AdjustMetaphorRepo] checks: the copies,
    the subprocess and the operations of the git client.  (The results of
    [os.Mkdir] and [os.RemoveAll] are dropped.) *)
Definition checked (op : Op) : bool :=
  match op with
  | OpRemoveAll _ | OpRemove _ | OpMkdir _ => false
  | _ => true
  end.

(** The error that [AdjustMetaphorRepo] returns for the error [e] of a
    checked operation: three of them under a message, the others as they
    are. *)
Definition metaphorError (url : string) (op : Op) (e : error) : error :=
  match op with
  | OpRemoveReference _ _ => "error removing previous git ref: " +:+ e
  | OpExec _ _ => "error replacing gitops repo name in repos.tf: " +:+ e
  | OpCreateRemote _ _ =>
      "error problem creating Metaphore repo: URL=" +:+ url +:+ ": " +:+ e
  | _ => e
  end.

(** No checked operation has failed. *)
Definition unchecked_failures (l : list (Op * option error)) : Prop :=
  ∀ op e, (op, Some e) ∈ l → checked op = false.

(** Either the run returns [nil] and no checked operation failed, or its
    last operation is a checked one that failed, the only one, and the run
    returns the error that [wrap] makes of its error. *)
Definition aborts_with (wrap : Op → error → error) (r : option error)
    (l : list (Op * option error)) : Prop :=
  (r = None ∧ unchecked_failures l)
  ∨ ∃ l0 op e,
      l = l0 ++ [(op, Some e)] ∧ checked op = true ∧ r = Some (wrap op e)
      ∧ unchecked_failures l0.

Definition silent {A : Type} (c : M A) : Prop :=
  extends c ∧ ∀ w, unchecked_failures (trace c w).

Definition disciplined (wrap : Op → error → error) (c : M (option error))
  : Prop :=
  extends c ∧ ∀ w, aborts_with wrap (c w).1 (trace c w).

(** The world left by [AdjustGitopsRepo], with a storage that refuses to
    write a remote. *)
Definition readOnlyConfigWorld : World :=
  {| fs := fs gitopsWorld; repos := ∅;
     gitFault := λ op, match op with
                       | OpCreateRemote _ _ => Some "config is read-only"
                       | _ => None
                       end;
     log := [] |}.

(** [m'] is [m] changed at [d] and below it, and with directories made for
    the missing ancestors of [d]. *)
Definition written (d : path) (m m' : gmap path node) : Prop :=
  ∀ q, m' !! q = m !! q
       ∨ d `prefix_of` q
       ∨ (m !! q = None ∧ m' !! q = Some Dir ∧ q `prefix_of` d).

(** The entry [v] at [rel] below [sp], with a directory at [sp] and at every
    step on the way. *)
Fixpoint tree_path (m : gmap path node) (sp rel : path) (v : node) : Prop :=
  match rel with
  | [] => FS.stat m sp = Some v
  | n :: rel' => FS.stat m sp = Some Dir ∧ tree_path m (sp ++ [n]) rel' v
  end.

(** The copy filter lets [rel] below [src] through: it is asked about every
    path on the way, as [filepath.Join] builds them, and skips none. *)
Fixpoint unskipped (opt : cp.Options) (src : string) (rel : path) : Prop :=
  match rel with
  | [] => True
  | n :: rel' =>
      cp.OptSkip opt (Join src n) = (false, None)
      ∧ unskipped opt (Join src n) rel'
  end.


(** adjustContent.go, lines 25-53, the first part of [promoteContent]: the
    other platforms are removed, the content of the [k3d] variant is copied
    over the root and the variant removed. *)
Definition promoteVariant (SupportedPlatforms : list string)
    (gitopsRepoDir gitProvider : string) : M (option error) :=
  _ ← cleanUpPlatforms SupportedPlatforms gitopsRepoDir gitProvider;
  err ← cpCopy (driverContent gitopsRepoDir gitProvider) gitopsRepoDir (Some opt);
  on_error err Some (
    _ ← os.RemoveAll (driverContent gitopsRepoDir gitProvider);
    mret None).

(** A template whose variant holds the cluster types and a Terraform
    cache. *)
Definition variantTree : gmap path node :=
  mkfs [
    ("/k1", Dir);
    ("/k1/gitops", Dir);
    ("/k1/gitops/.git", Dir);
    ("/k1/gitops/aws-github", Dir);
    ("/k1/gitops/aws-github/README.md", File "aws");
    ("/k1/gitops/k3d-github", Dir);
    ("/k1/gitops/k3d-github/.gitignore", File ".terraform");
    ("/k1/gitops/k3d-github/terraform", Dir);
    ("/k1/gitops/k3d-github/terraform/github", Dir);
    ("/k1/gitops/k3d-github/terraform/github/repos.tf.tmpl", File templateReposTf);
    ("/k1/gitops/k3d-github/terraform/github/main.tf", File "provider github");
    ("/k1/gitops/k3d-github/terraform/.terraform", Dir);
    ("/k1/gitops/k3d-github/terraform/.terraform/lock", File "lock");
    ("/k1/gitops/k3d-github/cluster-types", Dir);
    ("/k1/gitops/k3d-github/cluster-types/local", Dir);
    ("/k1/gitops/k3d-github/cluster-types/local/registry.yaml", File "apps");
    ("/k1/gitops/k3d-github/cluster-types/local/atlantis.yaml", File "atlantis");
    ("/k1/gitops/k3d-github/cluster-types/local/components", Dir);
    ("/k1/gitops/k3d-github/cluster-types/local/components/argocd", Dir);
    ("/k1/gitops/k3d-github/cluster-types/local/components/argocd/app.yaml",
       File "kind: Application");
    ("/k1/gitops/k3d-github/cluster-types/local/components/kubefirst", Dir);
    ("/k1/gitops/k3d-github/cluster-types/local/components/kubefirst/console.yaml",
       File "amd64");
    ("/k1/gitops/k3d-github/cluster-types/local/components/kubefirst/console-arm.yaml",
       File "arm64")
  ].

Definition variantWorld : World :=
  {| fs := variantTree; repos := ∅; gitFault := noFault; log := [] |}.

(** Every run of [c] that starts from a file system satisfying [P] and
    returns [nil] ends in one satisfying [Q]. *)
Definition achieves (P : gmap path node → Prop) (c : M (option error))
    (Q : gmap path node → Prop) : Prop :=
  ∀ w, P (fs w) → (c w).1 = None → Q (fs (c w).2).

(** The world left by [AdjustGitopsRepo], with metaphor sources that have
    no [Dockerfile]. *)
Definition bareMetaphorWorld : World :=
  {| fs := delete (resolve "/k1/gitops/metaphor/Dockerfile") (fs gitopsWorld);
     repos := ∅; gitFault := noFault; log := [] |}.

(** The gitops directory of the config [k3d-dev] below [/home/dev], as
    [AdjustGitopsRepo] leaves it. *)
Definition homeTree : gmap path node :=
  mkfs [
    ("/home", Dir);
    ("/home/dev", Dir);
    ("/home/dev/.k1", Dir);
    ("/home/dev/.k1/configs", Dir);
    ("/home/dev/.k1/configs/k3d-dev", Dir);
    ("/home/dev/.k1/configs/k3d-dev/gitops", Dir);
    ("/home/dev/.k1/configs/k3d-dev/gitops/terraform", Dir);
    ("/home/dev/.k1/configs/k3d-dev/gitops/terraform/github", Dir);
    ("/home/dev/.k1/configs/k3d-dev/gitops/terraform/github/repos.tf",
       File "metaphor = METAPHOR_REPO_NAME");
    ("/home/dev/.k1/configs/k3d-dev/gitops/metaphor", Dir);
    ("/home/dev/.k1/configs/k3d-dev/gitops/metaphor/Dockerfile",
       File "FROM scratch");
    ("/home/dev/.k1/configs/k3d-dev/gitops/metaphor/main.go",
       File "package main");
    ("/home/dev/.k1/configs/k3d-dev/gitops/ci", Dir);
    ("/home/dev/.k1/configs/k3d-dev/gitops/ci/.argo", Dir);
    ("/home/dev/.k1/configs/k3d-dev/gitops/ci/.argo/ci.yaml",
       File "kind: Workflow");
    ("/home/dev/.k1/configs/k3d-dev/gitops/ci/.github", Dir);
    ("/home/dev/.k1/configs/k3d-dev/gitops/ci/.github/workflows", Dir);
    ("/home/dev/.k1/configs/k3d-dev/gitops/ci/.github/workflows/main.yaml",
       File "on: push")
  ].

Definition homeWorld : World :=
  {| fs := homeTree; repos := ∅; gitFault := noFault; log := [] |}.
(** * Properties *)

(** ** Strings *)

Section string_facts.

Implicit Types s t pre post sub : string.

Lemma sapp_nil s : "" +:+ s = s.
Proof. reflexivity. Qed.

Lemma sapp_cons c s t : String c s +:+ t = String c (s +:+ t).
Proof. reflexivity. Qed.

Lemma sapp_nil_r s : s +:+ "" = s.
Proof. induction s as [|c s IH]; [done|]. by rewrite sapp_cons, IH. Qed.

Lemma sapp_assoc s t u : (s +:+ t) +:+ u = s +:+ (t +:+ u).
Proof. induction s as [|c s IH]; [done|]. by rewrite !sapp_cons, IH. Qed.

Lemma slen_app s t :
  Strings.len (s +:+ t) = (Strings.len s + Strings.len t)%nat.
Proof.
  unfold Strings.len. induction s as [|c s IH]; [done|].
  rewrite sapp_cons. simpl. by rewrite IH.
Qed.

Lemma ascii_eqb_true (a b : ascii) : Ascii.eqb a b = true ↔ a = b.
Proof. apply Ascii.eqb_eq. Qed.

Lemma HasPrefix_spec s pre :
  Strings.HasPrefix s pre = true ↔ Strings.starts_with pre s.
Proof.
  unfold Strings.starts_with. revert s.
  induction pre as [|a pre IH]; intros s; simpl.
  - split; [intros _; by exists s|done].
  - destruct s as [|b s].
    + split; [done|]. intros [post H]. by rewrite sapp_cons in H.
    + destruct (Ascii.eqb a b) eqn:E.
      * apply Ascii.eqb_eq in E as ->. rewrite IH. split.
        -- intros [post ->]. by exists post.
        -- intros [post H]. rewrite sapp_cons in H. injection H as ->. eauto.
      * apply Ascii.eqb_neq in E. split; [done|].
        intros [post H]. rewrite sapp_cons in H. congruence.
Qed.

Lemma drop_app_len pre s : Strings.drop (Strings.len pre) (pre +:+ s) = s.
Proof. induction pre as [|c pre IH]; [done|]. by rewrite sapp_cons. Qed.

Lemma drop_split n s :
  (n ≤ Strings.len s)%nat →
  ∃ pre, s = pre +:+ Strings.drop n s ∧ Strings.len pre = n.
Proof.
  revert s. induction n as [|n IH]; intros s Hn.
  - by exists "".
  - destruct s as [|c s]; [simpl in Hn; lia|].
    destruct (IH s) as (pre & Hs & Hl); [simpl in Hn; lia|].
    exists (String c pre). split; [|simpl; by rewrite Hl].
    rewrite sapp_cons. simpl. by rewrite <-Hs.
Qed.

Lemma HasSuffix_spec s suffix :
  Strings.HasSuffix s suffix = true ↔ Strings.ends_with suffix s.
Proof.
  unfold Strings.HasSuffix, Strings.ends_with.
  rewrite andb_true_iff, Nat.leb_le, String.eqb_eq. split.
  - intros [Hl Hd].
    destruct (drop_split (Strings.len s - Strings.len suffix) s) as (pre & Hs & _);
      [lia|].
    exists pre. by rewrite <-Hd.
  - intros [pre ->]. rewrite slen_app. split; [lia|].
    replace (Strings.len pre + Strings.len suffix - Strings.len suffix)%nat
      with (Strings.len pre) by lia.
    apply drop_app_len.
Qed.

Lemma occurs_at_0 sub s :
  Strings.occurs_at 0 sub s ↔ Strings.HasPrefix s sub = true.
Proof.
  rewrite HasPrefix_spec. unfold Strings.occurs_at, Strings.starts_with. split.
  - intros (pre & post & -> & Hl). destruct pre; [|done]. eauto.
  - intros [post ->]. by exists "", post.
Qed.

Lemma occurs_at_S i sub c s :
  Strings.occurs_at (S i) sub (String c s) ↔ Strings.occurs_at i sub s.
Proof.
  unfold Strings.occurs_at. split.
  - intros (pre & post & H & Hl). destruct pre as [|a pre]; [done|].
    rewrite sapp_cons in H. injection H as -> ->.
    exists pre, post. split; [done|]. simpl in Hl. lia.
  - intros (pre & post & -> & Hl). exists (String c pre), post.
    split; [by rewrite sapp_cons|]. simpl. by rewrite Hl.
Qed.

Lemma occurs_at_S_nil i sub : ¬ Strings.occurs_at (S i) sub "".
Proof. intros (pre & post & H & Hl). by destruct pre. Qed.

Lemma Index_range s sub : Strings.Index s sub = -1 ∨ 0 ≤ Strings.Index s sub.
Proof.
  induction s as [|c s IH]; simpl.
  - destruct (Strings.HasPrefix "" sub); lia.
  - destruct (Strings.HasPrefix (String c s) sub); [lia|].
    destruct (Z.ltb_spec0 (Strings.Index s sub) 0); lia.
Qed.

Lemma Index_none s sub i :
  Strings.Index s sub < 0 → ¬ Strings.occurs_at i sub s.
Proof.
  revert i. induction s as [|c s IH]; intros i; simpl.
  - destruct (Strings.HasPrefix "" sub) eqn:E; [lia|]. intros _ H.
    destruct i; [apply occurs_at_0 in H; congruence|].
    by apply occurs_at_S_nil in H.
  - destruct (Strings.HasPrefix (String c s) sub) eqn:E; [lia|].
    destruct (Z.ltb_spec0 (Strings.Index s sub) 0) as [Hneg|Hpos]; [|lia].
    intros _ H. destruct i; [apply occurs_at_0 in H; congruence|].
    apply occurs_at_S in H. by apply IH in H.
Qed.

(** [Index] finds the first occurrence. *)
Lemma Index_first s sub i :
  Strings.Index s sub = Z.of_nat i ↔
  Strings.occurs_at i sub s ∧ ∀ j, (j < i)%nat → ¬ Strings.occurs_at j sub s.
Proof.
  revert i. induction s as [|c s IH]; intros i.
  - simpl. destruct (Strings.HasPrefix "" sub) eqn:E.
    + split.
      * intros H. assert (i = 0%nat) as -> by lia.
        split; [by apply occurs_at_0|lia].
      * intros [H Hmin]. destruct i; [done|]. by apply occurs_at_S_nil in H.
    + split; [lia|]. intros [H _]. destruct i.
      * apply occurs_at_0 in H. congruence.
      * by apply occurs_at_S_nil in H.
  - simpl. destruct (Strings.HasPrefix (String c s) sub) eqn:E.
    + split.
      * intros H. assert (i = 0%nat) as -> by lia.
        split; [by apply occurs_at_0|lia].
      * intros [H Hmin]. destruct i; [done|].
        exfalso. apply (Hmin 0%nat); [lia|]. by apply occurs_at_0.
    + destruct (Z.ltb_spec0 (Strings.Index s sub) 0) as [Hneg|Hpos].
      * split; [lia|]. intros [H Hmin]. destruct i.
        { apply occurs_at_0 in H. congruence. }
        apply occurs_at_S in H.
        by apply Index_none in H.
      * destruct i as [|i].
        { split; [lia|]. intros [H _]. apply occurs_at_0 in H. congruence. }
        replace (Strings.Index s sub + 1 = Z.of_nat (S i))
          with (Strings.Index s sub + 1 = Z.of_nat i + 1) by (f_equal; lia).
        rewrite Z.add_cancel_r, IH, occurs_at_S. split.
        -- intros [H Hmin]. split; [done|]. intros [|j] Hj.
           ++ rewrite occurs_at_0. congruence.
           ++ rewrite occurs_at_S. apply Hmin. lia.
        -- intros [H Hmin]. split; [done|]. intros j Hj.
           rewrite <-occurs_at_S. apply Hmin. lia.
Qed.

End string_facts.

(** ** The copy filter *)

Lemma Skip_true_iff src :
  Skip src = (true, None) ↔
  Strings.HasSuffix src ".git" = true ∨ 0 < Strings.Index src "/.terraform".
Proof.
  unfold Skip. destruct (Strings.HasSuffix src ".git"); [by intuition|].
  destruct (Z.ltb_spec0 0 (Strings.Index src "/.terraform"));
    split; by intuition.
Qed.

(** C9, amended: the predicate never returns an error, and it skips exactly
    the paths that end in [".git"] or whose first occurrence of
    ["/.terraform"] starts at an index greater than zero; in particular a
    path that begins with ["/.terraform"] is skipped only when it ends in
    [".git"], whatever follows the beginning. *)
Theorem Skip_first_occurrence (src : string) :
  (Skip src = (true, None) ∨ Skip src = (false, None)) ∧
  (Skip src = (true, None) ↔
     Strings.ends_with ".git" src ∨
     ∃ i, (0 < i)%nat ∧ Strings.occurs_at i "/.terraform" src
          ∧ ∀ j, (j < i)%nat → ¬ Strings.occurs_at j "/.terraform" src) ∧
  (Strings.starts_with "/.terraform" src →
     (Skip src = (true, None) ↔ Strings.ends_with ".git" src)).
Proof.
  split; [|split].
  - unfold Skip. destruct (Strings.HasSuffix src ".git"); [by left|].
    destruct (0 <? Strings.Index src "/.terraform"); [by left|by right].
  - rewrite Skip_true_iff, HasSuffix_spec. split.
    + intros [H|H]; [by left|right].
      exists (Z.to_nat (Strings.Index src "/.terraform")). split; [lia|].
      apply Index_first. lia.
    + intros [H|(i & Hi & Hocc)]; [by left|right].
      apply Index_first in Hocc. lia.
  - intros Hpre. rewrite Skip_true_iff, HasSuffix_spec.
    apply HasPrefix_spec, occurs_at_0 in Hpre.
    assert (Strings.Index src "/.terraform" = Z.of_nat 0) as ->.
    { apply Index_first. split; [done|lia]. }
    split; [intros [?|?]; [done|lia]|by left].
Qed.

(** A regular file or directory named [repo.git] is skipped, and so is a path
    with a segment that only begins with [.terraform]. *)
Example Skip_examples :
  Skip "repo.git" = (true, None)
  ∧ Skip "/home/u/.k1/gitops/.git" = (true, None)
  ∧ Skip "x/.terraform-cache" = (true, None)
  ∧ Skip "/.terraform/modules" = (false, None)
  ∧ Skip "/home/u/.k1/gitops/terraform/github/repos.tf" = (false, None).
Proof. by vm_compute. Qed.

(** C9 as stated fails: this path contains ["/.terraform"] at index 13, which
    is greater than zero, and does not end in [".git"]; the first occurrence
    is at index 0 and the path is not skipped. *)
Lemma Skip_later_occurrence_not_skipped :
  ¬ (Skip "/.terraform/a/.terraform" = (true, None) ↔
       Strings.ends_with ".git" "/.terraform/a/.terraform" ∨
       ∃ i, (0 < i)%nat
            ∧ Strings.occurs_at i "/.terraform" "/.terraform/a/.terraform").
Proof.
  intros [_ H]. assert (Skip "/.terraform/a/.terraform" = (true, None)); [|done].
  apply H. right. exists 13%nat. split; [lia|].
  by exists "/.terraform/a", "".
Qed.

(** ** [GetConfig] *)

Lemma cGitHost_other gitProvider :
  gitProvider ≠ "github" → gitProvider ≠ "gitlab" → cGitHost gitProvider = "".
Proof.
  intros H1 H2. unfold cGitHost.
  apply String.eqb_neq in H1, H2. by rewrite H1, H2.
Qed.

(** C10, amended: when the home directory can be determined, [GetConfig]
    returns for every gitProvider other than ["github"] and ["gitlab"] a
    config whose four destination URLs are built with an empty host. *)
Theorem GetConfig_unknown_provider_empty_host (e : Environ)
    (configName clusterName gitopsRepoName metaphorRepoName gitProvider
       gitOwner gitProtocol : string) :
  Getenv e "HOME" ≠ "" →
  gitProvider ≠ "github" → gitProvider ≠ "gitlab" →
  ∃ config,
    GetConfig e configName clusterName gitopsRepoName metaphorRepoName
      gitProvider gitOwner gitProtocol = Returns config
    ∧ DestinationGitopsRepoURL config
        = "https:///" +:+ gitOwner +:+ "/" +:+ gitopsRepoName +:+ ".git"
    ∧ DestinationMetaphorRepoURL config
        = "https:///" +:+ gitOwner +:+ "/" +:+ metaphorRepoName +:+ ".git"
    ∧ DestinationGitopsRepoGitURL config
        = "git@:" +:+ gitOwner +:+ "/" +:+ gitopsRepoName +:+ ".git"
    ∧ DestinationMetaphorRepoGitURL config
        = "git@:" +:+ gitOwner +:+ "/" +:+ metaphorRepoName +:+ ".git".
Proof.
  intros Hhome H1 H2. unfold GetConfig, UserHomeDir. simpl.
  apply String.eqb_neq in Hhome. rewrite Hhome, (cGitHost_other _ H1 H2).
  eexists. split; [reflexivity|]. done.
Qed.

Lemma GetConfig_unknown_provider_witness :
  ∃ config,
    GetConfig unixEnviron "k3d-dev" "dev" "gitops" "metaphor" "bitbucket"
      "acme" "ssh" = Returns config
    ∧ DestinationGitopsRepoURL config = "https:///acme/gitops.git"
    ∧ DestinationMetaphorRepoURL config = "https:///acme/metaphor.git"
    ∧ DestinationGitopsRepoGitURL config = "git@:acme/gitops.git"
    ∧ DestinationMetaphorRepoGitURL config = "git@:acme/metaphor.git".
Proof.
  apply (GetConfig_unknown_provider_empty_host unixEnviron "k3d-dev" "dev"
           "gitops" "metaphor" "bitbucket" "acme" "ssh"); done.
Defined.

(** C10 as stated fails where [$HOME] is not set: [os.UserHomeDir] reports an
    error, [log.Fatal] ends the process and [GetConfig] does not return. *)
Lemma GetConfig_without_home_exits :
  ¬ ∃ config,
      GetConfig {| Getenv := λ _, "" |} "k3d-dev" "dev" "gitops" "metaphor"
        "bitbucket" "acme" "ssh" = Returns config.
Proof. intros [config H]. vm_compute in H. discriminate. Qed.

(** ** Paths *)

Section path_facts.

Implicit Types s t : string.
Implicit Types p q : path.

Lemma split_on_nonempty c s : split_on c s ≠ [].
Proof.
  destruct s as [|a s]; simpl; [done|].
  destruct (Ascii.eqb a c); [done|]. by destruct (split_on c s).
Qed.

Lemma split_on_app c s t :
  split_on c (s +:+ String c t) = split_on c s ++ split_on c t.
Proof.
  induction s as [|a s IH].
  - rewrite sapp_nil. simpl. by rewrite Ascii.eqb_refl.
  - rewrite sapp_cons. simpl. rewrite IH.
    destruct (Ascii.eqb a c); [done|].
    pose proof (split_on_nonempty c s). by destruct (split_on c s).
Qed.

Lemma resolve_app_slash s t :
  resolve (s +:+ String "/" t) = resolve s ++ resolve t.
Proof. unfold resolve. by rewrite split_on_app, filter_app. Qed.

Lemma comparable_sym p q : comparable p q → comparable q p.
Proof. unfold comparable. tauto. Qed.

Lemma comparable_app_r p q x : comparable q (p ++ [x]) → comparable q p.
Proof.
  intros [H|H].
  - destruct H as [k Hk]. destruct k as [|y k _] using rev_ind.
    + right. rewrite app_nil_r in Hk. subst. by apply prefix_app_r.
    + left. rewrite app_assoc in Hk. apply app_inj_tail in Hk as [-> _].
      by exists k.
  - right. by eapply prefix_app_l.
Qed.

(** Distinct entries of one directory, and everything below them, are
    incomparable. *)
Lemma incomparable_siblings p x y k1 k2 :
  x ≠ y → ¬ comparable (p ++ x :: k1) (p ++ y :: k2).
Proof.
  intros Hxy [H|H]; apply prefix_app_inv in H;
    apply prefix_cons_inv_1 in H; congruence.
Qed.

Lemma below_incomparable p d q :
  ¬ comparable p d → p `prefix_of` q → ¬ comparable q d.
Proof.
  intros Hpd Hpq [H|H].
  - apply Hpd. left. by etrans.
  - apply Hpd. by eapply prefix_weak_total.
Qed.

Lemma strip_Some p q r : strip p q = Some r ↔ q = p ++ r.
Proof.
  revert q. induction p as [|x p IH]; intros q; simpl.
  - split; congruence.
  - destruct q as [|y q]; [split; discriminate|].
    case_decide as Hxy.
    + subst y. rewrite IH. split; [by intros ->|by intros [= ->]].
    + split; [discriminate|]. intros [= ? _]. by subst.
Qed.

Lemma child_of_Some p q n : FS.child_of p q = Some n ↔ q = p ++ [n].
Proof.
  unfold FS.child_of. split.
  - destruct (strip p q) as [[|x [|y r]]|] eqn:E; try done.
    intros [= ->]. by apply strip_Some in E.
  - intros ->.
    by assert (strip p (p ++ [n]) = Some [n]) as -> by (by apply strip_Some).
Qed.

End path_facts.

(** ** File system operations: what they leave alone *)

Section fs_facts.

Implicit Types m : gmap path node.
Implicit Types p q d : path.

Lemma within_refl d m : within d m m.
Proof. by intros q _. Qed.

Lemma within_trans d m1 m2 m3 :
  within d m1 m2 → within d m2 m3 → within d m1 m3.
Proof. intros H1 H2 q Hq. by rewrite H2, H1. Qed.

Lemma within_child d x m m' : within (d ++ [x]) m m' → within d m m'.
Proof.
  intros H q Hq. apply H. intros Hc. apply Hq. by eapply comparable_app_r.
Qed.

Lemma within_absent d p m m' :
  within d m m' → ¬ comparable p d → FS.absent m p → FS.absent m' p.
Proof.
  intros Hw Hpd Habs q Hq. rewrite Hw; [by apply Habs|].
  by eapply below_incomparable.
Qed.

(** *** [os.RemoveAll] *)

Lemma RemoveAll_shrinks s m q v :
  (FS.RemoveAll s m).2 !! q = Some v → m !! q = Some v.
Proof.
  unfold FS.RemoveAll. destruct (String.eqb s ""); [done|].
  destruct (FS.endsWithDot s); [done|]. simpl.
  by intros [? _]%map_lookup_filter_Some.
Qed.

Lemma RemoveAll_None s m q :
  m !! q = None → (FS.RemoveAll s m).2 !! q = None.
Proof.
  intros H. destruct ((FS.RemoveAll s m).2 !! q) eqn:E; [|done].
  apply RemoveAll_shrinks in E. congruence.
Qed.

Lemma RemoveAll_frame s m q :
  ¬ resolve s `prefix_of` q → (FS.RemoveAll s m).2 !! q = m !! q.
Proof.
  intros Hq. unfold FS.RemoveAll. destruct (String.eqb s ""); [done|].
  destruct (FS.endsWithDot s); [done|]. simpl.
  destruct (m !! q) as [v|] eqn:E.
  - by apply map_lookup_filter_Some.
  - apply map_lookup_filter_None. left. done.
Qed.

Lemma RemoveAll_absent s m :
  s ≠ "" → FS.endsWithDot s = false →
  FS.absent (FS.RemoveAll s m).2 (resolve s).
Proof.
  intros Hs Hdot q Hq. unfold FS.RemoveAll.
  apply String.eqb_neq in Hs. rewrite Hs, Hdot. simpl.
  apply map_lookup_filter_None. right. intros v _ Hn. by apply Hn.
Qed.

Lemma RemoveAll_keeps_absent s m p :
  FS.absent m p → FS.absent (FS.RemoveAll s m).2 p.
Proof. intros H q Hq. by apply RemoveAll_None, H. Qed.

(** *** [os.Remove] *)

Lemma Remove_result s m :
  (FS.Remove s m).2 = m ∨
  (FS.Remove s m = (None, delete (resolve s) m)).
Proof.
  unfold FS.Remove. case_decide; [by left|].
  destruct (m !! resolve s) as [[d|]|]; [| |by left].
  - destruct (FS.dir_only s); [by left|by right].
  - destruct (FS.has_children m (resolve s)); [by left|by right].
Qed.

Lemma Remove_frame s m q :
  q ≠ resolve s → (FS.Remove s m).2 !! q = m !! q.
Proof.
  intros Hq. destruct (Remove_result s m) as [->| ->]; [done|].
  simpl. by rewrite lookup_delete_ne.
Qed.

Lemma Remove_None s m q : m !! q = None → (FS.Remove s m).2 !! q = None.
Proof.
  intros H. destruct (Remove_result s m) as [->| ->]; [done|].
  simpl. rewrite lookup_delete. by case_decide.
Qed.

Lemma Remove_keeps_absent s m p :
  FS.absent m p → FS.absent (FS.Remove s m).2 p.
Proof. intros H q Hq. by apply Remove_None, H. Qed.

(** Removing a regular file named without a trailing slash succeeds. *)
Lemma Remove_file s m data :
  m !! resolve s = Some (File data) → FS.dir_only s = false →
  resolve s ≠ [] →
  FS.Remove s m = (None, delete (resolve s) m).
Proof.
  intros Hm Hd Hne. unfold FS.Remove. rewrite decide_False by done.
  by rewrite Hm, Hd.
Qed.

(** *** [os.MkdirAll] and [os.Mkdir] *)

Lemma mkdirAll_go_lookup base rest m m' q :
  FS.mkdirAll_go base rest m = inr m' →
  m' !! q = m !! q ∨
  (m !! q = None ∧ m' !! q = Some Dir ∧ q `prefix_of` base ++ rest).
Proof.
  revert base m. induction rest as [|x rest IH]; intros base m; simpl.
  - intros [= ->]. by left.
  - destruct (m !! (base ++ [x])) as [[data|]|] eqn:E; [done| |].
    + intros H. destruct (IH _ _ H) as [?|(?&?&Hp)]; [by left|right].
      by rewrite <-app_assoc in Hp.
    + intros H. destruct (IH _ _ H) as [Hs|(Hn&Hd&Hp)].
      * destruct (decide (q = base ++ [x])) as [->|Hne].
        -- right. rewrite Hs, lookup_insert_eq. split; [done|]. split; [done|].
           apply prefix_app, prefix_cons, prefix_nil.
        -- left. by rewrite Hs, lookup_insert_ne.
      * right. rewrite <-app_assoc in Hp. split; [|done].
        destruct (decide (q = base ++ [x])) as [->|Hne]; [done|].
        by rewrite lookup_insert_ne in Hn.
Qed.

Lemma MkdirAll_lookup p m q :
  (FS.MkdirAll p m).2 !! q = m !! q ∨
  (m !! q = None ∧ (FS.MkdirAll p m).2 !! q = Some Dir ∧ q `prefix_of` p).
Proof.
  unfold FS.MkdirAll. destruct (FS.mkdirAll_go [] p m) as [e|m'] eqn:E;
    [by left|].
  simpl. by apply (mkdirAll_go_lookup [] p).
Qed.

Lemma MkdirAll_within p m : within p m (FS.MkdirAll p m).2.
Proof.
  intros q Hq. destruct (MkdirAll_lookup p m q) as [?|(_&_&?)]; [done|].
  destruct Hq. by left.
Qed.

Lemma Mkdir_frame s m q :
  q ≠ resolve s → (FS.Mkdir s m).2 !! q = m !! q.
Proof.
  intros Hq. unfold FS.Mkdir. destruct (FS.stat m (resolve s)); [done|].
  destruct (FS.stat m (FS.parent (resolve s))) as [[?|]|]; [done| |done].
  simpl. by rewrite lookup_insert_ne.
Qed.

End fs_facts.

(** ** The recursive copy: what it leaves alone *)

Section copy_facts.

Implicit Types m : gmap path node.
Implicit Types p q d : path.

Lemma parent_prefix p : FS.parent p `prefix_of` p.
Proof.
  unfold FS.parent. destruct p as [|x p _] using rev_ind; [done|].
  rewrite removelast_last. by apply prefix_app_r.
Qed.

Lemma readDir_elem m p n :
  n ∈ FS.readDir m p → is_Some (m !! (p ++ [n])).
Proof.
  unfold FS.readDir. rewrite merge_sort_Permutation, list_elem_of_omap.
  intros ([q v] & Hin & Hc). apply elem_of_map_to_list in Hin.
  apply child_of_Some in Hc. simpl in Hc. subst q. eauto.
Qed.

Lemma for_each_inv {A S : Type} (I : S → Prop)
    (f : A → S → option error * S) (l : list A) (s : S) :
  I s → (∀ x s, x ∈ l → I s → I (f x s).2) → I (cp.for_each f l s).2.
Proof.
  revert s. induction l as [|x l IH]; intros s Hs Hf; simpl; [done|].
  pose proof (Hf x s (list_elem_of_here _ _) Hs) as Hx.
  destruct (f x s) as [[e|] s']; [done|].
  apply IH; [done|]. intros y s'' Hy. apply Hf. by apply list_elem_of_further.
Qed.

(** Writing a file touches its own entry and creates missing ancestors. *)
Lemma fcopy_lookup data d m q :
  ¬ q `prefix_of` d → (cp.fcopy data d m).2 !! q = m !! q.
Proof.
  intros Hq. unfold cp.fcopy.
  assert ((FS.MkdirAll (FS.parent d) m).2 !! q = m !! q) as Hmk.
  { destruct (MkdirAll_lookup (FS.parent d) m q) as [?|(_&_&Hp)]; [done|].
    destruct Hq. etrans; [done|]. apply parent_prefix. }
  destruct (FS.MkdirAll (FS.parent d) m) as [[e|] m1]; [done|].
  simpl in Hmk. destruct (FS.stat m1 d) as [[?|]|]; simpl; [|done|].
  - rewrite lookup_insert_ne; [done|]. by intros ->.
  - rewrite lookup_insert_ne; [done|]. by intros ->.
Qed.

Lemma fcopy_within data d m : within d m (cp.fcopy data d m).2.
Proof. intros q Hq. apply fcopy_lookup. intros H. apply Hq. by left. Qed.

Lemma switchboard_within fuel opt src sp dp m :
  within dp m (cp.switchboard fuel opt src sp dp m).2.
Proof.
  revert src sp dp m. induction fuel as [|fuel IH]; intros src sp dp m; simpl.
  { apply within_refl. }
  destruct (FS.stat m sp) as [[data|]|]; [apply fcopy_within| |apply within_refl].
  pose proof (MkdirAll_within dp m) as Hmk.
  destruct (FS.MkdirAll dp m) as [[e|] m1]; [done|]. simpl in Hmk.
  apply (for_each_inv (within dp m)); [done|].
  intros name m' _ Hm'.
  destruct (cp.OptSkip opt (Join src name)) as [[|] [e|]]; try done.
  eapply within_trans; [done|]. eapply within_child. apply IH.
Qed.

Lemma Copy_within src dest opt m :
  within (resolve dest) m (cp.Copy src dest opt m).2.
Proof.
  unfold cp.Copy. destruct (FS.stat m (resolve src)) as [[data|]|];
    [|apply switchboard_within|apply within_refl].
  destruct (FS.dir_only src); [apply within_refl|apply switchboard_within].
Qed.

(** Copying a directory over [dest] puts an entry [x] into [dest] only when
    the source has an entry of that name. *)
Lemma Copy_keeps_absent_child src dest opt m x :
  FS.absent m (resolve dest ++ [x]) →
  m !! (resolve src ++ [x]) = None →
  ¬ (resolve src ++ [x]) `prefix_of` resolve dest →
  FS.absent (cp.Copy src dest opt m).2 (resolve dest ++ [x]).
Proof.
  intros Habs Hsrc Hnp.
  assert (∀ fuel,
    FS.absent (cp.switchboard (S fuel) opt src (resolve src) (resolve dest) m).2
      (resolve dest ++ [x])) as Hsw.
  { intros fuel. simpl.
    destruct (FS.stat m (resolve src)) as [[data|]|]; [| |done].
    { intros q Hq. rewrite fcopy_lookup; [by apply Habs|].
      intros Hqd. eapply prefix_snoc_not. by etrans. }
    assert (FS.absent (FS.MkdirAll (resolve dest) m).2 (resolve dest ++ [x])
            ∧ (FS.MkdirAll (resolve dest) m).2 !! (resolve src ++ [x]) = None)
      as [Hmk1 Hmk2].
    { split.
      - intros q Hq.
        destruct (MkdirAll_lookup (resolve dest) m q) as [->|(_&_&Hp)];
          [by apply Habs|].
        destruct (prefix_snoc_not (resolve dest) x). by etrans.
      - destruct (MkdirAll_lookup (resolve dest) m (resolve src ++ [x]))
          as [->|(_&_&Hp)]; done. }
    destruct (FS.MkdirAll (resolve dest) m) as [[e|] m1]; [done|].
    simpl in Hmk1, Hmk2.
    apply (for_each_inv (λ s, FS.absent s (resolve dest ++ [x]))); [done|].
    intros name m' Hname Hm'.
    destruct (cp.OptSkip opt (Join src name)) as [[|] [e|]]; try done.
    eapply within_absent; [apply switchboard_within| |done].
    assert (name ≠ x) as Hne.
    { intros ->. apply readDir_elem in Hname as [v Hv]. congruence. }
    intros Hc. by apply (incomparable_siblings (resolve dest) x name [] []) in Hc. }
  unfold cp.Copy. destruct (FS.stat m (resolve src)) as [[data|]|] eqn:E;
    [|apply Hsw|done].
  destruct (FS.dir_only src); [done|apply Hsw].
Qed.

End copy_facts.

(** ** Runs in the world *)

Global Arguments FS.RemoveAll : simpl never.
Global Arguments FS.Remove : simpl never.
Global Arguments FS.Mkdir : simpl never.
Global Arguments FS.MkdirAll : simpl never.
Global Arguments cp.Copy : simpl never.
Global Arguments sed.in_place : simpl never.

Section world_facts.

Context {A B : Type}.
Implicit Types P Q R : gmap path node → Prop.

Lemma bind_run (c : M A) (f : A → M B) w :
  (c ≫= f) w = f (c w).1 (c w).2.
Proof. unfold mbind, M_bind. by destruct (c w). Qed.

Lemma fs_op_run op f w :
  fs_op op f w =
    ((f (fs w)).1,
     {| fs := (f (fs w)).2; repos := repos w; gitFault := gitFault w;
        log := log w ++ [(op, (f (fs w)).1)] |}).
Proof. unfold fs_op. by destruct (f (fs w)). Qed.

Lemma hoare_ret P (a : A) : hoare P (mret a) P.
Proof. by intros w. Qed.

Lemma hoare_bind P Q R (c : M A) (f : A → M B) :
  hoare P c Q → (∀ a, hoare Q (f a) R) → hoare P (c ≫= f) R.
Proof. intros Hc Hf w HP. rewrite bind_run. by apply Hf, Hc. Qed.

Lemma hoare_conseq P P' Q Q' (c : M A) :
  hoare P' c Q' → (∀ m, P m → P' m) → (∀ m, Q' m → Q m) → hoare P c Q.
Proof. intros Hc HP HQ w Hw. by apply HQ, Hc, HP. Qed.

End world_facts.

Section world_ops.

Implicit Types P Q : gmap path node → Prop.

Lemma hoare_fs_op P Q op f :
  (∀ m, P m → Q (f m).2) → hoare P (fs_op op f) Q.
Proof. intros H w HP. rewrite fs_op_run. simpl. by apply H. Qed.

Lemma hoare_on_error P Q err handler k :
  (∀ m, P m → Q m) → hoare P k Q → hoare P (on_error err handler k) Q.
Proof. intros HPQ Hk. destruct err; [|done]. intros w HP. by apply HPQ. Qed.

Lemma hoare_range {A} P (l : list A) body :
  (∀ x, hoare P (body x) P) → hoare P (range l body) P.
Proof.
  intros Hb. induction l as [|x l IH]; simpl; [apply hoare_ret|].
  eapply hoare_bind; [apply Hb|]. by intros _.
Qed.

Lemma exec_run command args w :
  pkg.ExecShellReturnStrings command args w =
    let r := pkg.run_command command args (fs w) in
    (("", default "" r.1, r.1),
     {| fs := r.2; repos := repos w; gitFault := gitFault w;
        log := log w ++ [(OpExec command args, r.1)] |}).
Proof.
  unfold pkg.ExecShellReturnStrings. by rewrite bind_run, fs_op_run.
Qed.

Lemma exec_sed_run (script file : string) w :
  pkg.ExecShellReturnStrings "sed" ["-i"; script; file] w =
    let r := sed.in_place script file (fs w) in
    (("", default "" r.1, r.1),
     {| fs := r.2; repos := repos w; gitFault := gitFault w;
        log := log w ++ [(OpExec "sed" ["-i"; script; file], r.1)] |}).
Proof. by rewrite exec_run. Qed.

Lemma hoare_exec_sed P Q (script file : string) :
  (∀ m, P m → Q (sed.in_place script file m).2) →
  hoare P (pkg.ExecShellReturnStrings "sed" ["-i"; script; file]) Q.
Proof. intros H w HP. rewrite exec_sed_run. simpl. by apply H. Qed.

End world_ops.

Section keeps_facts.

Implicit Types q : path.

Lemma keeps_ret {A} q (a : A) : keeps q (mret a).
Proof. by intros w. Qed.

Lemma keeps_bind {A B} q (c : M A) (f : A → M B) :
  keeps q c → (∀ a, keeps q (f a)) → keeps q (c ≫= f).
Proof. intros Hc Hf w. by rewrite bind_run, Hf, Hc. Qed.

Lemma keeps_on_error q err handler k :
  keeps q k → keeps q (on_error err handler k).
Proof. intros Hk. destruct err; [apply keeps_ret|done]. Qed.

Lemma keeps_fs_op q op f :
  (∀ m, (f m).2 !! q = m !! q) → keeps q (fs_op op f).
Proof. intros H w. rewrite fs_op_run. simpl. apply H. Qed.

Lemma keeps_RemoveAll q s :
  ¬ resolve s `prefix_of` q → keeps q (os.RemoveAll s).
Proof. intros H. apply keeps_fs_op. intros m. by apply RemoveAll_frame. Qed.

Lemma keeps_Remove q s : q ≠ resolve s → keeps q (os.Remove s).
Proof. intros H. apply keeps_fs_op. intros m. by apply Remove_frame. Qed.

Lemma keeps_Mkdir q s : q ≠ resolve s → keeps q (os.Mkdir s).
Proof. intros H. apply keeps_fs_op. intros m. by apply Mkdir_frame. Qed.

Lemma keeps_Copy q src dest o :
  ¬ comparable q (resolve dest) → keeps q (cpCopy src dest o).
Proof. intros H. apply keeps_fs_op. intros m. by apply Copy_within. Qed.

Lemma sed_in_place_frame (script file : string) (m : gmap path node) q :
  q ≠ resolve file → (sed.in_place script file m).2 !! q = m !! q.
Proof.
  intros Hq. unfold sed.in_place.
  destruct (sed.parse_script script) as [[pat repl]|]; [|done].
  destruct (m !! resolve file) as [[content|]|]; [|done..].
  simpl. by rewrite lookup_insert_ne.
Qed.

Lemma sed_in_place_None (script file : string) (m : gmap path node) q :
  m !! q = None → (sed.in_place script file m).2 !! q = None.
Proof.
  intros Hq. unfold sed.in_place.
  destruct (sed.parse_script script) as [[pat repl]|]; [|done].
  destruct (m !! resolve file) as [[content|]|] eqn:E; [|done..].
  simpl. rewrite lookup_insert_ne; [done|]. congruence.
Qed.

Lemma keeps_exec_sed q (script file : string) :
  q ≠ resolve file →
  keeps q (pkg.ExecShellReturnStrings "sed" ["-i"; script; file]).
Proof.
  intros H w. rewrite exec_sed_run. simpl. by apply sed_in_place_frame.
Qed.

End keeps_facts.

(** ** The paths of the gitops tree *)

Section gitops_paths.

Implicit Types root cn : string.

Lemma drop_app_plus x y k :
  Strings.drop (Strings.len x + k) (x +:+ y) = Strings.drop k y.
Proof. induction x as [|c x IH]; [done|]. by rewrite sapp_cons. Qed.

(** A suffix no longer than the literal tail is decided by the tail. *)
Lemma HasSuffix_app x tail suffix :
  (Strings.len suffix ≤ Strings.len tail)%nat →
  Strings.HasSuffix (x +:+ tail) suffix = Strings.HasSuffix tail suffix.
Proof.
  intros Hl. unfold Strings.HasSuffix. rewrite slen_app.
  replace (Strings.len x + Strings.len tail - Strings.len suffix)%nat
    with (Strings.len x + (Strings.len tail - Strings.len suffix))%nat by lia.
  rewrite drop_app_plus. f_equal.
  destruct (Nat.leb_spec (Strings.len suffix) (Strings.len tail));
    destruct (Nat.leb_spec (Strings.len suffix)
                (Strings.len x + Strings.len tail)); (done || lia).
Qed.

Lemma resolve_registry root cn :
  resolve (registryLocation root cn) = resolve root ++ "registry" :: resolve cn.
Proof.
  unfold registryLocation.
  change ("/registry/" +:+ cn) with (String "/" ("registry" +:+ String "/" cn)).
  by rewrite !resolve_app_slash.
Qed.

Lemma resolve_under s tail :
  resolve (s +:+ String "/" tail) = resolve s ++ resolve tail.
Proof. apply resolve_app_slash. Qed.

Lemma resolve_amd root cn :
  resolve (amdConsoleFileLocation root cn) =
    resolve root ++ "registry" :: resolve cn
      ++ ["components"; "kubefirst"; "console.yaml"].
Proof.
  unfold amdConsoleFileLocation.
  rewrite (resolve_under _ "components/kubefirst/console.yaml"), resolve_registry.
  by rewrite <-app_assoc.
Qed.

Lemma resolve_arm root cn :
  resolve (armConsoleFileLocation root cn) =
    resolve root ++ "registry" :: resolve cn
      ++ ["components"; "kubefirst"; "console-arm.yaml"].
Proof.
  unfold armConsoleFileLocation.
  rewrite (resolve_under _ "components/kubefirst/console-arm.yaml"),
    resolve_registry.
  by rewrite <-app_assoc.
Qed.

Lemma resolve_atlantis root cn :
  resolve (atlantisRegistryFileLocation root cn) =
    resolve root ++ "registry" :: resolve cn ++ ["atlantis.yaml"].
Proof.
  unfold atlantisRegistryFileLocation.
  rewrite (resolve_under _ "atlantis.yaml"), resolve_registry.
  by rewrite <-app_assoc.
Qed.

Lemma resolve_reposTf root :
  resolve (reposTf root) = resolve root ++ ["terraform"; "github"; "repos.tf"].
Proof. unfold reposTf. by rewrite (resolve_under _ "terraform/github/repos.tf"). Qed.

Lemma resolve_reposTfTmpl root :
  resolve (reposTfTmpl root) =
    resolve root ++ ["terraform"; "github"; "repos.tf.tmpl"].
Proof.
  unfold reposTfTmpl.
  by rewrite (resolve_under _ "terraform/github/repos.tf.tmpl").
Qed.

Lemma resolve_cluster_types root :
  resolve (root +:+ "/cluster-types") = resolve root ++ ["cluster-types"].
Proof. by rewrite (resolve_under _ "cluster-types"). Qed.

Lemma resolve_services root :
  resolve (root +:+ "/services") = resolve root ++ ["services"].
Proof. by rewrite (resolve_under _ "services"). Qed.

Lemma resolve_platform root platform :
  resolve (root +:+ "/" +:+ platform) = resolve root ++ resolve platform.
Proof. apply resolve_app_slash. Qed.

End gitops_paths.

(** ** [AdjustGitopsRepo]: the registry *)

(** Side conditions on paths below a common directory. *)
Ltac path_solver :=
  let H := fresh in
  intros H;
  try (destruct H as [H|H]);
  repeat first
    [ apply prefix_app_inv in H
    | apply app_inv_head in H
    | apply prefix_cons_inv_1 in H
    | apply prefix_cons_inv_2 in H
    | injection H as H ];
  try discriminate; try done.

Section registry.

Variable SupportedPlatforms : list string.
Variable LocalhostARCH : string.

Implicit Types root cn : string.
Implicit Types q : path.

Lemma detokenizeReposTf_keeps root name q :
  ¬ comparable q (resolve (reposTf root)) →
  keeps q (detokenizeReposTf root name).
Proof.
  intros Hq. unfold detokenizeReposTf.
  apply keeps_bind; [by apply keeps_Copy|]. intros err.
  apply keeps_on_error, keeps_bind.
  - apply keeps_exec_sed. intros ->. apply Hq. by left.
  - intros [[? ?] err']. apply keeps_on_error, keeps_ret.
Qed.

Lemma pruneRegistry_keeps cloudProvider cn root removeAtlantis q :
  ¬ resolve (root +:+ "/cluster-types") `prefix_of` q →
  ¬ resolve (root +:+ "/services") `prefix_of` q →
  q ≠ resolve (if String.eqb LocalhostARCH "arm64"
                    && String.eqb cloudProvider CloudProvider
               then amdConsoleFileLocation root cn
               else armConsoleFileLocation root cn) →
  (removeAtlantis = true → q ≠ resolve (atlantisRegistryFileLocation root cn)) →
  keeps q (pruneRegistry LocalhostARCH cloudProvider cn root removeAtlantis).
Proof.
  intros H1 H2 H3 H4. unfold pruneRegistry.
  apply keeps_bind; [by apply keeps_RemoveAll|]. intros _.
  apply keeps_bind; [by apply keeps_RemoveAll|]. intros _.
  apply keeps_bind.
  { destruct (_ && _); by apply keeps_Remove. }
  intros _. destruct removeAtlantis; [|apply keeps_ret].
  apply keeps_bind; [by apply keeps_Remove, H4|]. intros _. apply keeps_ret.
Qed.

Lemma dir_only_amd root cn :
  FS.dir_only (amdConsoleFileLocation root cn) = false.
Proof.
  unfold FS.dir_only, amdConsoleFileLocation. rewrite HasSuffix_app; [done|compute; lia].
Qed.

Lemma dir_only_arm root cn :
  FS.dir_only (armConsoleFileLocation root cn) = false.
Proof.
  unfold FS.dir_only, armConsoleFileLocation. rewrite HasSuffix_app; [done|compute; lia].
Qed.

Lemma dir_only_atlantis root cn :
  FS.dir_only (atlantisRegistryFileLocation root cn) = false.
Proof.
  unfold FS.dir_only, atlantisRegistryFileLocation. rewrite HasSuffix_app; [done|compute; lia].
Qed.

(** [os.Remove] on a regular file below the registry removes it. *)
Lemma Remove_registry_file (s : string) (m : gmap path node) (rest : path)
    (root cn : string) :
  resolve s = resolve root ++ "registry" :: rest →
  FS.dir_only s = false →
  is_file (m !! resolve s) = true →
  (FS.Remove s m).2 !! resolve s = None.
Proof.
  intros Hs Hd Hf. destruct (m !! resolve s) as [[data|]|] eqn:E; try done.
  rewrite (Remove_file s m data); [simpl; apply lookup_delete_eq|done..|].
  rewrite Hs. by destruct (resolve root).
Qed.

Lemma pruneRegistry_removes_console cloudProvider cn root removeAtlantis w :
  let removed := resolve (if String.eqb LocalhostARCH "arm64"
                               && String.eqb cloudProvider CloudProvider
                          then amdConsoleFileLocation root cn
                          else armConsoleFileLocation root cn) in
  is_file (fs w !! removed) = true →
  fs (pruneRegistry LocalhostARCH cloudProvider cn root removeAtlantis w).2
    !! removed = None.
Proof.
  intros removed Hfile. unfold pruneRegistry.
  assert (¬ resolve (root +:+ "/cluster-types") `prefix_of` removed
          ∧ ¬ resolve (root +:+ "/services") `prefix_of` removed) as [Hct Hsv].
  { unfold removed. rewrite resolve_cluster_types, resolve_services.
    destruct (_ && _); rewrite ?resolve_amd, ?resolve_arm; split; path_solver. }
  rewrite bind_run. rewrite bind_run.
  set (w1 := (os.RemoveAll (root +:+ "/cluster-types") w).2).
  set (w2 := (os.RemoveAll (root +:+ "/services") w1).2).
  assert (fs w2 !! removed = fs w !! removed) as Hw2.
  { unfold w2, w1. by rewrite !keeps_RemoveAll. }
  rewrite bind_run.
  set (c := if String.eqb LocalhostARCH "arm64"
               && String.eqb cloudProvider CloudProvider
            then os.Remove (amdConsoleFileLocation root cn)
            else os.Remove (armConsoleFileLocation root cn)).
  assert (fs (c w2).2 !! removed = None) as Hgone.
  { unfold c, removed in *. destruct (_ && _); unfold os.Remove;
      rewrite fs_op_run; simpl.
    - apply (Remove_registry_file _ _ _ root cn (resolve_amd root cn)
               (dir_only_amd root cn)). by rewrite Hw2.
    - apply (Remove_registry_file _ _ _ root cn (resolve_arm root cn)
               (dir_only_arm root cn)). by rewrite Hw2. }
  destruct removeAtlantis; [|done].
  rewrite bind_run. unfold os.Remove at 1. rewrite fs_op_run. simpl.
  by apply Remove_None.
Qed.

Lemma pruneRegistry_removes_atlantis cloudProvider cn root w :
  let atlantis := resolve (atlantisRegistryFileLocation root cn) in
  is_file (fs w !! atlantis) = true →
  fs (pruneRegistry LocalhostARCH cloudProvider cn root true w).2 !! atlantis
    = None.
Proof.
  intros atlantis Hfile. unfold pruneRegistry.
  rewrite bind_run. rewrite bind_run. rewrite bind_run.
  set (w1 := (os.RemoveAll (root +:+ "/cluster-types") w).2).
  set (w2 := (os.RemoveAll (root +:+ "/services") w1).2).
  set (c := if String.eqb LocalhostARCH "arm64"
               && String.eqb cloudProvider CloudProvider
            then os.Remove (amdConsoleFileLocation root cn)
            else os.Remove (armConsoleFileLocation root cn)).
  assert (fs (c w2).2 !! atlantis = fs w !! atlantis) as Hw3.
  { transitivity (fs w2 !! atlantis).
    - unfold c, atlantis. rewrite resolve_atlantis.
      destruct (_ && _); apply keeps_Remove;
        rewrite ?resolve_amd, ?resolve_arm; path_solver.
    - unfold w2, w1, atlantis.
      rewrite !keeps_RemoveAll; [done|..];
        rewrite resolve_atlantis, ?resolve_cluster_types, ?resolve_services;
        path_solver. }
  rewrite bind_run. unfold os.Remove at 1. rewrite fs_op_run. simpl.
  apply (Remove_registry_file _ _ _ root cn (resolve_atlantis root cn)
           (dir_only_atlantis root cn)).
  fold atlantis. by rewrite Hw3.
Qed.

Lemma AdjustGitopsRepo_after_promote
    cloudProvider clusterName clusterType gitopsRepoDir gitopsRepoName
    gitProvider k1Dir removeAtlantis w :
  let promoted := promoteContent SupportedPlatforms clusterName clusterType
                    gitopsRepoDir gitProvider w in
  promoted.1 = None →
  AdjustGitopsRepo SupportedPlatforms LocalhostARCH cloudProvider clusterName
    clusterType gitopsRepoDir gitopsRepoName gitProvider k1Dir removeAtlantis w
  = detokenizeReposTf gitopsRepoDir gitopsRepoName
      (pruneRegistry LocalhostARCH cloudProvider clusterName gitopsRepoDir
         removeAtlantis promoted.2).2.
Proof.
  intros promoted H. unfold AdjustGitopsRepo. rewrite bind_run.
  fold promoted. rewrite H. simpl. by rewrite bind_run.
Qed.

End registry.

(** C4: when both console manifests are regular files below the registry
    after the cluster-type copy, the run removes exactly one of them and
    leaves the other as it was: the AMD manifest [console.yaml] goes when the
    host architecture is [arm64] and the cloudProvider argument is the local
    provider ["k3d"], the ARM manifest [console-arm.yaml] goes otherwise. *)
Theorem console_manifest_by_architecture
    (SupportedPlatforms : list string) (LocalhostARCH : string)
    (cloudProvider clusterName clusterType gitopsRepoDir gitopsRepoName
       gitProvider k1Dir : string) (removeAtlantis : bool) (w : World) :
  let amd := resolve (amdConsoleFileLocation gitopsRepoDir clusterName) in
  let arm := resolve (armConsoleFileLocation gitopsRepoDir clusterName) in
  let promoted := promoteContent SupportedPlatforms clusterName clusterType
                    gitopsRepoDir gitProvider w in
  let w1 := promoted.2 in
  promoted.1 = None →
  is_file (fs w1 !! amd) = true →
  is_file (fs w1 !! arm) = true →
  let w2 := (AdjustGitopsRepo SupportedPlatforms LocalhostARCH cloudProvider
               clusterName clusterType gitopsRepoDir gitopsRepoName gitProvider
               k1Dir removeAtlantis w).2 in
  if String.eqb LocalhostARCH "arm64" && String.eqb cloudProvider CloudProvider
  then fs w2 !! amd = None ∧ fs w2 !! arm = fs w1 !! arm
  else fs w2 !! arm = None ∧ fs w2 !! amd = fs w1 !! amd.
Proof.
  intros amd arm promoted w1 Hpromote Hamd Harm w2. unfold w2.
  rewrite (AdjustGitopsRepo_after_promote _ _ _ _ _ _ _ _ _ _ _ Hpromote).
  fold promoted w1.
  pose proof (pruneRegistry_removes_console LocalhostARCH cloudProvider
                clusterName gitopsRepoDir removeAtlantis w1) as Hgone.
  pose proof (pruneRegistry_keeps LocalhostARCH cloudProvider clusterName
                gitopsRepoDir removeAtlantis) as Hkeep.
  simpl in Hgone.
  assert (¬ comparable amd (resolve (reposTf gitopsRepoDir))
          ∧ ¬ comparable arm (resolve (reposTf gitopsRepoDir))) as [Htf1 Htf2].
  { unfold amd, arm. rewrite resolve_amd, resolve_arm, resolve_reposTf.
    split; path_solver. }
  rewrite !detokenizeReposTf_keeps by done.
  destruct (String.eqb LocalhostARCH "arm64" && String.eqb cloudProvider CloudProvider).
  - split; [by apply Hgone|]. apply Hkeep; [..|intros _]; unfold arm;
      rewrite resolve_arm, ?resolve_amd, ?resolve_atlantis,
        ?resolve_cluster_types, ?resolve_services; path_solver.
  - split; [by apply Hgone|]. apply Hkeep; [..|intros _]; unfold amd;
      rewrite resolve_amd, ?resolve_arm, ?resolve_atlantis,
        ?resolve_cluster_types, ?resolve_services; path_solver.
Qed.

(** C7: when the Atlantis manifest is a regular file below the registry after
    the cluster-type copy, it is gone after a run with [removeAtlantis] and
    it is what it was after a run without: no other step touches it. *)
Theorem atlantis_manifest_removed_on_request
    (SupportedPlatforms : list string) (LocalhostARCH : string)
    (cloudProvider clusterName clusterType gitopsRepoDir gitopsRepoName
       gitProvider k1Dir : string) (removeAtlantis : bool) (w : World) :
  let atlantis := resolve (atlantisRegistryFileLocation gitopsRepoDir clusterName) in
  let promoted := promoteContent SupportedPlatforms clusterName clusterType
                    gitopsRepoDir gitProvider w in
  let w1 := promoted.2 in
  promoted.1 = None →
  is_file (fs w1 !! atlantis) = true →
  let w2 := (AdjustGitopsRepo SupportedPlatforms LocalhostARCH cloudProvider
               clusterName clusterType gitopsRepoDir gitopsRepoName gitProvider
               k1Dir removeAtlantis w).2 in
  if removeAtlantis
  then fs w2 !! atlantis = None
  else fs w2 !! atlantis = fs w1 !! atlantis.
Proof.
  intros atlantis promoted w1 Hpromote Hfile w2. unfold w2.
  rewrite (AdjustGitopsRepo_after_promote _ _ _ _ _ _ _ _ _ _ _ Hpromote).
  fold promoted w1.
  rewrite detokenizeReposTf_keeps.
  2:{ unfold atlantis. rewrite resolve_atlantis, resolve_reposTf. path_solver. }
  destruct removeAtlantis.
  - by apply pruneRegistry_removes_atlantis.
  - apply pruneRegistry_keeps; unfold atlantis;
      rewrite resolve_atlantis, ?resolve_cluster_types, ?resolve_services;
      [path_solver|path_solver| |done].
    destruct (_ && _); rewrite ?resolve_amd, ?resolve_arm; path_solver.
Qed.


Lemma console_manifest_witness :
  let amd := resolve (amdConsoleFileLocation "/k1/gitops" "dev") in
  let arm := resolve (armConsoleFileLocation "/k1/gitops" "dev") in
  let w1 := (promoteContent examplePlatforms "dev" "local" "/k1/gitops"
               "github" templateWorld).2 in
  let w2 := (AdjustGitopsRepo examplePlatforms "amd64" "k3d" "dev" "local"
               "/k1/gitops" "gitops" "github" "/k1" true templateWorld).2 in
  (is_file (fs w1 !! amd) = true ∧ is_file (fs w1 !! arm) = true)
  ∧ fs w2 !! arm = None ∧ fs w2 !! amd = fs w1 !! amd.
Proof.
  intros amd arm w1 w2. split; [split; vm_compute; reflexivity|].
  apply (console_manifest_by_architecture examplePlatforms "amd64" "k3d" "dev"
           "local" "/k1/gitops" "gitops" "github" "/k1" true templateWorld);
    vm_compute; reflexivity.
Defined.

Lemma atlantis_manifest_witness :
  let atlantis := resolve (atlantisRegistryFileLocation "/k1/gitops" "dev") in
  let w1 := (promoteContent examplePlatforms "dev" "local" "/k1/gitops"
               "github" templateWorld).2 in
  let w2 := (AdjustGitopsRepo examplePlatforms "amd64" "k3d" "dev" "local"
               "/k1/gitops" "gitops" "github" "/k1" true templateWorld).2 in
  is_file (fs w1 !! atlantis) = true ∧ fs w2 !! atlantis = None.
Proof.
  intros atlantis w1 w2. split; [vm_compute; reflexivity|].
  apply (atlantis_manifest_removed_on_request examplePlatforms "amd64" "k3d"
           "dev" "local" "/k1/gitops" "gitops" "github" "/k1" true
           templateWorld); vm_compute; reflexivity.
Defined.

(** ** The log of a run *)

Section trace_facts.

Lemma extends_intro {A} (c : M A) :
  (∀ w, ∃ l, log (c w).2 = log w ++ l) → extends c.
Proof.
  intros H w. destruct (H w) as [l Hl]. unfold trace.
  by rewrite Hl, drop_app_length.
Qed.

Lemma trace_unique {A} (c : M A) w l :
  log (c w).2 = log w ++ l → trace c w = l.
Proof. intros H. unfold trace. by rewrite H, drop_app_length. Qed.

Lemma extends_ret {A} (a : A) : extends (mret a).
Proof. apply extends_intro. intros w. exists []. by rewrite app_nil_r. Qed.

Lemma trace_ret {A} (a : A) w : trace (mret a) w = [].
Proof. apply trace_unique. by rewrite app_nil_r. Qed.

Lemma trace_bind {A B} (c : M A) (f : A → M B) w :
  extends c → (∀ a, extends (f a)) →
  trace (c ≫= f) w = trace c w ++ trace (f (c w).1) (c w).2.
Proof.
  intros Hc Hf. apply trace_unique.
  by rewrite bind_run, Hf, Hc, <-app_assoc.
Qed.

Lemma extends_bind {A B} (c : M A) (f : A → M B) :
  extends c → (∀ a, extends (f a)) → extends (c ≫= f).
Proof.
  intros Hc Hf. apply extends_intro. intros w. eexists.
  by rewrite bind_run, Hf, Hc, <-app_assoc.
Qed.

Lemma trace_fs_op op f w : trace (fs_op op f) w = [(op, (f (fs w)).1)].
Proof. apply trace_unique. by rewrite fs_op_run. Qed.

Lemma extends_fs_op op f : extends (fs_op op f).
Proof. apply extends_intro. intros w. eexists. by rewrite fs_op_run. Qed.

Lemma trace_exec_sed (script file : string) w :
  trace (pkg.ExecShellReturnStrings "sed" ["-i"; script; file]) w =
    [(OpExec "sed" ["-i"; script; file], (sed.in_place script file (fs w)).1)].
Proof. apply trace_unique. by rewrite exec_sed_run. Qed.

Lemma trace_exec command args w :
  trace (pkg.ExecShellReturnStrings command args) w =
    [(OpExec command args, (pkg.run_command command args (fs w)).1)].
Proof. apply trace_unique. by rewrite exec_run. Qed.

Lemma extends_exec command args :
  extends (pkg.ExecShellReturnStrings command args).
Proof. apply extends_intro. intros w. eexists. by rewrite exec_run. Qed.

Lemma extends_on_error err handler k :
  extends k → extends (on_error err handler k).
Proof. intros Hk. destruct err; [apply extends_ret|done]. Qed.

Lemma extends_range {A} (l : list A) body :
  (∀ x, extends (body x)) → extends (range l body).
Proof.
  intros Hb. induction l as [|x l IH]; simpl; [apply extends_ret|].
  by apply extends_bind.
Qed.

Lemma clean_nil : clean [].
Proof. intros op e H. by apply elem_of_nil in H. Qed.

Lemma clean_app l1 l2 : clean (l1 ++ l2) ↔ clean l1 ∧ clean l2.
Proof.
  unfold clean. split.
  - intros H. split; intros op e Hin; apply (H op e), elem_of_app;
      [by left|by right].
  - intros [H1 H2] op e [Hin|Hin]%elem_of_app; eauto.
Qed.

Lemma clean_singleton op r :
  (fatal op = false ∨ r = None) → clean [(op, r)].
Proof.
  intros H op' e Hin. apply list_elem_of_singleton in Hin.
  injection Hin as -> <-. by destruct H.
Qed.

Lemma aborts_prepend r l0 l :
  clean l0 → aborts_on_fatal r l → aborts_on_fatal r (l0 ++ l).
Proof.
  intros H0 [[-> Hc]|(l1 & op & e & -> & Hf & -> & Hc)].
  - left. split; [done|]. by apply clean_app.
  - right. exists (l0 ++ l1), op, e. rewrite app_assoc.
    split; [done|]. split; [done|]. split; [done|]. by apply clean_app.
Qed.

(** *** Composition of the two disciplines *)

Lemma quiet_ret {A} (a : A) : quiet (mret a).
Proof. split; [apply extends_ret|]. intros w. rewrite trace_ret. apply clean_nil. Qed.

Lemma quiet_bind {A B} (c : M A) (f : A → M B) :
  quiet c → (∀ a, quiet (f a)) → quiet (c ≫= f).
Proof.
  intros [Hc1 Hc2] Hf. split.
  - apply extends_bind; [done|]. intros a. apply Hf.
  - intros w. rewrite trace_bind; [|done|intros a; apply Hf].
    apply clean_app. split; [done|]. apply Hf.
Qed.

Lemma quiet_fs_op op f : fatal op = false → quiet (fs_op op f).
Proof.
  intros H. split; [apply extends_fs_op|]. intros w. rewrite trace_fs_op.
  apply clean_singleton. by left.
Qed.

Lemma quiet_range {A} (l : list A) body :
  (∀ x, quiet (body x)) → quiet (range l body).
Proof.
  intros Hb. induction l as [|x l IH]; simpl; [apply quiet_ret|].
  by apply quiet_bind.
Qed.

Lemma obeys_ret_nil : obeys (mret None).
Proof.
  split; [apply extends_ret|]. intros w. rewrite trace_ret. left.
  split; [done|apply clean_nil].
Qed.

Lemma obeys_bind_quiet {A} (c : M A) (f : A → M (option error)) :
  quiet c → (∀ a, obeys (f a)) → obeys (c ≫= f).
Proof.
  intros [Hc1 Hc2] Hf. split.
  - apply extends_bind; [done|]. intros a. apply Hf.
  - intros w. rewrite trace_bind; [|done|intros a; apply Hf].
    rewrite bind_run. apply aborts_prepend; [done|]. apply Hf.
Qed.

(** A checked file system operation: its error ends the run. *)
Lemma obeys_checked op f k :
  fatal op = true → obeys k →
  obeys (err ← fs_op op f; on_error err Some k).
Proof.
  intros Hop [Hk1 Hk2]. split.
  - apply extends_bind; [apply extends_fs_op|].
    intros err. by apply extends_on_error.
  - intros w. rewrite trace_bind;
      [|apply extends_fs_op|intros err; by apply extends_on_error].
    rewrite bind_run, trace_fs_op, fs_op_run. simpl.
    destruct (f (fs w)) as [[e|] m]; simpl.
    + rewrite trace_ret. right. exists [], op, e.
      split; [done|]. split; [done|]. split; [done|apply clean_nil].
    + apply (aborts_prepend _ [_]); [|apply Hk2].
      apply clean_singleton. by right.
Qed.

(** The checked subprocess at the end of [AdjustGitopsRepo]. *)
Lemma obeys_exec_last command args :
  obeys ('(_, _, err) ← pkg.ExecShellReturnStrings command args;
         on_error err Some (mret err)).
Proof.
  assert (∀ a : string * string * option error,
            extends (let '(_, _, err) := a in on_error err Some (mret err)))
    as Hext.
  { intros [[? ?] err]. apply extends_on_error, extends_ret. }
  split.
  - apply extends_bind; [apply extends_exec|done].
  - intros w. rewrite trace_bind; [|apply extends_exec|done].
    rewrite bind_run.
    rewrite trace_exec, exec_run. simpl.
    destruct (pkg.run_command command args (fs w)) as [[e|] m];
      simpl; rewrite trace_ret.
    + right. exists [], (OpExec command args), e.
      split; [done|]. split; [done|]. split; [done|apply clean_nil].
    + left. split; [done|]. apply clean_singleton. by right.
Qed.

(** Two checked blocks in sequence. *)
Lemma obeys_then c k :
  obeys c → obeys k → obeys (err ← c; on_error err Some k).
Proof.
  intros [Hc1 Hc2] [Hk1 Hk2]. split.
  - apply extends_bind; [done|]. intros err. by apply extends_on_error.
  - intros w. rewrite trace_bind; [|done|intros err; by apply extends_on_error].
    rewrite bind_run.
    destruct (Hc2 w) as [[-> Hc]|(l1 & op & e & Hl & Hf & -> & Hc)]; simpl.
    + by apply aborts_prepend.
    + rewrite trace_ret, app_nil_r. right. by exists l1, op, e.
Qed.

(** What the discipline says about a failed operation in the log. *)
Lemma aborts_on_fatal_failure r l l0 op e l1 :
  aborts_on_fatal r l → l = l0 ++ (op, Some e) :: l1 → fatal op = true →
  l1 = [] ∧ r = Some e.
Proof.
  intros [[-> Hc]|(k & op' & e' & -> & Hf & -> & Hc)] Hl Hop.
  - rewrite (Hc op e) in Hop; [done|]. rewrite Hl.
    apply elem_of_app. right. apply list_elem_of_here.
  - destruct l1 as [|x l1 _] using rev_ind.
    + apply app_inj_tail in Hl as [_ [= -> ->]]. done.
    + rewrite app_comm_cons, app_assoc in Hl.
      apply app_inj_tail in Hl as [-> _].
      rewrite (Hc op e) in Hop; [done|].
      apply elem_of_app. right. apply list_elem_of_here.
Qed.

End trace_facts.

(** The log of every program here only grows. *)
Ltac solve_extends :=
  repeat first
    [ apply extends_ret
    | apply extends_fs_op
    | apply extends_exec
    | apply extends_on_error
    | apply extends_bind
    | apply extends_range
    | match goal with
      | |- ∀ _, extends _ => intros ?
      | |- extends (cpCopy _ _ _) => unfold cpCopy
      | |- extends (os.RemoveAll _) => unfold os.RemoveAll
      | |- extends (os.Remove _) => unfold os.Remove
      | |- extends (os.Mkdir _) => unfold os.Mkdir
      | |- extends (match ?x with _ => _ end) => destruct x
      end ].

(** ** [AdjustGitopsRepo]: which operations, and when it stops *)

Section gitops_trace.

Variable SupportedPlatforms : list string.
Variable LocalhostARCH : string.

Lemma quiet_RemoveAll s : quiet (os.RemoveAll s).
Proof. by apply quiet_fs_op. Qed.

Lemma quiet_Remove s : quiet (os.Remove s).
Proof. by apply quiet_fs_op. Qed.

Lemma quiet_Mkdir s : quiet (os.Mkdir s).
Proof. by apply quiet_fs_op. Qed.

Lemma quiet_cleanUpPlatforms root gitProvider :
  quiet (cleanUpPlatforms SupportedPlatforms root gitProvider).
Proof.
  apply quiet_range. intros platform. case_bool_decide; [|apply quiet_ret].
  apply quiet_bind; [apply quiet_RemoveAll|]. intros _. apply quiet_ret.
Qed.

Lemma obeys_promoteContent clusterName clusterType root gitProvider :
  obeys (promoteContent SupportedPlatforms clusterName clusterType root
           gitProvider).
Proof.
  unfold promoteContent.
  apply obeys_bind_quiet; [apply quiet_cleanUpPlatforms|]. intros _.
  apply obeys_checked; [done|].
  apply obeys_bind_quiet; [apply quiet_RemoveAll|]. intros _.
  apply obeys_checked; [done|]. apply obeys_ret_nil.
Qed.

Lemma quiet_pruneRegistry cloudProvider clusterName root removeAtlantis :
  quiet (pruneRegistry LocalhostARCH cloudProvider clusterName root
           removeAtlantis).
Proof.
  unfold pruneRegistry.
  apply quiet_bind; [apply quiet_RemoveAll|]. intros _.
  apply quiet_bind; [apply quiet_RemoveAll|]. intros _.
  apply quiet_bind; [destruct (_ && _); apply quiet_Remove|]. intros _.
  destruct removeAtlantis; [|apply quiet_ret].
  apply quiet_bind; [apply quiet_Remove|]. intros _. apply quiet_ret.
Qed.

Lemma obeys_detokenizeReposTf root name :
  obeys (detokenizeReposTf root name).
Proof.
  unfold detokenizeReposTf. apply obeys_checked; [done|].
  apply obeys_exec_last.
Qed.

Lemma obeys_AdjustGitopsRepo
    cloudProvider clusterName clusterType root name gitProvider k1Dir
    removeAtlantis :
  obeys (AdjustGitopsRepo SupportedPlatforms LocalhostARCH cloudProvider
           clusterName clusterType root name gitProvider k1Dir removeAtlantis).
Proof.
  unfold AdjustGitopsRepo.
  apply obeys_then; [apply obeys_promoteContent|].
  apply obeys_bind_quiet; [apply quiet_pruneRegistry|]. intros _.
  apply obeys_detokenizeReposTf.
Qed.

End gitops_trace.

(** C2, amended: a copy or the substitution that fails ends the run at once,
    and the run returns its error; nothing else makes the run return an
    error.  The results of [os.RemoveAll] and [os.Remove] are dropped: a
    failing delete is followed by the next step. *)
Theorem copy_failure_aborts_immediately
    (SupportedPlatforms : list string) (LocalhostARCH : string)
    (cloudProvider clusterName clusterType gitopsRepoDir gitopsRepoName
       gitProvider k1Dir : string) (removeAtlantis : bool) (w : World) :
  let run := AdjustGitopsRepo SupportedPlatforms LocalhostARCH cloudProvider
               clusterName clusterType gitopsRepoDir gitopsRepoName gitProvider
               k1Dir removeAtlantis in
  (∀ before op e after,
     trace run w = before ++ (op, Some e) :: after → fatal op = true →
     after = [] ∧ (run w).1 = Some e)
  ∧ ((run w).1 = None
     ∨ ∃ before op e,
         trace run w = before ++ [(op, Some e)] ∧ fatal op = true
         ∧ (run w).1 = Some e).
Proof.
  intros run.
  destruct (obeys_AdjustGitopsRepo SupportedPlatforms LocalhostARCH cloudProvider
              clusterName clusterType gitopsRepoDir gitopsRepoName gitProvider
              k1Dir removeAtlantis) as [_ H].
  specialize (H w). fold run in H. split.
  - intros before op e after Htr Hop. by eapply aborts_on_fatal_failure.
  - destruct H as [[-> _]|(l0 & op & e & Hl & Hf & Hr & _)]; [by left|right].
    by exists l0, op, e.
Qed.

Lemma copy_failure_witness :
  let run := AdjustGitopsRepo examplePlatforms "amd64" "k3d" "dev" "missing"
               "/k1/gitops" "gitops" "github" "/k1" true in
  trace run templateWorld =
    take 7 (trace run templateWorld)
      ++ [(OpCopy "/k1/gitops/cluster-types/missing" "/k1/gitops/registry/dev" true,
           Some FS.ENOENT)]
  ∧ (run templateWorld).1 = Some FS.ENOENT.
Proof.
  intros run.
  assert (trace run templateWorld =
            take 7 (trace run templateWorld)
              ++ [(OpCopy "/k1/gitops/cluster-types/missing"
                     "/k1/gitops/registry/dev" true, Some FS.ENOENT)]) as Htr
    by (vm_compute; reflexivity).
  split; [exact Htr|].
  exact (proj2 (proj1 (copy_failure_aborts_immediately examplePlatforms "amd64"
                         "k3d" "dev" "missing" "/k1/gitops" "gitops" "github"
                         "/k1" true templateWorld) _ _ _ _ Htr eq_refl)).
Defined.

(** C2 as stated fails for deletes: with a cluster type that has no console
    manifests there is no ARM console manifest in the registry, [os.Remove]
    fails, and the run goes on to remove the Atlantis manifest, copy
    [repos.tf] and run [sed], and returns [nil]. *)
Lemma failing_delete_does_not_abort :
  let run := AdjustGitopsRepo examplePlatforms "amd64" "k3d" "dev" "production"
               "/k1/gitops" "gitops" "github" "/k1" true in
  ¬ (∀ before op e after,
       trace run templateWorld = before ++ (op, Some e) :: after →
       fatal op = true ∨ deletes op = true →
       after = [] ∧ (run templateWorld).1 = Some e).
Proof.
  intros run H.
  destruct (H (take 10 (trace run templateWorld))
              (OpRemove "/k1/gitops/registry/dev/components/kubefirst/console-arm.yaml")
              FS.ENOENT
              (drop 11 (trace run templateWorld))) as [Hafter _].
  - vm_compute. reflexivity.
  - by right.
  - vm_compute in Hafter. discriminate.
Qed.

(** ** [AdjustGitopsRepo]: the variants *)

Section names.

Lemma split_on_no_delim c s : has_byte c s = false → split_on c s = [s].
Proof.
  induction s as [|a s IH]; simpl; [done|].
  intros [Ha Hs]%orb_false_iff. by rewrite Ha, IH.
Qed.

Lemma entry_name_resolve x : entry_name x → resolve x = [x].
Proof.
  intros (Hne & Hdot & Hslash). unfold resolve.
  rewrite split_on_no_delim by done.
  rewrite filter_cons_True; [done|]. by split.
Qed.

Lemma sapp_nonempty s t : t ≠ "" → s +:+ t ≠ "".
Proof.
  intros Ht H. apply (f_equal Strings.len) in H. rewrite slen_app in H.
  destruct t; [done|]. simpl in H. lia.
Qed.

Lemma has_byte_app c s t : has_byte c (s +:+ t) = has_byte c s || has_byte c t.
Proof.
  induction s as [|a s IH]; [done|]. rewrite sapp_cons. simpl.
  by rewrite IH, orb_assoc.
Qed.

(** Below a directory, [os.RemoveAll] does not refuse an entry name. *)
Lemma entry_name_endsWithDot root x :
  entry_name x → FS.endsWithDot (root +:+ "/" +:+ x) = false.
Proof.
  intros (Hne & Hdot & Hslash). unfold FS.endsWithDot.
  apply orb_false_iff. split.
  - apply String.eqb_neq. intros H. apply (f_equal Strings.len) in H.
    rewrite slen_app in H. destruct x; [done|].
    change ("/" +:+ String a x) with (String "/" (String a x)) in H.
    simpl in H. lia.
  - rewrite HasSuffix_app.
    2:{ destruct x; [done|]. simpl. lia. }
    destruct (Strings.HasSuffix ("/" +:+ x) "/.") eqn:E; [|done].
    apply HasSuffix_spec in E as [pre Hpre].
    change ("/" +:+ x) with (String "/" x) in Hpre.
    destruct pre as [|a pre].
    + change ("" +:+ "/.") with (String "/" ".") in Hpre. by injection Hpre.
    + rewrite sapp_cons in Hpre. injection Hpre as _ ->.
      rewrite has_byte_app in Hslash. simpl in Hslash.
      by rewrite orb_true_r in Hslash.
Qed.

Lemma pair_name_not_literal x lit :
  pair_name x → has_byte "-" lit = false → x ≠ lit.
Proof. intros [_ H] Hl ->. congruence. Qed.

End names.

Section absent_facts.

Implicit Types p : path.

Lemma hoare_absent_RemoveAll p s :
  hoare (λ m, FS.absent m p) (os.RemoveAll s) (λ m, FS.absent m p).
Proof. apply hoare_fs_op. intros m. apply RemoveAll_keeps_absent. Qed.

Lemma hoare_absent_Remove p s :
  hoare (λ m, FS.absent m p) (os.Remove s) (λ m, FS.absent m p).
Proof. apply hoare_fs_op. intros m. apply Remove_keeps_absent. Qed.

Lemma hoare_absent_Copy p src dest o :
  ¬ comparable p (resolve dest) →
  hoare (λ m, FS.absent m p) (cpCopy src dest o) (λ m, FS.absent m p).
Proof.
  intros H. apply hoare_fs_op. intros m.
  eapply within_absent; [apply Copy_within|done].
Qed.

Lemma hoare_absent_exec_sed p (script file : string) :
  hoare (λ m, FS.absent m p)
    (pkg.ExecShellReturnStrings "sed" ["-i"; script; file])
    (λ m, FS.absent m p).
Proof.
  apply hoare_exec_sed. intros m H q Hq. by apply sed_in_place_None, H.
Qed.

Lemma hoare_absent_detokenize p root name :
  ¬ comparable p (resolve (reposTf root)) →
  hoare (λ m, FS.absent m p) (detokenizeReposTf root name)
    (λ m, FS.absent m p).
Proof.
  intros Hp. unfold detokenizeReposTf.
  eapply hoare_bind; [by apply hoare_absent_Copy|]. intros err.
  apply hoare_on_error; [done|].
  eapply hoare_bind; [apply hoare_absent_exec_sed|].
  intros [[? ?] err']. apply hoare_on_error; [done|apply hoare_ret].
Qed.

Lemma hoare_absent_pruneRegistry p arch cloudProvider cn root removeAtlantis :
  hoare (λ m, FS.absent m p)
    (pruneRegistry arch cloudProvider cn root removeAtlantis)
    (λ m, FS.absent m p).
Proof.
  unfold pruneRegistry.
  eapply hoare_bind; [apply hoare_absent_RemoveAll|]. intros _.
  eapply hoare_bind; [apply hoare_absent_RemoveAll|]. intros _.
  eapply hoare_bind; [destruct (_ && _); apply hoare_absent_Remove|].
  intros _. destruct removeAtlantis; [|apply hoare_ret].
  eapply hoare_bind; [apply hoare_absent_Remove|]. intros _. apply hoare_ret.
Qed.

Lemma hoare_absent_cleanUp p platforms root gitProvider :
  hoare (λ m, FS.absent m p) (cleanUpPlatforms platforms root gitProvider)
    (λ m, FS.absent m p).
Proof.
  apply hoare_range. intros x. case_bool_decide; [|apply hoare_ret].
  eapply hoare_bind; [apply hoare_absent_RemoveAll|]. intros _. apply hoare_ret.
Qed.

(** The loop removes every platform but the selected one. *)
Lemma cleanUpPlatforms_removes platforms root gitProvider platform w :
  platform ∈ platforms →
  platform ≠ CloudProvider +:+ "-" +:+ gitProvider →
  entry_name platform →
  FS.absent (fs (cleanUpPlatforms platforms root gitProvider w).2)
    (resolve (root +:+ "/" +:+ platform)).
Proof.
  intros Hin Hsel Hname. revert w. unfold cleanUpPlatforms.
  induction platforms as [|x l IH]; intros w; [by apply elem_of_nil in Hin|].
  simpl. rewrite bind_run.
  apply elem_of_cons in Hin as [Heq|Hin]; [subst x|by apply IH].
  rewrite bool_decide_eq_true_2 by done. rewrite bind_run. simpl.
  apply (hoare_absent_cleanUp _ l root gitProvider).
  unfold os.RemoveAll. rewrite fs_op_run. simpl.
  apply RemoveAll_absent; [|by apply entry_name_endsWithDot].
  apply sapp_nonempty. by destruct platform.
Qed.

End absent_facts.

Section variant_trace.

Variable SupportedPlatforms : list string.
Variable LocalhostARCH : string.

Lemma trace_cleanUpPlatforms platforms root gitProvider w :
  (trace (cleanUpPlatforms platforms root gitProvider) w).*1 =
    (λ p, OpRemoveAll (root +:+ "/" +:+ p))
      <$> filter (λ p, p ≠ CloudProvider +:+ "-" +:+ gitProvider) platforms.
Proof.
  revert w. unfold cleanUpPlatforms.
  induction platforms as [|x l IH]; intros w; simpl; [by rewrite trace_ret|].
  assert (∀ b : string → M unit, (∀ y, quiet (b y)) → ∀ a : unit,
            extends (range l b)) as Hext.
  { intros b Hb _. by apply extends_range, Hb. }
  rewrite trace_bind.
  2:{ case_bool_decide; [|apply extends_ret].
      apply extends_bind; [apply extends_fs_op|]. intros _. apply extends_ret. }
  2:{ intros _. apply (quiet_cleanUpPlatforms l root gitProvider). }
  rewrite fmap_app, IH. case_bool_decide as Hx.
  - rewrite filter_cons_True by done.
    rewrite trace_bind; [|apply extends_fs_op|intros _; apply extends_ret].
    unfold os.RemoveAll. by rewrite trace_fs_op, trace_ret.
  - rewrite filter_cons_False by (by intros []). by rewrite trace_ret.
Qed.

Lemma trace_AdjustGitopsRepo_begins
    cloudProvider clusterName clusterType root name gitProvider k1Dir
    removeAtlantis w :
  ∃ err rest,
    trace (AdjustGitopsRepo SupportedPlatforms LocalhostARCH cloudProvider
             clusterName clusterType root name gitProvider k1Dir
             removeAtlantis) w =
      trace (cleanUpPlatforms SupportedPlatforms root gitProvider) w
        ++ (OpCopy (driverContent root gitProvider) root true, err) :: rest.
Proof.
  unfold AdjustGitopsRepo.
  rewrite trace_bind;
    [|apply obeys_promoteContent
     |unfold pruneRegistry, detokenizeReposTf; solve_extends].
  unfold promoteContent at 1.
  rewrite trace_bind; [|apply quiet_cleanUpPlatforms|solve_extends].
  rewrite trace_bind; [|solve_extends..].
  unfold cpCopy at 1. rewrite trace_fs_op. simpl.
  rewrite <-!app_assoc. simpl. eauto.
Qed.

End variant_trace.

(** C1, amended: the variant that is kept and promoted is the one of the
    package constant [CloudProvider] (["k3d"]) and the caller's gitProvider,
    whatever cloudProvider the caller passes.  The run begins by calling
    [os.RemoveAll] on the subtree of every supported platform other than
    [k3d-{gitProvider}], in the order of the list, and then copies the
    content of [{root}/k3d-{gitProvider}/] over the root; after the loop the
    subtree of every other platform that is a directory name is gone. *)
Theorem selected_variant_is_k3d
    (SupportedPlatforms : list string) (LocalhostARCH : string)
    (cloudProvider clusterName clusterType gitopsRepoDir gitopsRepoName
       gitProvider k1Dir : string) (removeAtlantis : bool) (w : World) :
  let selected := CloudProvider +:+ "-" +:+ gitProvider in
  let run := AdjustGitopsRepo SupportedPlatforms LocalhostARCH cloudProvider
               clusterName clusterType gitopsRepoDir gitopsRepoName gitProvider
               k1Dir removeAtlantis in
  (((λ p, OpRemoveAll (gitopsRepoDir +:+ "/" +:+ p))
      <$> filter (λ p, p ≠ selected) SupportedPlatforms)
     ++ [OpCopy (gitopsRepoDir +:+ "/" +:+ selected +:+ "/") gitopsRepoDir true])
    `prefix_of` (trace run w).*1
  ∧ ∀ platform,
      platform ∈ SupportedPlatforms → platform ≠ selected →
      entry_name platform →
      FS.absent
        (fs (cleanUpPlatforms SupportedPlatforms gitopsRepoDir gitProvider w).2)
        (resolve (gitopsRepoDir +:+ "/" +:+ platform)).
Proof.
  intros selected run. split.
  - destruct (trace_AdjustGitopsRepo_begins SupportedPlatforms LocalhostARCH
                cloudProvider clusterName clusterType gitopsRepoDir
                gitopsRepoName gitProvider k1Dir removeAtlantis w)
      as (err & rest & Htr).
    unfold run. rewrite Htr, fmap_app, trace_cleanUpPlatforms. simpl.
    apply prefix_app, prefix_cons, prefix_nil.
  - intros platform Hin Hsel Hname. by apply cleanUpPlatforms_removes.
Qed.

Lemma selected_variant_witness :
  let w := (cleanUpPlatforms examplePlatforms "/k1/gitops" "github"
              templateWorld).2 in
  FS.absent (fs w) (resolve ("/k1/gitops" +:+ "/" +:+ "aws-github")).
Proof.
  apply (proj2 (selected_variant_is_k3d examplePlatforms "amd64" "aws" "dev"
                  "local" "/k1/gitops" "gitops" "github" "/k1" true
                  templateWorld)).
  - apply list_elem_of_here.
  - discriminate.
  - repeat split; discriminate || reflexivity.
Defined.

(** C1 as stated fails: with cloudProvider ["aws"] and gitProvider
    ["github"] the run does not keep and promote [aws-github]; it removes it
    first and then copies [k3d-github]. *)
Lemma caller_cloud_provider_not_selected :
  let selected := "aws" +:+ "-" +:+ "github" in
  let run := AdjustGitopsRepo examplePlatforms "amd64" "aws" "dev" "local"
               "/k1/gitops" "gitops" "github" "/k1" true in
  ¬ ((((λ p, OpRemoveAll ("/k1/gitops" +:+ "/" +:+ p))
         <$> filter (λ p, p ≠ selected) examplePlatforms)
        ++ [OpCopy ("/k1/gitops" +:+ "/" +:+ selected +:+ "/") "/k1/gitops" true])
       `prefix_of` (trace run templateWorld).*1).
Proof.
  intros selected run [k Hk]. vm_compute in Hk. discriminate.
Qed.

Section variants_absent.

Variable SupportedPlatforms : list string.
Variable LocalhostARCH : string.

Implicit Types root gitProvider platform : string.

Lemma hoare_and {A} P1 P2 Q1 Q2 (c : M A) :
  hoare P1 c Q1 → hoare P2 c Q2 →
  hoare (λ m, P1 m ∧ P2 m) c (λ m, Q1 m ∧ Q2 m).
Proof. intros H1 H2 w [? ?]. split; [by apply H1|by apply H2]. Qed.

Lemma hoare_None_cleanUp (q : path) platforms root gitProvider :
  hoare (λ m, m !! q = None) (cleanUpPlatforms platforms root gitProvider)
    (λ m, m !! q = None).
Proof.
  apply hoare_range. intros x. case_bool_decide; [|apply hoare_ret].
  eapply hoare_bind; [|intros _; apply hoare_ret].
  apply hoare_fs_op. intros m. apply RemoveAll_None.
Qed.

Lemma resolve_driverContent root gitProvider :
  resolve (driverContent root gitProvider) =
    resolve root ++ resolve (CloudProvider +:+ "-" +:+ gitProvider +:+ "/").
Proof. unfold driverContent. apply resolve_app_slash. Qed.

(** The promotion leaves no subtree for a platform other than the selected
    one, unless the selected variant has an entry of that name. *)
Lemma promoteContent_other_platform
    clusterName clusterType root gitProvider platform w :
  platform ∈ SupportedPlatforms →
  platform ≠ CloudProvider +:+ "-" +:+ gitProvider →
  pair_name platform →
  fs w !! (resolve (driverContent root gitProvider) ++ [platform]) = None →
  FS.absent
    (fs (promoteContent SupportedPlatforms clusterName clusterType root
           gitProvider w).2)
    (resolve (root +:+ "/" +:+ platform)).
Proof.
  intros Hin Hsel Hpair Hnone.
  pose proof Hpair as [Hname _].
  rewrite resolve_platform, (entry_name_resolve platform) by done.
  unfold promoteContent. rewrite bind_run.
  match goal with
  | |- FS.absent (fs (?c ?w1).2) ?p =>
      cut (hoare
             (λ m, FS.absent m p
                   ∧ m !! (resolve (driverContent root gitProvider)
                             ++ [platform]) = None)
             c (λ m, FS.absent m p))
  end.
  { intros Hrest. apply Hrest. split.
    - rewrite <-(entry_name_resolve platform), <-resolve_platform by done.
      by apply cleanUpPlatforms_removes.
    - by apply hoare_None_cleanUp. }
  eapply (hoare_bind _ (λ m, FS.absent m (resolve root ++ [platform]))).
  { apply hoare_fs_op. intros m [Habs Hm].
    apply Copy_keeps_absent_child; [done..|].
    rewrite resolve_driverContent, <-app_assoc. intros Hp.
    apply prefix_length in Hp. rewrite !length_app in Hp. simpl in Hp. lia. }
  intros err. apply hoare_on_error; [done|].
  eapply hoare_bind; [apply hoare_absent_RemoveAll|]. intros _.
  eapply hoare_bind.
  { apply hoare_absent_Copy. rewrite resolve_registry.
    apply (incomparable_siblings _ platform "registry" [] _).
    by apply pair_name_not_literal. }
  intros err'. apply hoare_on_error; [done|apply hoare_ret].
Qed.

Lemma pruneRegistry_removes_cluster_types cloudProvider cn root removeAtlantis :
  hoare (λ _, True)
    (pruneRegistry LocalhostARCH cloudProvider cn root removeAtlantis)
    (λ m, FS.absent m (resolve (root +:+ "/cluster-types"))
          ∧ FS.absent m (resolve (root +:+ "/services"))).
Proof.
  unfold pruneRegistry.
  eapply (hoare_bind _ (λ m, FS.absent m (resolve (root +:+ "/cluster-types")))).
  { apply hoare_fs_op. intros m _. apply RemoveAll_absent.
    - by apply sapp_nonempty.
    - by apply (entry_name_endsWithDot root "cluster-types"). }
  intros _.
  eapply (hoare_bind _ (λ m, FS.absent m (resolve (root +:+ "/cluster-types"))
                             ∧ FS.absent m (resolve (root +:+ "/services")))).
  { apply hoare_fs_op. intros m H. split.
    - by apply RemoveAll_keeps_absent.
    - apply RemoveAll_absent.
      + by apply sapp_nonempty.
      + by apply (entry_name_endsWithDot root "services"). }
  intros _. eapply hoare_bind.
  { destruct (_ && _); apply hoare_and; apply hoare_absent_Remove. }
  intros _. destruct removeAtlantis; [|apply hoare_ret].
  eapply hoare_bind; [apply hoare_and; apply hoare_absent_Remove|].
  intros _. apply hoare_ret.
Qed.

End variants_absent.

(** C3, amended: after a successful run the cluster-types and the services
    subtrees are gone, and so is the subtree of every supported platform
    other than [k3d-{gitProvider}], provided that the promoted variant
    [k3d-{gitProvider}] had no entry of that platform's name: the variant is
    copied over the root after the other platforms are removed, and an entry
    of it with a platform's name becomes a subtree of the root. *)
Theorem other_variants_absent_after_run
    (SupportedPlatforms : list string) (LocalhostARCH : string)
    (cloudProvider clusterName clusterType gitopsRepoDir gitopsRepoName
       gitProvider k1Dir : string) (removeAtlantis : bool) (w : World) :
  let run := AdjustGitopsRepo SupportedPlatforms LocalhostARCH cloudProvider
               clusterName clusterType gitopsRepoDir gitopsRepoName gitProvider
               k1Dir removeAtlantis w in
  run.1 = None →
  FS.absent (fs run.2) (resolve (gitopsRepoDir +:+ "/cluster-types"))
  ∧ FS.absent (fs run.2) (resolve (gitopsRepoDir +:+ "/services"))
  ∧ ∀ platform,
      platform ∈ SupportedPlatforms →
      platform ≠ CloudProvider +:+ "-" +:+ gitProvider →
      pair_name platform →
      fs w !! (resolve (driverContent gitopsRepoDir gitProvider) ++ [platform])
        = None →
      FS.absent (fs run.2) (resolve (gitopsRepoDir +:+ "/" +:+ platform)).
Proof.
  intros run Hok.
  assert ((promoteContent SupportedPlatforms clusterName clusterType
             gitopsRepoDir gitProvider w).1 = None) as Hpromote.
  { unfold run, AdjustGitopsRepo in Hok. rewrite bind_run in Hok.
    by destruct (promoteContent _ _ _ _ _ w).1. }
  unfold run.
  rewrite (AdjustGitopsRepo_after_promote _ _ _ _ _ _ _ _ _ _ _ Hpromote).
  set (w1 := (promoteContent _ _ _ _ _ w).2).
  pose proof (pruneRegistry_removes_cluster_types LocalhostARCH cloudProvider
                clusterName gitopsRepoDir removeAtlantis w1 I) as [Hct Hsv].
  split; [|split].
  - apply hoare_absent_detokenize; [|done].
    rewrite resolve_cluster_types, resolve_reposTf. path_solver.
  - apply hoare_absent_detokenize; [|done].
    rewrite resolve_services, resolve_reposTf. path_solver.
  - intros platform Hin Hsel Hpair Hnone.
    apply hoare_absent_detokenize.
    { rewrite resolve_platform, (entry_name_resolve platform), resolve_reposTf
        by apply Hpair.
      apply (incomparable_siblings _ platform "terraform" [] _).
      by apply pair_name_not_literal. }
    apply hoare_absent_pruneRegistry.
    by apply promoteContent_other_platform.
Qed.

Lemma other_variants_witness :
  let run := AdjustGitopsRepo examplePlatforms "amd64" "k3d" "dev" "local"
               "/k1/gitops" "gitops" "github" "/k1" true templateWorld in
  run.1 = None
  ∧ FS.absent (fs run.2) (resolve ("/k1/gitops" +:+ "/" +:+ "aws-github")).
Proof.
  intros run.
  assert (run.1 = None) as Hok by (vm_compute; reflexivity).
  split; [exact Hok|].
  apply (proj2 (proj2 (other_variants_absent_after_run examplePlatforms "amd64"
                         "k3d" "dev" "local" "/k1/gitops" "gitops" "github"
                         "/k1" true templateWorld Hok)) "aws-github").
  - apply list_elem_of_here.
  - discriminate.
  - repeat split; discriminate || reflexivity.
  - vm_compute. reflexivity.
Defined.

(** C3 as stated fails: this template has a subtree for every supported
    platform, and its [k3d-github] variant has a directory [aws-github]; the
    run succeeds and leaves a subtree [aws-github] in the root. *)
Lemma promoted_entry_recreates_platform :
  let run := AdjustGitopsRepo examplePlatforms "amd64" "k3d" "dev" "local"
               "/k1/gitops" "gitops" "github" "/k1" true nestedWorld in
  forallb (λ p, bool_decide (fs nestedWorld !! resolve ("/k1/gitops/" +:+ p)
                             = Some Dir)) examplePlatforms = true
  ∧ ¬ (run.1 = None →
       ∀ platform, platform ∈ examplePlatforms → platform ≠ "k3d-github" →
         FS.absent (fs run.2) (resolve ("/k1/gitops" +:+ "/" +:+ platform))).
Proof.
  intros run. split; [vm_compute; reflexivity|]. intros H.
  assert (run.1 = None) as Hok by (vm_compute; reflexivity).
  specialize (H Hok "aws-github" (list_elem_of_here _ _)).
  assert (fs run.2 !! resolve ("/k1/gitops" +:+ "/" +:+ "aws-github") = None)
    as Hnone.
  { apply H; [discriminate|done]. }
  vm_compute in Hnone. discriminate.
Qed.

(** ** The git client *)

Section git_facts.

Implicit Types r : path.

(** The outcome of an operation of the git client. *)
Lemma git_op_run op r f w :
  ∃ err rs,
    git_op op r f w =
      (err, {| fs := fs w; repos := rs; gitFault := gitFault w;
               log := log w ++ [(op, err)] |})
    ∧ (gitFault w op = None →
       match repos w !! r with
       | Some repo =>
           match f repo with
           | inr repo' => err = None ∧ rs = <[r := repo']> (repos w)
           | inl e => err = Some e ∧ rs = repos w
           end
       | None => err ≠ None ∧ rs = repos w
       end)
    ∧ (∀ e, gitFault w op = Some e → err = Some e ∧ rs = repos w).
Proof.
  unfold git_op. destruct (gitFault w op) as [e|].
  - eexists _, _. split; [done|]. split; [done|]. by intros ? [= <-].
  - destruct (repos w !! r) as [repo|].
    + destruct (f repo) as [e|repo']; eexists _, _; by repeat split.
    + eexists _, _. by repeat split.
Qed.

Lemma git_op_success op r f w :
  (git_op op r f w).1 = None →
  ∃ repo repo',
    repos w !! r = Some repo ∧ f repo = inr repo'
    ∧ git_op op r f w =
        (None, {| fs := fs w; repos := <[r := repo']> (repos w);
                  gitFault := gitFault w; log := log w ++ [(op, None)] |}).
Proof.
  unfold git_op. destruct (gitFault w op) as [e|]; [done|].
  destruct (repos w !! r) as [repo|]; [|done].
  destruct (f repo) as [e|repo'] eqn:E; [done|]. intros _. by exists repo, repo'.
Qed.

Lemma git_op_failure op r f w e :
  (git_op op r f w).1 = Some e →
  git_op op r f w =
    (Some e, {| fs := fs w; repos := repos w; gitFault := gitFault w;
                log := log w ++ [(op, Some e)] |}).
Proof.
  unfold git_op. destruct (gitFault w op) as [e'|]; [by intros [= ->]|].
  destruct (repos w !! r) as [repo|]; [|by intros [= <-]].
  destruct (f repo) as [e'|repo']; [by intros [= ->]|done].
Qed.

Lemma PlainInit_handle dir w : (git.PlainInit dir w).1.1 = resolve dir.
Proof.
  unfold git.PlainInit. destruct (gitFault w _); [done|].
  destruct (repos w !! _); [done|]. by destruct (FS.MkdirAll _ _) as [[?|] ?].
Qed.

Lemma PlainInit_success dir w :
  (git.PlainInit dir w).1.2 = None →
  repos w !! resolve dir = None
  ∧ git.PlainInit dir w =
      ((resolve dir, None),
       {| fs := (FS.MkdirAll (resolve dir ++ [".git"]) (fs w)).2;
          repos := <[resolve dir := git.empty]> (repos w);
          gitFault := gitFault w;
          log := log w ++ [(OpPlainInit dir, None)] |}).
Proof.
  unfold git.PlainInit. destruct (gitFault w _); [done|].
  destruct (repos w !! _) eqn:E; [done|].
  by destruct (FS.MkdirAll _ _) as [[?|] ?].
Qed.

Lemma PlainInit_failure dir w e :
  (git.PlainInit dir w).1.2 = Some e →
  log (git.PlainInit dir w).2 = log w ++ [(OpPlainInit dir, Some e)].
Proof.
  unfold git.PlainInit. destruct (gitFault w _); [by intros [= ->]|].
  destruct (repos w !! _) eqn:E; [by intros [= <-]|].
  destruct (FS.MkdirAll _ _) as [[?|] ?]; [by intros [= ->]|done].
Qed.

End git_facts.

(** ** [AdjustMetaphorRepo]: the successful run *)

(** One step of a run: the next file system operation, with its outcome
    named; the next operation of the git client, failed or not. *)
Ltac exec_fs :=
  match goal with
  | |- context [fs_op ?op ?f ?w] =>
      rewrite (fs_op_run op f w); cbn [fs repos gitFault log fst snd on_error];
      let e := fresh "e" in
      let m := fresh "m" in
      destruct (f _) as [e m] eqn:?; cbn [fst snd on_error]
  end.

Ltac exec_git :=
  match goal with
  | |- context [git_op ?op ?r ?f ?w] =>
      let E := fresh "E" in
      destruct (git_op op r f w).1 as [?e|] eqn:E;
      [ rewrite (git_op_failure op r f w _ E)
      | let repo := fresh "repo" in
        let repo' := fresh "repo'" in
        let Hr := fresh "Hrepo" in
        let Hf := fresh "Hf" in
        let Hrun := fresh "Hrun" in
        destruct (git_op_success op r f w E) as (repo & repo' & Hr & Hf & Hrun);
        rewrite Hrun; clear Hrun E ];
      cbn [fs repos gitFault log fst snd on_error]
  end.

Ltac exec_init :=
  match goal with
  | |- context [git.PlainInit ?dir ?w] =>
      let E := fresh "E" in
      let Hfresh := fresh "Hfresh" in
      let Hrun := fresh "Hrun" in
      pose proof (PlainInit_handle dir w) as Hhandle;
      destruct (git.PlainInit dir w).1.2 as [?e|] eqn:E;
      [ destruct (git.PlainInit dir w) as [[? ?] ?]; simpl in E, Hhandle; subst
      | destruct (PlainInit_success dir w E) as (Hfresh & Hrun);
        rewrite Hrun; clear Hrun E Hhandle ];
      cbn [fs repos gitFault log fst snd on_error]
  end.

Ltac exec_sed :=
  match goal with
  | |- context [pkg.ExecShellReturnStrings ?c ?args ?w] =>
      rewrite (exec_run c args w); cbn [fs repos gitFault log fst snd];
      let e := fresh "e" in
      let m := fresh "m" in
      destruct (pkg.run_command c args _) as [e m] eqn:?;
      cbn [fst snd on_error]
  end.

Section metaphor_run.

Lemma commitAndPublish_success r url root name w repo0 :
  let res := commitAndPublish r url root name w in
  let master := plumbing.NewBranchReferenceName "master" in
  let main := plumbing.NewBranchReferenceName "main" in
  let n := length (Commits repo0) in
  repos w !! r = Some repo0 →
  res.1 = None →
  repos res.2 !! r = Some
    {| Commits := Commits repo0
         ++ [{| Message := commitMessage; Tree := gitClient.worktree (fs w) r;
                Parents := option_list (Refs repo0 !! HEAD repo0) |}];
       Refs := delete master (<[main := n]> (<[HEAD repo0 := n]> (Refs repo0)));
       HEAD := main;
       Remotes := <["origin" := [url]]> (Remotes repo0) |}
  ∧ Remotes repo0 !! "origin" = None
  ∧ log res.2 = log w ++
      [(OpCommit r commitMessage, None);
       (OpSetRefToMainBranch r, None);
       (OpRemoveReference r master, None);
       (OpExec "sed" ["-i"; metaphorPattern name;
                      root +:+ "/terraform/github/repos.tf"], None);
       (OpCreateRemote r {| Name := "origin"; URLs := [url] |}, None)].
Proof.
  intros res master main n Hrepo0. unfold res, commitAndPublish.
  unfold gitClient.Commit, gitClient.SetRefToMainBranch, git.RemoveReference,
    git.CreateRemote, mbind, M_bind, mret, M_ret.
  cbn beta.
  exec_git; [by intros [=]|].
  exec_git; [by intros [=]|].
  exec_git; [by intros [=]|].
  exec_sed. destruct e; [by intros [=]|]. cbn [on_error].
  exec_git; [by intros [=]|].
  intros _. cbn [repos] in *.
  rewrite Hrepo0 in Hrepo. injection Hrepo as <-.
  injection Hf as <-.
  rewrite lookup_insert_eq in Hrepo1. injection Hrepo1 as <-.
  cbn [Refs HEAD Commits Remotes] in Hf0.
  rewrite lookup_insert_eq in Hf0. injection Hf0 as <-.
  rewrite lookup_insert_eq in Hrepo2. injection Hrepo2 as <-.
  cbn [Refs HEAD Commits Remotes] in Hf1. injection Hf1 as <-.
  rewrite lookup_insert_eq in Hrepo3. injection Hrepo3 as <-.
  cbn [Refs HEAD Commits Remotes Name URLs] in Hf2.
  change (String.eqb "origin" "") with false in Hf2.
  rewrite bool_decide_eq_false_2 in Hf2 by done.
  destruct (Remotes repo0 !! "origin") eqn:Horigin; [done|].
  injection Hf2 as <-.
  rewrite lookup_insert_eq. split; [done|]. split; [done|].
  by rewrite <-!app_assoc.
Qed.

Lemma AdjustMetaphorRepo_success url root name gitProvider k1Dir w :
  let md := k1Dir +:+ "/metaphor" in
  let r := resolve md in
  let run := AdjustMetaphorRepo url root name gitProvider k1Dir w in
  run.1 = None →
  repos w !! r = None
  ∧ (∃ tree, repos run.2 !! r = Some (assembledRepository tree url))
  ∧ (log run.2).*1 = (log w).*1 ++
      [OpMkdir md; OpPlainInit md; OpCopy (root +:+ "/metaphor") md true]
      ++ ciCopies gitProvider k1Dir md
      ++ [OpCopy (k1Dir +:+ "/gitops/ci/.argo") (md +:+ "/.argo") true;
          OpMkdir (md +:+ "/build");
          OpCopy (md +:+ "/Dockerfile") (md +:+ "/build/Dockerfile") true;
          OpRemoveAll (root +:+ "/ci");
          OpRemoveAll (root +:+ "/metaphor");
          OpCommit r commitMessage;
          OpSetRefToMainBranch r;
          OpRemoveReference r (plumbing.NewBranchReferenceName "master");
          OpExec "sed" ["-i"; metaphorPattern name;
                        root +:+ "/terraform/github/repos.tf"];
          OpCreateRemote r {| Name := "origin"; URLs := [url] |}].
Proof.
  intros md r run. unfold run, AdjustMetaphorRepo.
  unfold os.Mkdir, os.RemoveAll, cpCopy, mbind, M_bind, mret, M_ret.
  cbn beta. fold md.
  exec_fs. exec_init; [by intros [=]|]. fold r.
  exec_fs. destruct e0; [by intros [=]|]. cbn [on_error].
  assert (∀ (k : M (option error)) (w1 : World) (P : World → Prop),
    (∀ l e m, l = ciCopies gitProvider k1Dir md →
       (k {| fs := m; repos := repos w1; gitFault := gitFault w1;
             log := log w1 ++ ((λ op, (op, e)) <$> l) |}).1 = None →
       P (k {| fs := m; repos := repos w1; gitFault := gitFault w1;
               log := log w1 ++ ((λ op, (op, e)) <$> l) |}).2) →
    (let (a, w') := copyCIContent gitProvider k1Dir md w1 in
     on_error a Some k w').1 = None →
    P (let (a, w') := copyCIContent gitProvider k1Dir md w1 in
       on_error a Some k w').2) as Hci.
  { intros k w1 P Hk. unfold copyCIContent, ciCopies, cpCopy in *.
    destruct (String.eqb gitProvider "github");
      [|destruct (String.eqb gitProvider "gitlab")].
    - exec_fs. destruct e0; [by intros [=]|]. cbn [on_error].
      apply (Hk _ None _ eq_refl).
    - exec_fs. destruct e0; [by intros [=]|]. cbn [on_error].
      apply (Hk _ None _ eq_refl).
    - unfold mret, M_ret. cbn [on_error]. intros H.
      specialize (Hk [] None (fs w1) eq_refl). simpl in Hk.
      rewrite app_nil_r in Hk. destruct w1. by apply Hk. }
  intros Hok0.
  match goal with
  | |- context [(let (a, w') := copyCIContent _ _ _ ?w1 in
                 on_error a Some ?k w').2] =>
      pattern (let (a, w') := copyCIContent gitProvider k1Dir md w1 in
               on_error a Some k w').2;
      apply Hci; [|exact Hok0]
  end.
  clear Hci Hok0. intros l e0 m2 Hl. cbn [fs repos gitFault log].
  exec_fs. destruct e1; [by intros [=]|]. cbn [on_error].
  exec_fs. exec_fs. destruct e2; [by intros [=]|]. cbn [on_error].
  exec_fs. exec_fs.
  intros Hok.
  match type of Hok with
  | (commitAndPublish r url root name ?W).1 = None =>
      destruct (commitAndPublish_success r url root name W git.empty)
        as (Hrepos & _ & Hlog); [apply lookup_insert_eq|done|]
  end.
  cbn [fs repos gitFault log] in Hrepos, Hlog.
  split; [done|]. split.
  - eexists. rewrite Hrepos. reflexivity.
  - rewrite Hlog, Hl, !fmap_app, <-!app_assoc. simpl.
    rewrite <-list_fmap_compose. simpl.
    rewrite (list_fmap_ext _ id (ciCopies gitProvider k1Dir md)) by done.
    by rewrite list_fmap_id.
Qed.

End metaphor_run.

(** ** [AdjustMetaphorRepo]: the failures reported under a message *)

Section removal_facts.

Lemma trace_git_op op r f w :
  trace (git_op op r f) w = [(op, (git_op op r f w).1)].
Proof.
  destruct (git_op_run op r f w) as (err & rs & Hrun & _).
  apply trace_unique. by rewrite Hrun.
Qed.

Lemma extends_git_op op r f : extends (git_op op r f).
Proof.
  apply extends_intro. intros w.
  destruct (git_op_run op r f w) as (err & rs & Hrun & _).
  eexists. by rewrite Hrun.
Qed.

Lemma trace_PlainInit dir w :
  trace (git.PlainInit dir) w = [(OpPlainInit dir, (git.PlainInit dir w).1.2)].
Proof.
  apply trace_unique. unfold git.PlainInit. cbv zeta.
  destruct (gitFault w (OpPlainInit dir)); [done|].
  destruct (repos w !! resolve dir); [done|].
  by destruct (FS.MkdirAll _ _) as [[?|] ?].
Qed.

Lemma extends_PlainInit dir : extends (git.PlainInit dir).
Proof.
  apply extends_intro. intros w.
  exists [(OpPlainInit dir, (git.PlainInit dir w).1.2)].
  unfold git.PlainInit. cbv zeta.
  destruct (gitFault w (OpPlainInit dir)); [done|].
  destruct (repos w !! resolve dir); [done|].
  by destruct (FS.MkdirAll _ _) as [[?|] ?].
Qed.

Context (S : Op → Prop).

Lemma never_ret {A} (a : A) : never S (mret a).
Proof.
  split; [apply extends_ret|]. intros w op res. rewrite trace_ret.
  by intros ?%elem_of_nil.
Qed.

Lemma never_bind {A B} (c : M A) (f : A → M B) :
  never S c → (∀ a, never S (f a)) → never S (c ≫= f).
Proof.
  intros [Hc1 Hc2] Hf. split.
  - apply extends_bind; [done|]. intros a. apply Hf.
  - intros w op res. rewrite trace_bind; [|done|intros a; apply Hf].
    intros [H|H]%elem_of_app; [by eapply Hc2|]. by eapply Hf.
Qed.

Lemma never_on_error err handler k : never S k → never S (on_error err handler k).
Proof. intros Hk. destruct err; [apply never_ret|done]. Qed.

Lemma never_single {A} (c : M A) op (get : A → option error) :
  (∀ w, log (c w).2 = log w ++ [(op, get (c w).1)]) → ¬ S op → never S c.
Proof.
  intros Hlog Hop. split.
  - apply extends_intro. intros w. eexists. apply Hlog.
  - intros w op' res. rewrite (trace_unique _ _ _ (Hlog w)).
    intros [= -> _]%list_elem_of_singleton. done.
Qed.

Lemma never_fs_op op f : ¬ S op → never S (fs_op op f).
Proof.
  intros Hop. apply (never_single _ op id); [|done].
  intros w. by rewrite fs_op_run.
Qed.

Lemma never_git_op op r f : ¬ S op → never S (git_op op r f).
Proof.
  intros Hop. apply (never_single _ op id); [|done].
  intros w. destruct (git_op_run op r f w) as (err & rs & Hrun & _).
  by rewrite Hrun.
Qed.

Lemma never_exec command args :
  ¬ S (OpExec command args) → never S (pkg.ExecShellReturnStrings command args).
Proof.
  intros Hop. apply (never_single _ (OpExec command args) snd); [|done].
  intros w. by rewrite exec_run.
Qed.

Lemma never_PlainInit dir : ¬ S (OpPlainInit dir) → never S (git.PlainInit dir).
Proof.
  intros Hop. apply (never_single _ (OpPlainInit dir) snd); [|done].
  intros w. rewrite (extends_PlainInit dir w). by rewrite trace_PlainInit.
Qed.

End removal_facts.

Section reports_facts.

Context (S : Op → Prop) (message : string).

Lemma reports_never c : never S c → reports S message c.
Proof.
  intros [Hc1 Hc2]. split; [done|]. intros w op e Hop Hin.
  by destruct (Hc2 w _ _ Hin).
Qed.

Lemma reports_bind {A} (c : M A) (f : A → M (option error)) :
  never S c → (∀ a, reports S message (f a)) → reports S message (c ≫= f).
Proof.
  intros [Hc1 Hc2] Hf. split.
  - apply extends_bind; [done|]. intros a. apply Hf.
  - intros w op e Hop. rewrite trace_bind; [|done|intros a; apply Hf].
    rewrite bind_run. intros [H|H]%elem_of_app; [by destruct (Hc2 w _ _ H)|].
    by eapply Hf.
Qed.

Lemma reports_on_error err handler k :
  reports S message k → reports S message (on_error err handler k).
Proof.
  intros Hk. destruct err; [|done]. apply reports_never, never_ret.
Qed.

(** The steps themselves: the error is returned under the message. *)
Lemma reports_RemoveReference r name k :
  never S k →
  reports S message
    (err ← git.RemoveReference r name;
     on_error err (λ e, Some (message +:+ e)) k).
Proof.
  intros [Hk1 Hk2]. unfold git.RemoveReference. split.
  - apply extends_bind; [apply extends_git_op|].
    intros err. by apply extends_on_error.
  - intros w op e Hop.
    rewrite trace_bind;
      [|apply extends_git_op|intros err; by apply extends_on_error].
    rewrite bind_run, trace_git_op.
    destruct (git_op _ r _ w) as [[e'|] w1]; simpl.
    + rewrite trace_ret.
      by intros [= _ ->]%list_elem_of_singleton.
    + intros [H|H]%elem_of_cons; [done|]. by destruct (Hk2 w1 _ _ H).
Qed.

Lemma reports_exec command args k :
  never S k →
  reports S message
    ('(_, _, err) ← pkg.ExecShellReturnStrings command args;
     on_error err (λ e, Some (message +:+ e)) k).
Proof.
  intros [Hk1 Hk2].
  assert (∀ a : string * string * option error,
            extends (let '(_, _, err) := a in
                     on_error err (λ e, Some (message +:+ e)) k)) as Hext.
  { intros [[? ?] err]. by apply extends_on_error. }
  split.
  - apply extends_bind; [apply extends_exec|]. apply Hext.
  - intros w op e Hop.
    rewrite trace_bind; [|apply extends_exec|apply Hext].
    rewrite bind_run, trace_exec, exec_run. cbv zeta.
    destruct (pkg.run_command command args (fs w)) as [[e'|] m];
      cbn [fst snd on_error].
    + rewrite trace_ret.
      by intros [= _ ->]%list_elem_of_singleton.
    + intros [H|H]%elem_of_cons; [done|]. by destruct (Hk2 _ _ _ H).
Qed.

End reports_facts.

Section metaphor_reports.

Lemma never_Commit S r msg : ¬ S (OpCommit r msg) → never S (gitClient.Commit r msg).
Proof.
  intros Hop. apply (never_single _ _ (OpCommit r msg) id); [|done].
  intros w. unfold gitClient.Commit.
  destruct (git_op_run (OpCommit r msg) r
              (λ repo,
                 inr {| Commits := Commits repo
                          ++ [{| Message := msg;
                                 Tree := gitClient.worktree (fs w) r;
                                 Parents := option_list (Refs repo !! HEAD repo) |}];
                        Refs := <[HEAD repo := length (Commits repo)]> (Refs repo);
                        HEAD := HEAD repo; Remotes := Remotes repo |}) w)
    as (err & rs & Hrun & _).
  by rewrite Hrun.
Qed.

Lemma never_SetRefToMainBranch S r :
  ¬ S (OpSetRefToMainBranch r) → never S (gitClient.SetRefToMainBranch r).
Proof.
  intros Hop. apply (never_single _ _ (OpSetRefToMainBranch r) snd); [|done].
  intros w. unfold gitClient.SetRefToMainBranch.
  match goal with
  | |- context [git_op ?op ?r ?f ?w] =>
      destruct (git_op_run op r f w) as (err & rs & Hrun & _)
  end.
  by rewrite Hrun.
Qed.

End metaphor_reports.

Ltac solve_never :=
  repeat first
    [ apply never_ret
    | apply never_on_error
    | apply never_bind
    | apply never_fs_op
    | apply never_git_op
    | apply never_exec
    | apply never_PlainInit
    | apply never_Commit
    | apply never_SetRefToMainBranch
    | match goal with
      | |- ∀ _, never _ _ => intros ?
      | |- never _ (cpCopy _ _ _) => unfold cpCopy
      | |- never _ (os.RemoveAll _) => unfold os.RemoveAll
      | |- never _ (os.Remove _) => unfold os.Remove
      | |- never _ (os.Mkdir _) => unfold os.Mkdir
      | |- never _ (git.CreateRemote _ _) => unfold git.CreateRemote
      | |- never _ (copyCIContent _ _ _) => unfold copyCIContent
      | |- never _ (match ?x with _ => _ end) => destruct x
      | |- ¬ is_RemoveReference _ => by intros []
      | |- ¬ is_Exec _ => by intros []
      | Hnot : ∀ op, ¬ is_RemoveReference op → ¬ is_Exec op → ¬ _ op |- ¬ _ _ =>
          apply Hnot; by intros []
      end ].

Lemma reports_removal_commitAndPublish r url root name :
  reports is_RemoveReference "error removing previous git ref: "
    (commitAndPublish r url root name).
Proof.
  unfold commitAndPublish.
  apply reports_bind; [solve_never|]. intros err. apply reports_on_error.
  apply reports_bind; [solve_never|]. intros [r' err']. apply reports_on_error.
  apply reports_RemoveReference. solve_never.
Qed.

Lemma reports_exec_commitAndPublish r url root name :
  reports is_Exec "error replacing gitops repo name in repos.tf: "
    (commitAndPublish r url root name).
Proof.
  unfold commitAndPublish.
  apply reports_bind; [solve_never|]. intros err. apply reports_on_error.
  apply reports_bind; [solve_never|]. intros [r' err']. apply reports_on_error.
  apply reports_bind; [solve_never|]. intros err''. apply reports_on_error.
  apply reports_exec. solve_never.
Qed.

Lemma reports_AdjustMetaphorRepo S message url root name gitProvider k1Dir :
  (∀ op, S op → is_RemoveReference op ∨ is_Exec op) →
  (∀ r, reports S message (commitAndPublish r url root name)) →
  reports S message (AdjustMetaphorRepo url root name gitProvider k1Dir).
Proof.
  intros HS Hcommit.
  assert (∀ op, ¬ is_RemoveReference op → ¬ is_Exec op → ¬ S op) as Hnot.
  { intros op H1 H2 [?|?]%HS; done. }
  unfold AdjustMetaphorRepo.
  apply reports_bind; [solve_never|]. intros _.
  apply reports_bind; [solve_never|]. intros [r err]. apply reports_on_error.
  apply reports_bind; [solve_never|]. intros err1. apply reports_on_error.
  apply reports_bind; [solve_never|]. intros err2. apply reports_on_error.
  apply reports_bind; [solve_never|]. intros err3. apply reports_on_error.
  apply reports_bind; [solve_never|]. intros _.
  apply reports_bind; [solve_never|]. intros err4. apply reports_on_error.
  apply reports_bind; [solve_never|]. intros _.
  apply reports_bind; [solve_never|]. intros _.
  apply Hcommit.
Qed.

Lemma reports_removal_AdjustMetaphorRepo url root name gitProvider k1Dir :
  reports is_RemoveReference "error removing previous git ref: "
    (AdjustMetaphorRepo url root name gitProvider k1Dir).
Proof.
  apply reports_AdjustMetaphorRepo; [by left|].
  intros r. apply reports_removal_commitAndPublish.
Qed.

Lemma reports_exec_AdjustMetaphorRepo url root name gitProvider k1Dir :
  reports is_Exec "error replacing gitops repo name in repos.tf: "
    (AdjustMetaphorRepo url root name gitProvider k1Dir).
Proof.
  apply reports_AdjustMetaphorRepo; [by right|].
  intros r. apply reports_exec_commitAndPublish.
Qed.

(** ** [AdjustMetaphorRepo]: the repository and the CI content *)

Lemma trace_ops_of_log {A} (c : M A) w l :
  (log (c w).2).*1 = (log w).*1 ++ l → extends c → (trace c w).*1 = l.
Proof.
  intros Hlog Hext. rewrite (Hext w), fmap_app in Hlog.
  by apply app_inv_head in Hlog.
Qed.

Lemma extends_AdjustMetaphorRepo url root name gitProvider k1Dir :
  extends (AdjustMetaphorRepo url root name gitProvider k1Dir).
Proof. apply reports_removal_AdjustMetaphorRepo. Qed.

(** C8: when [AdjustMetaphorRepo] returns [nil], there was no repository at
    the metaphor directory before, and the one there now has exactly one
    commit, the branch [main] on that commit and no other reference, [HEAD]
    on [main], and exactly one remote, [origin], with the destination URL;
    and a run in which the removal of the [master] reference fails returns
    that error under the message "error removing previous git ref". *)
Theorem metaphor_repository_assembled
    (destinationMetaphorRepoGitURL gitopsRepoDir metaphorRepoName gitProvider
       k1Dir : string) (w : World) :
  let r := resolve (k1Dir +:+ "/metaphor") in
  let run := AdjustMetaphorRepo destinationMetaphorRepoGitURL gitopsRepoDir
               metaphorRepoName gitProvider k1Dir in
  ((run w).1 = None →
     repos w !! r = None
     ∧ ∃ tree,
         repos (run w).2 !! r =
           Some (assembledRepository tree destinationMetaphorRepoGitURL))
  ∧ (∀ r' ref e,
       (OpRemoveReference r' ref, Some e) ∈ trace run w →
       (run w).1 = Some ("error removing previous git ref: " +:+ e)).
Proof.
  intros r run. split.
  - intros Hok.
    destruct (AdjustMetaphorRepo_success destinationMetaphorRepoGitURL
                gitopsRepoDir metaphorRepoName gitProvider k1Dir w Hok)
      as (Hfresh & Hrepo & _).
    by split.
  - intros r' ref e Hin.
    by apply (proj2 (reports_removal_AdjustMetaphorRepo
                       destinationMetaphorRepoGitURL gitopsRepoDir
                       metaphorRepoName gitProvider k1Dir)
                w (OpRemoveReference r' ref) e I).
Qed.

Lemma metaphor_repository_witness :
  let r := resolve ("/k1" +:+ "/metaphor") in
  let run := AdjustMetaphorRepo "git@github.com:acme/metaphor.git" "/k1/gitops"
               "metaphor" "github" "/k1" in
  ((run gitopsWorld).1 = None
   ∧ ∃ tree, repos (run gitopsWorld).2 !! r =
               Some (assembledRepository tree "git@github.com:acme/metaphor.git"))
  ∧ (run lockedRefsWorld).1 =
      Some ("error removing previous git ref: " +:+ "permission denied").
Proof.
  intros r run.
  assert ((run gitopsWorld).1 = None) as Hok by (vm_compute; reflexivity).
  split; [split; [exact Hok|]|].
  - apply (proj1 (metaphor_repository_assembled
                    "git@github.com:acme/metaphor.git" "/k1/gitops" "metaphor"
                    "github" "/k1" gitopsWorld) Hok).
  - apply (proj2 (metaphor_repository_assembled
                    "git@github.com:acme/metaphor.git" "/k1/gitops" "metaphor"
                    "github" "/k1" lockedRefsWorld)
             r (plumbing.NewBranchReferenceName "master")).
    apply (list_elem_of_lookup_2 _ 11). vm_compute. reflexivity.
Defined.

Lemma filter_is_copy_ciCopies gitProvider k1Dir md :
  filter (λ op, is_copy op = true) (ciCopies gitProvider k1Dir md)
  = ciCopies gitProvider k1Dir md.
Proof.
  unfold ciCopies. destruct (String.eqb gitProvider "github"); [done|].
  by destruct (String.eqb gitProvider "gitlab").
Qed.

Lemma resolve_metaphor_github md :
  resolve (md +:+ "/.github") = resolve md ++ [".github"].
Proof. by rewrite (resolve_under _ ".github"). Qed.

Lemma resolve_metaphor_gitlab_ci md :
  resolve (md +:+ "/.gitlab-ci.yml") = resolve md ++ [".gitlab-ci.yml"].
Proof. by rewrite (resolve_under _ ".gitlab-ci.yml"). Qed.

(** C6: the CI step of [AdjustMetaphorRepo] is decided by gitProvider alone:
    for ["github"] it copies [{k1Dir}/gitops/ci/.github] to [.github] in the
    metaphor directory, for ["gitlab"] it copies the file
    [{k1Dir}/gitops/ci/.gitlab-ci.yml] to [.gitlab-ci.yml] there and leaves
    [.github] and everything below it as it was, and for any other value it
    does nothing and reports no error; in a run that returns [nil] the copies
    are the metaphor content, that of the CI step, [.argo] and the
    Dockerfile, in this order. *)
Theorem ci_content_by_git_provider
    (destinationMetaphorRepoGitURL gitopsRepoDir metaphorRepoName gitProvider
       k1Dir : string) (w : World) :
  let metaphorDir := k1Dir +:+ "/metaphor" in
  let step := copyCIContent gitProvider k1Dir metaphorDir in
  let run := AdjustMetaphorRepo destinationMetaphorRepoGitURL gitopsRepoDir
               metaphorRepoName gitProvider k1Dir in
  (trace step w).*1 =
    (if String.eqb gitProvider "github" then
       [OpCopy (k1Dir +:+ "/gitops/ci/.github") (metaphorDir +:+ "/.github") true]
     else if String.eqb gitProvider "gitlab" then
       [OpCopy (k1Dir +:+ "/gitops/ci/.gitlab-ci.yml")
          (metaphorDir +:+ "/.gitlab-ci.yml") true]
     else [])
  ∧ (gitProvider = "gitlab" →
     ∀ q, resolve (metaphorDir +:+ "/.github") `prefix_of` q →
          fs (step w).2 !! q = fs w !! q)
  ∧ (gitProvider ≠ "github" → gitProvider ≠ "gitlab" → step w = (None, w))
  ∧ ((run w).1 = None →
     filter (λ op, is_copy op = true) (trace run w).*1 =
       [OpCopy (gitopsRepoDir +:+ "/metaphor") metaphorDir true]
       ++ (trace step w).*1
       ++ [OpCopy (k1Dir +:+ "/gitops/ci/.argo") (metaphorDir +:+ "/.argo") true;
           OpCopy (metaphorDir +:+ "/Dockerfile")
             (metaphorDir +:+ "/build/Dockerfile") true]).
Proof.
  intros md step run.
  assert ((trace step w).*1 = ciCopies gitProvider k1Dir md) as Hstep.
  { unfold step, copyCIContent, ciCopies, cpCopy.
    destruct (String.eqb gitProvider "github");
      [|destruct (String.eqb gitProvider "gitlab")];
      by rewrite ?trace_fs_op, ?trace_ret. }
  split; [exact Hstep|]. split; [|split].
  - intros -> q Hq. unfold step, copyCIContent. simpl.
    apply keeps_Copy. rewrite resolve_metaphor_gitlab_ci.
    eapply below_incomparable; [|done].
    rewrite resolve_metaphor_github.
    by apply (incomparable_siblings _ ".github" ".gitlab-ci.yml" [] []).
  - intros H1%String.eqb_neq H2%String.eqb_neq. unfold step, copyCIContent.
    by rewrite H1, H2.
  - intros Hok. rewrite Hstep.
    destruct (AdjustMetaphorRepo_success destinationMetaphorRepoGitURL
                gitopsRepoDir metaphorRepoName gitProvider k1Dir w Hok)
      as (_ & _ & Hlog).
    apply trace_ops_of_log in Hlog; [|apply extends_AdjustMetaphorRepo].
    unfold run. rewrite Hlog. fold md.
    rewrite !filter_app, filter_is_copy_ciCopies. done.
Qed.

Lemma ci_content_witness :
  let run := AdjustMetaphorRepo "git@gitlab.com:acme/metaphor.git" "/k1/gitops"
               "metaphor" "gitlab" "/k1" in
  let step := copyCIContent "gitlab" "/k1" ("/k1" +:+ "/metaphor") in
  (run gitopsWorld).1 = None
  ∧ filter (λ op, is_copy op = true) (trace run gitopsWorld).*1 =
      [OpCopy ("/k1/gitops" +:+ "/metaphor") ("/k1" +:+ "/metaphor") true]
      ++ (trace step gitopsWorld).*1
      ++ [OpCopy ("/k1" +:+ "/gitops/ci/.argo")
            (("/k1" +:+ "/metaphor") +:+ "/.argo") true;
          OpCopy (("/k1" +:+ "/metaphor") +:+ "/Dockerfile")
            (("/k1" +:+ "/metaphor") +:+ "/build/Dockerfile") true].
Proof.
  intros run step.
  assert ((run gitopsWorld).1 = None) as Hok by (vm_compute; reflexivity).
  split; [exact Hok|].
  apply (proj2 (proj2 (proj2 (ci_content_by_git_provider
                                "git@gitlab.com:acme/metaphor.git" "/k1/gitops"
                                "metaphor" "gitlab" "/k1" gitopsWorld))) Hok).
Defined.

(** ** The substitution *)

Section contains_facts.

Implicit Types s t sub pre post : string.

Lemma contains_iff sub s :
  Strings.contains sub s ↔ ∃ pre post, s = pre +:+ sub +:+ post.
Proof.
  unfold Strings.contains, Strings.occurs_at. split.
  - intros (i & pre & post & -> & _). eauto.
  - intros (pre & post & ->). by exists (Strings.len pre), pre, post.
Qed.

Lemma contains_app_l sub s t : Strings.contains sub s → Strings.contains sub (s +:+ t).
Proof.
  rewrite !contains_iff. intros (pre & post & ->). exists pre, (post +:+ t).
  by rewrite !sapp_assoc.
Qed.

Lemma contains_app_r sub s t : Strings.contains sub t → Strings.contains sub (s +:+ t).
Proof.
  rewrite !contains_iff. intros (pre & post & ->). exists (s +:+ pre), post.
  by rewrite !sapp_assoc.
Qed.

(** Two ways of cutting one string. *)
Lemma sapp_eq_inv s1 s2 t1 t2 :
  s1 +:+ s2 = t1 +:+ t2 →
  (∃ x, t1 = s1 +:+ x ∧ s2 = x +:+ t2) ∨ (∃ x, s1 = t1 +:+ x ∧ t2 = x +:+ s2).
Proof.
  revert t1. induction s1 as [|a s1 IH]; intros t1 H.
  - left. exists t1. by rewrite !sapp_nil in *.
  - destruct t1 as [|b t1].
    + right. exists (String a s1). by rewrite !sapp_nil in *.
    + rewrite !sapp_cons in H. injection H as -> H.
      destruct (IH _ H) as [(x & -> & ->)|(x & -> & ->)];
        [left|right]; exists x; by rewrite !sapp_cons.
Qed.

(** An occurrence of a string that has no byte [c] lies on one side of a
    [c]. *)
Lemma contains_delim c sub s t :
  has_byte c sub = false →
  Strings.contains sub (s +:+ String c t) →
  Strings.contains sub s ∨ Strings.contains sub t.
Proof.
  intros Hc. rewrite !contains_iff. intros (pre & post & H).
  apply sapp_eq_inv in H as [(x & -> & H)|(x & -> & H)].
  - destruct x as [|a x].
    + rewrite sapp_nil in H. destruct sub as [|b sub].
      * left. exists s, "". by rewrite sapp_nil, sapp_nil_r.
      * rewrite sapp_cons in H. injection H as <- _. simpl in Hc.
        by rewrite Ascii.eqb_refl in Hc.
    + rewrite sapp_cons in H. injection H as _ ->. right. eauto.
  - symmetry in H. apply sapp_eq_inv in H as [(y & -> & H)|(y & -> & H)].
    + destruct y as [|a y].
      * left. exists pre, "". by rewrite !sapp_nil_r.
      * rewrite sapp_cons in H. injection H as -> _.
        rewrite has_byte_app in Hc. simpl in Hc.
        by rewrite Ascii.eqb_refl, orb_true_r in Hc.
    + left. by exists pre, y.
Qed.

Lemma join_split c s : join_with (String c "") (split_on c s) = s.
Proof.
  induction s as [|a s IH]; [done|]. simpl.
  destruct (Ascii.eqb a c) eqn:E.
  - apply Ascii.eqb_eq in E as ->.
    pose proof (split_on_nonempty c s) as Hne.
    destruct (split_on c s) as [|h t]; [done|]. simpl in *.
    rewrite sapp_nil. by rewrite <-IH.
  - pose proof (split_on_nonempty c s) as Hne.
    destruct (split_on c s) as [|h [|h' t]]; [done|..]; simpl in *.
    + by rewrite IH.
    + by rewrite <-IH, sapp_cons.
Qed.

Lemma contains_join_elem sep sub l line :
  line ∈ l → Strings.contains sub line → Strings.contains sub (join_with sep l).
Proof.
  intros Hin Hc. induction l as [|x l IH]; [by apply elem_of_nil in Hin|].
  apply elem_of_cons in Hin as [->|Hin].
  - destruct l as [|y l]; [done|].
    change (join_with sep (x :: y :: l))
      with (x +:+ sep +:+ join_with sep (y :: l)).
    by apply contains_app_l.
  - destruct l as [|y l]; [by apply elem_of_nil in Hin|].
    change (join_with sep (x :: y :: l))
      with (x +:+ sep +:+ join_with sep (y :: l)).
    by apply contains_app_r, contains_app_r, IH.
Qed.

Lemma contains_join_inv c sub l :
  has_byte c sub = false →
  Strings.contains sub (join_with (String c "") l) →
  sub = "" ∨ ∃ line, line ∈ l ∧ Strings.contains sub line.
Proof.
  intros Hc. induction l as [|x l IH].
  - simpl. rewrite contains_iff. intros (pre & post & H). left.
    destruct pre; [|done]. rewrite sapp_nil in H. by destruct sub.
  - destruct l as [|y l].
    + simpl. intros H. right. exists x. split; [apply list_elem_of_here|done].
    + change (join_with (String c "") (x :: y :: l))
        with (x +:+ String c (join_with (String c "") (y :: l))).
      intros H. apply contains_delim in H as [H|H]; [| |done].
      * right. exists x. split; [apply list_elem_of_here|done].
      * destruct (IH H) as [?|(line & Hin & Hl)]; [by left|right].
        exists line. split; [by apply list_elem_of_further|done].
Qed.

End contains_facts.

Section sed_facts.

Implicit Types pat repl line name content : string.

Lemma replace_first_prefix pat repl post :
  sed.replace_first pat repl (pat +:+ post) = Some (repl +:+ post).
Proof.
  assert (Strings.HasPrefix (pat +:+ post) pat = true) as Hp.
  { apply HasPrefix_spec. by exists post. }
  rewrite <-(drop_app_len pat post) at 2.
  destruct (pat +:+ post); simpl; by rewrite Hp.
Qed.

Lemma replace_first_Some pat repl line line' :
  sed.replace_first pat repl line = Some line' →
  ∃ pre post,
    line = pre +:+ pat +:+ post ∧ line' = pre +:+ repl +:+ post
    ∧ ∀ i, Strings.occurs_at i pat line → (Strings.len pre ≤ i)%nat.
Proof.
  assert (∀ l l', Strings.HasPrefix l pat = true →
            sed.replace_first pat repl l = Some l' →
            ∃ pre post,
              l = pre +:+ pat +:+ post ∧ l' = pre +:+ repl +:+ post
              ∧ ∀ i, Strings.occurs_at i pat l → (Strings.len pre ≤ i)%nat)
    as Hhere.
  { intros l l' [post Hpost]%HasPrefix_spec H.
    exists "", post. split; [done|].
    rewrite Hpost, replace_first_prefix in H. injection H as <-.
    split; [done|]. intros i _. simpl. lia. }
  revert line'. induction line as [|c line IH]; intros line' H.
  - destruct (Strings.HasPrefix "" pat) eqn:E; [by apply Hhere|].
    simpl in H. by rewrite E in H.
  - destruct (Strings.HasPrefix (String c line) pat) eqn:E; [by apply Hhere|].
    simpl in H. rewrite E in H.
    destruct (sed.replace_first pat repl line) as [l|]; [|done].
    injection H as <-. destruct (IH l eq_refl) as (pre & post & -> & -> & Hmin).
    exists (String c pre), post. split; [done|]. split; [done|].
    intros [|i] Hi.
    + apply occurs_at_0 in Hi. congruence.
    + apply occurs_at_S, Hmin in Hi. simpl. lia.
Qed.

Lemma replace_first_None pat repl line :
  sed.replace_first pat repl line = None → ¬ Strings.contains pat line.
Proof.
  rewrite contains_iff. intros Hnone (pre & post & ->).
  induction pre as [|c pre IH].
  - rewrite sapp_nil, replace_first_prefix in Hnone. done.
  - rewrite sapp_cons in Hnone. simpl in Hnone.
    destruct (Strings.HasPrefix _ pat); [done|].
    destruct (sed.replace_first pat repl (pre +:+ pat +:+ post)); [done|].
    by apply IH.
Qed.

Lemma expand_lits s matched : sed.expand (lits s) matched = s.
Proof. induction s as [|c s IH]; [done|]. simpl. by rewrite IH. Qed.

Lemma sed_plain_app s t : sed_plain (s +:+ t) = sed_plain s && sed_plain t.
Proof.
  induction s as [|c s IH]; [done|]. rewrite sapp_cons. simpl.
  by rewrite IH, andb_assoc.
Qed.

Lemma parse_replacement_lits s rest :
  sed_plain s = true →
  sed.parse_replacement (s +:+ String "/" rest) = Some (lits s, rest).
Proof.
  induction s as [|c s IH]; [done|]. rewrite sapp_cons. simpl.
  intros [Hc Hs]%andb_true_iff. apply negb_true_iff in Hc.
  apply orb_false_iff in Hc as [Hc Hnl]. apply orb_false_iff in Hc as [Hc Hbs].
  apply orb_false_iff in Hc as [Hsl Hamp].
  rewrite Hsl, Hnl, Hamp, Hbs, (IH Hs). done.
Qed.

(** The script that the code builds from a pattern of letters and a plain
    name: the pattern, and the name in double quotes taken literally. *)
Lemma parse_script_quoted pat name :
  pat ≠ "" →
  (∀ rest, sed.parse_pattern (pat +:+ String "/" rest) = Some (pat, rest)) →
  sed_plain name = true →
  sed.parse_script ("s/" +:+ pat +:+ "/" +:+ quote +:+ name +:+ quote +:+ "/")
  = Some (pat, lits (quote +:+ name +:+ quote)).
Proof.
  intros Hpat Hparse Hplain.
  change ("s/" +:+ pat +:+ "/" +:+ quote +:+ name +:+ quote +:+ "/")
    with (String "s" (String "/"
            (pat +:+ String "/" (quote +:+ name +:+ quote +:+ "/")))).
  unfold sed.parse_script. rewrite Hparse.
  replace (quote +:+ name +:+ quote +:+ "/")
    with ((quote +:+ name +:+ quote) +:+ String "/" "")
    by (by rewrite !sapp_assoc).
  cbv beta iota delta [mbind option_bind].
  rewrite parse_replacement_lits.
  2:{ rewrite !sed_plain_app, Hplain. done. }
  apply String.eqb_neq in Hpat. by rewrite Hpat.
Qed.

Lemma parse_gitopsPattern name :
  sed_plain name = true →
  sed.parse_script (gitopsPattern name)
  = Some ("GITOPS_REPO_NAME", lits (quote +:+ name +:+ quote)).
Proof.
  intros H. apply (parse_script_quoted "GITOPS_REPO_NAME" name); [done| |done].
  intros rest. vm_compute. reflexivity.
Qed.

Lemma parse_metaphorPattern name :
  sed_plain name = true →
  sed.parse_script (metaphorPattern name)
  = Some ("METAPHOR_REPO_NAME", lits (quote +:+ name +:+ quote)).
Proof.
  intros H. apply (parse_script_quoted "METAPHOR_REPO_NAME" name); [done| |done].
  intros rest. vm_compute. reflexivity.
Qed.

Lemma in_place_success (script file : string) (m : gmap path node)
    (pat : string) (repl : list sed.item) :
  sed.parse_script script = Some (pat, repl) →
  (sed.in_place script file m).1 = None →
  ∃ content,
    m !! resolve file = Some (File content)
    ∧ (sed.in_place script file m).2 !! resolve file
      = Some (File (sed.subst pat (sed.expand repl pat) content)).
Proof.
  intros Hparse. unfold sed.in_place. rewrite Hparse.
  destruct (m !! resolve file) as [[content|]|]; [|done..].
  intros _. exists content. split; [done|]. simpl. apply lookup_insert_eq.
Qed.

End sed_facts.

(** ** What the substitution makes of a file *)

Section detokenized_facts.

Implicit Types pat repl line name before after content : string.

Lemma len_0 s : Strings.len s = 0%nat → s = "".
Proof. by destruct s. Qed.

Lemma subst_line_first_replaced pat repl line :
  first_replaced pat repl line (sed.subst_line pat repl line).
Proof.
  unfold sed.subst_line.
  destruct (sed.replace_first pat repl line) as [l|] eqn:E; simpl.
  - right. by apply replace_first_Some.
  - left. split; [by eapply replace_first_None|done].
Qed.

Lemma subst_substituted pat repl content :
  substituted pat repl content (sed.subst pat repl content).
Proof.
  exists (sed.subst_line pat repl <$> split_on sed.newline content).
  split; [|done]. apply Forall2_fmap_r, Forall_Forall2_diag, Forall_forall.
  intros line _. apply subst_line_first_replaced.
Qed.

Lemma first_replaced_inserts pat repl line line' :
  first_replaced pat repl line line' →
  Strings.contains pat line → Strings.contains repl line'.
Proof.
  intros [[Hno _]|(pre & post & _ & -> & _)] Hc; [done|].
  apply contains_iff. eauto.
Qed.

Lemma quoted_app name post :
  quoted name +:+ post = String dquote (name +:+ String dquote post).
Proof. unfold quoted, quote. by rewrite !sapp_assoc. Qed.

Lemma first_replaced_clears pat name line line' :
  pat ≠ "" → has_byte dquote pat = false →
  at_most_once pat line → ¬ Strings.contains pat name →
  first_replaced pat (quoted name) line line' →
  ¬ Strings.contains pat line'.
Proof.
  intros Hne Hq Honce Hname [[Hno ->]|(pre & post & -> & -> & _)]; [done|].
  assert (Strings.occurs_at (Strings.len pre) pat (pre +:+ pat +:+ post))
    as Hhere by (by exists pre, post).
  rewrite quoted_app. intros Hc.
  apply contains_delim in Hc as [Hc|Hc]; [| |done].
  - apply contains_iff in Hc as (a & b & ->).
    assert (Strings.occurs_at (Strings.len a) pat
              ((a +:+ pat +:+ b) +:+ pat +:+ post)) as Hthere.
    { exists a, (b +:+ pat +:+ post). by rewrite !sapp_assoc. }
    pose proof (Honce _ _ Hhere Hthere) as Heq.
    rewrite !slen_app in Heq. apply Hne, len_0. lia.
  - apply contains_delim in Hc as [Hc|Hc]; [done| |done].
    apply contains_iff in Hc as (a & b & ->).
    assert (Strings.occurs_at (Strings.len (pre +:+ pat +:+ a)) pat
              (pre +:+ pat +:+ a +:+ pat +:+ b)) as Hthere.
    { exists (pre +:+ pat +:+ a), b. by rewrite !sapp_assoc. }
    pose proof (Honce _ _ Hhere Hthere) as Heq.
    rewrite !slen_app in Heq. apply Hne, len_0. lia.
Qed.

Lemma substituted_inserts pat repl before after :
  pat ≠ "" → has_byte sed.newline pat = false →
  substituted pat repl before after →
  Strings.contains pat before → Strings.contains repl after.
Proof.
  intros Hne Hnl (lines & Hall & ->) Hc.
  rewrite <-(join_split sed.newline before) in Hc.
  apply contains_join_inv in Hc as [?|(line & Hin & Hc)]; [done| |done].
  apply list_elem_of_lookup_1 in Hin as [i Hi].
  destruct (Forall2_lookup_l _ _ _ _ _ Hall Hi) as (line' & Hi' & Hrep).
  apply (contains_join_elem _ _ _ line'); [by eapply list_elem_of_lookup_2|].
  by eapply first_replaced_inserts.
Qed.

Lemma substituted_clears pat name before after :
  pat ≠ "" → has_byte sed.newline pat = false → has_byte dquote pat = false →
  substituted pat (quoted name) before after →
  once_per_line pat before → ¬ Strings.contains pat name →
  ¬ Strings.contains pat after.
Proof.
  intros Hne Hnl Hq (lines & Hall & ->) Honce Hname Hc.
  apply contains_join_inv in Hc as [?|(line' & Hin & Hc)]; [done| |done].
  apply list_elem_of_lookup_1 in Hin as [i Hi'].
  destruct (Forall2_lookup_r _ _ _ _ _ Hall Hi') as (line & Hi & Hrep).
  eapply first_replaced_clears; [done|done| |done|done|done].
  apply Honce. by eapply list_elem_of_lookup_2.
Qed.

Lemma detokenized_subst pat name content :
  pat ≠ "" → has_byte sed.newline pat = false → has_byte dquote pat = false →
  detokenized pat name content (sed.subst pat (quoted name) content).
Proof.
  intros Hne Hnl Hq. pose proof (subst_substituted pat (quoted name) content).
  split; [done|]. split.
  - by apply substituted_inserts.
  - by apply substituted_clears.
Qed.

Lemma in_place_detokenizes (script file : string) (m : gmap path node) pat name :
  sed.parse_script script = Some (pat, lits (quoted name)) →
  pat ≠ "" → has_byte sed.newline pat = false → has_byte dquote pat = false →
  (sed.in_place script file m).1 = None →
  ∃ before after,
    m !! resolve file = Some (File before)
    ∧ (sed.in_place script file m).2 !! resolve file = Some (File after)
    ∧ detokenized pat name before after.
Proof.
  intros Hparse Hne Hnl Hq Hok.
  destruct (in_place_success _ _ _ _ _ Hparse Hok) as (content & Hm & Hm').
  rewrite expand_lits in Hm'. exists content. eexists.
  split; [done|]. split; [done|]. by apply detokenized_subst.
Qed.

End detokenized_facts.

(** ** The two substitutions in their runs *)

Section git_keeps.

Implicit Types q : path.

Lemma keeps_git_op q op r f : keeps q (git_op op r f).
Proof.
  intros w. destruct (git_op_run op r f w) as (err & rs & Hrun & _).
  by rewrite Hrun.
Qed.

Lemma keeps_PlainInit q dir :
  ¬ comparable q (resolve dir) → keeps q (git.PlainInit dir).
Proof.
  intros Hq w. unfold git.PlainInit. cbv zeta.
  destruct (gitFault w (OpPlainInit dir)); [done|].
  destruct (repos w !! resolve dir); [done|].
  pose proof (within_child _ _ _ _ (MkdirAll_within (resolve dir ++ [".git"]) (fs w)))
    as Hmk.
  destruct (FS.MkdirAll _ _) as [[?|] m]; simpl in *; by apply Hmk.
Qed.

Lemma keeps_Commit q r msg : keeps q (gitClient.Commit r msg).
Proof. intros w. unfold gitClient.Commit. apply keeps_git_op. Qed.

Lemma keeps_SetRefToMainBranch q r : keeps q (gitClient.SetRefToMainBranch r).
Proof.
  intros w. unfold gitClient.SetRefToMainBranch.
  match goal with
  | |- context [git_op ?op ?r ?f ?w] =>
      pose proof (keeps_git_op q op r f w) as H;
      destruct (git_op op r f w) as [err w']
  end.
  done.
Qed.

Lemma Copy_file (src dest : string) (opt : cp.Options) (m : gmap path node)
    (c : string) :
  resolve src ≠ [] → m !! resolve src = Some (File c) →
  (cp.Copy src dest opt m).1 = None →
  (cp.Copy src dest opt m).2 !! resolve dest = Some (File c).
Proof.
  intros Hsrc Hm. unfold cp.Copy, FS.stat.
  rewrite decide_False by done. rewrite Hm.
  destruct (FS.dir_only src); [done|].
  generalize (S (cp.depth m)). intros fuel. simpl. unfold FS.stat.
  rewrite decide_False by done. rewrite Hm. unfold cp.fcopy, FS.stat.
  destruct (FS.MkdirAll _ m) as [[e|] m1]; [done|].
  destruct (decide (resolve dest = [])); [done|].
  destruct (m1 !! resolve dest) as [[?|]|]; simpl; intros ?; try done;
    apply lookup_insert_eq.
Qed.

End git_keeps.

Section replaces_facts.

Context (p : path) (placeholder name : string).

Hypothesis placeholder_nonempty : placeholder ≠ "".
Hypothesis placeholder_one_line : has_byte sed.newline placeholder = false.
Hypothesis placeholder_unquoted : has_byte dquote placeholder = false.

Lemma replaces_ret (r : option error) : replaces p placeholder name (mret r).
Proof.
  split; [apply extends_ret|]. intros w command args. rewrite trace_ret.
  by intros ?%elem_of_nil.
Qed.

Lemma replaces_bind {A} (c : M A) (f : A → M (option error)) :
  never is_Exec c → keeps p c →
  (∀ a, replaces p placeholder name (f a)) →
  replaces p placeholder name (c ≫= f).
Proof.
  intros [Hc1 Hc2] Hkeep Hf. split.
  - apply extends_bind; [done|]. intros a. apply Hf.
  - intros w command args. rewrite trace_bind; [|done|intros a; apply Hf].
    rewrite bind_run. intros [H|H]%elem_of_app; [by destruct (Hc2 w _ _ H)|].
    destruct (proj2 (Hf (c w).1) _ _ _ H) as (before & after & Hb & Ha & Hd).
    exists before, after. by rewrite <-Hkeep.
Qed.

Lemma replaces_on_error err handler k :
  replaces p placeholder name k →
  replaces p placeholder name (on_error err handler k).
Proof. intros Hk. destruct err; [apply replaces_ret|done]. Qed.

(** The step itself, with what follows it. *)
Lemma replaces_exec (script file : string) handler k :
  p = resolve file →
  sed.parse_script script = Some (placeholder, lits (quoted name)) →
  never is_Exec k → keeps p k →
  replaces p placeholder name
    ('(_, _, err) ← pkg.ExecShellReturnStrings "sed" ["-i"; script; file];
     on_error err handler k).
Proof.
  intros -> Hparse [Hk1 Hk2] Hkeep.
  assert (∀ a : string * string * option error,
            extends (let '(_, _, err) := a in on_error err handler k)) as Hext.
  { intros [[? ?] err]. by apply extends_on_error. }
  split.
  - apply extends_bind; [apply extends_exec|]. apply Hext.
  - intros w command args.
    rewrite trace_bind; [|apply extends_exec|apply Hext].
    rewrite bind_run, trace_exec_sed.
    pose proof (in_place_detokenizes script file (fs w) placeholder name Hparse
                  placeholder_nonempty placeholder_one_line
                  placeholder_unquoted) as Hsed.
    rewrite exec_sed_run. cbv zeta.
    destruct (sed.in_place script file (fs w)) as [[e|] m]; cbn [fst snd on_error].
    + rewrite trace_ret. by intros [=]%list_elem_of_singleton.
    + intros [H|H]%elem_of_cons; [|by destruct (Hk2 _ _ _ H)].
      destruct (Hsed eq_refl) as (before & after & Hb & Ha & Hd).
      exists before, after. split; [done|]. split; [|done].
      by rewrite Hkeep.
Qed.

End replaces_facts.

Ltac solve_keeps :=
  repeat first
    [ apply keeps_ret
    | apply keeps_on_error
    | apply keeps_bind
    | apply keeps_git_op
    | apply keeps_Commit
    | apply keeps_SetRefToMainBranch
    | match goal with
      | |- ∀ _, keeps _ _ => intros ?
      | |- keeps _ (git.CreateRemote _ _) => unfold git.CreateRemote
      | |- keeps _ (git.RemoveReference _ _) => unfold git.RemoveReference
      end ].

Section metaphor_replaces.

Lemma parse_pattern_metaphor rest :
  sed.parse_pattern ("METAPHOR_REPO_NAME" +:+ String "/" rest)
  = Some ("METAPHOR_REPO_NAME", rest).
Proof. vm_compute. reflexivity. Qed.

Lemma replaces_commitAndPublish r url root name :
  sed_plain name = true →
  replaces (resolve (reposTf root)) "METAPHOR_REPO_NAME" name
    (commitAndPublish r url root name).
Proof.
  intros Hplain. unfold commitAndPublish.
  apply replaces_bind; [solve_never|solve_keeps|]. intros err.
  apply replaces_on_error.
  apply replaces_bind; [solve_never|solve_keeps|]. intros [r' err'].
  apply replaces_on_error.
  apply replaces_bind; [solve_never|solve_keeps|]. intros err''.
  apply replaces_on_error.
  apply replaces_exec; [done..| | |solve_never|solve_keeps].
  - rewrite resolve_reposTf.
    by rewrite (resolve_under _ "terraform/github/repos.tf").
  - by apply parse_metaphorPattern.
Qed.

Lemma replaces_AdjustMetaphorRepo url root name gitProvider k1Dir :
  sed_plain name = true →
  ¬ comparable (resolve (reposTf root)) (resolve (k1Dir +:+ "/metaphor")) →
  replaces (resolve (reposTf root)) "METAPHOR_REPO_NAME" name
    (AdjustMetaphorRepo url root name gitProvider k1Dir).
Proof.
  intros Hplain Hout.
  assert (∀ x, ¬ comparable (resolve (reposTf root))
                 (resolve (k1Dir +:+ "/metaphor") ++ [x])) as Hout1.
  { intros x H. by apply Hout, (comparable_app_r _ _ x). }
  assert (∀ x y, ¬ comparable (resolve (reposTf root))
                   (resolve (k1Dir +:+ "/metaphor") ++ [x; y])) as Hout2.
  { intros x y H. apply (Hout1 x), (comparable_app_r _ _ y).
    by rewrite <-app_assoc. }
  assert (∀ q, ¬ comparable (resolve (reposTf root)) q →
            resolve (reposTf root) ≠ q) as Hne.
  { intros q H Heq. apply H. left. by rewrite Heq. }
  unfold AdjustMetaphorRepo. cbv zeta.
  apply replaces_bind; [solve_never|by apply keeps_Mkdir, Hne|]. intros _.
  apply replaces_bind; [solve_never|by apply keeps_PlainInit|].
  intros [r err]. apply replaces_on_error.
  apply replaces_bind; [solve_never|by apply keeps_Copy|].
  intros err1. apply replaces_on_error.
  apply replaces_bind; [solve_never| |].
  { unfold copyCIContent.
    destruct (String.eqb gitProvider "github");
      [|destruct (String.eqb gitProvider "gitlab")].
    - apply keeps_Copy. rewrite (resolve_under _ ".github"). apply Hout1.
    - apply keeps_Copy. rewrite (resolve_under _ ".gitlab-ci.yml"). apply Hout1.
    - apply keeps_ret. }
  intros err2. apply replaces_on_error.
  apply replaces_bind; [solve_never| |].
  { apply keeps_Copy. rewrite (resolve_under _ ".argo"). apply Hout1. }
  intros err3. apply replaces_on_error.
  apply replaces_bind; [solve_never| |].
  { apply keeps_Mkdir, Hne. rewrite (resolve_under _ "build"). apply Hout1. }
  intros _.
  apply replaces_bind; [solve_never| |].
  { apply keeps_Copy. rewrite (resolve_under _ "build/Dockerfile").
    apply Hout2. }
  intros err4. apply replaces_on_error.
  apply replaces_bind; [solve_never| |].
  { apply keeps_RemoveAll.
    rewrite resolve_reposTf, (resolve_under _ "ci"). path_solver. }
  intros _.
  apply replaces_bind; [solve_never| |].
  { apply keeps_RemoveAll.
    rewrite resolve_reposTf, (resolve_under _ "metaphor"). path_solver. }
  intros _.
  by apply replaces_commitAndPublish.
Qed.

End metaphor_replaces.

Section gitops_replaces.

Lemma detokenizeReposTf_success root name w before :
  sed_plain name = true →
  fs w !! resolve (reposTfTmpl root) = Some (File before) →
  (detokenizeReposTf root name w).1 = None →
  ∃ after,
    fs (detokenizeReposTf root name w).2 !! resolve (reposTf root)
      = Some (File after)
    ∧ detokenized "GITOPS_REPO_NAME" name before after.
Proof.
  intros Hplain Htmpl. unfold detokenizeReposTf, cpCopy.
  rewrite !bind_run, fs_op_run. cbn [fst snd].
  pose proof (Copy_file (reposTfTmpl root) (reposTf root) cp.default (fs w)
                before) as Hcopy.
  destruct (cp.Copy _ _ _ (fs w)) as [[e|] m]; cbn [fst snd on_error];
    [by intros [=]|].
  rewrite bind_run, exec_sed_run. cbv zeta. cbn [fs repos gitFault log].
  pose proof (in_place_detokenizes (gitopsPattern name) (reposTf root) m
                "GITOPS_REPO_NAME" name (parse_gitopsPattern name Hplain))
    as Hsed.
  destruct (sed.in_place _ _ m) as [[e|] m']; cbn [fst snd on_error fs];
    [by intros [=]|].
  intros _.
  destruct Hsed as (before' & after & Hb & Ha & Hd); [done..|].
  cbn [fst snd] in Hcopy.
  rewrite Hcopy in Hb; [|rewrite resolve_reposTfTmpl; by destruct (resolve root)|done..].
  injection Hb as <-. by exists after.
Qed.

Lemma AdjustGitopsRepo_promoted
    SupportedPlatforms LocalhostARCH cloudProvider clusterName clusterType
    gitopsRepoDir gitopsRepoName gitProvider k1Dir removeAtlantis w :
  (AdjustGitopsRepo SupportedPlatforms LocalhostARCH cloudProvider clusterName
     clusterType gitopsRepoDir gitopsRepoName gitProvider k1Dir removeAtlantis
     w).1 = None →
  (promoteContent SupportedPlatforms clusterName clusterType gitopsRepoDir
     gitProvider w).1 = None.
Proof.
  unfold AdjustGitopsRepo. rewrite bind_run.
  by destruct (promoteContent _ _ _ _ _ w).1.
Qed.

Lemma fatal_failure_returned (c : M (option error)) w op e :
  obeys c → (op, Some e) ∈ trace c w → fatal op = true → (c w).1 = Some e.
Proof.
  intros [_ H] Hin Hop. apply list_elem_of_split in Hin as (l1 & l2 & Hl).
  by destruct (aborts_on_fatal_failure _ _ _ _ _ _ (H w) Hl Hop).
Qed.

End gitops_replaces.

(** C5, amended: each of the two substitutions replaces, on every line of
    [terraform/github/repos.tf], the first occurrence of its placeholder by
    the repository name in double quotes, for a name without [/], [&],
    backslash and newline.  [AdjustGitopsRepo] that returns [nil] leaves the
    file as the template [repos.tf.tmpl] with [GITOPS_REPO_NAME] so replaced;
    [AdjustMetaphorRepo] in which the substitution succeeds leaves the file,
    when it is outside the metaphor directory, as it was with
    [METAPHOR_REPO_NAME] so replaced.  The quoted name is then in the file
    when the placeholder was, and no placeholder is left when no line had two
    and the name has none.  A substitution that fails makes
    [AdjustGitopsRepo] return its error, and [AdjustMetaphorRepo] return it
    under "error replacing gitops repo name in repos.tf". *)
Theorem substitution_replaces_first_on_each_line
    (SupportedPlatforms : list string) (LocalhostARCH : string)
    (cloudProvider clusterName clusterType gitopsRepoDir gitopsRepoName
       gitProvider k1Dir : string) (removeAtlantis : bool)
    (destinationMetaphorRepoGitURL metaphorRepoName : string)
    (w w' : World) :
  let file := resolve (reposTf gitopsRepoDir) in
  let template := resolve (reposTfTmpl gitopsRepoDir) in
  let gitops := AdjustGitopsRepo SupportedPlatforms LocalhostARCH cloudProvider
                  clusterName clusterType gitopsRepoDir gitopsRepoName
                  gitProvider k1Dir removeAtlantis in
  let metaphor := AdjustMetaphorRepo destinationMetaphorRepoGitURL
                    gitopsRepoDir metaphorRepoName gitProvider k1Dir in
  let pruned :=
    (pruneRegistry LocalhostARCH cloudProvider clusterName gitopsRepoDir
       removeAtlantis
       (promoteContent SupportedPlatforms clusterName clusterType
          gitopsRepoDir gitProvider w).2).2 in
  (sed_plain gitopsRepoName = true →
   (gitops w).1 = None →
   ∀ before, fs pruned !! template = Some (File before) →
     ∃ after,
       fs (gitops w).2 !! file = Some (File after)
       ∧ detokenized "GITOPS_REPO_NAME" gitopsRepoName before after)
  ∧ (sed_plain metaphorRepoName = true →
     ¬ comparable file (resolve (k1Dir +:+ "/metaphor")) →
     ∀ args, (OpExec "sed" args, None) ∈ trace metaphor w' →
       ∃ before after,
         fs w' !! file = Some (File before)
         ∧ fs (metaphor w').2 !! file = Some (File after)
         ∧ detokenized "METAPHOR_REPO_NAME" metaphorRepoName before after)
  ∧ (∀ args e, (OpExec "sed" args, Some e) ∈ trace gitops w →
       (gitops w).1 = Some e)
  ∧ (∀ args e, (OpExec "sed" args, Some e) ∈ trace metaphor w' →
       (metaphor w').1
       = Some ("error replacing gitops repo name in repos.tf: " +:+ e)).
Proof.
  intros file template gitops metaphor pruned. repeat split.
  - intros Hplain Hok before Htmpl. unfold gitops in *.
    pose proof (AdjustGitopsRepo_promoted _ _ _ _ _ _ _ _ _ _ _ Hok) as Hpromoted.
    rewrite (AdjustGitopsRepo_after_promote _ _ _ _ _ _ _ _ _ _ _ Hpromoted)
      in Hok |- *.
    by apply detokenizeReposTf_success.
  - intros Hplain Hout args.
    by apply (replaces_AdjustMetaphorRepo destinationMetaphorRepoGitURL
                gitopsRepoDir metaphorRepoName gitProvider k1Dir Hplain Hout).
  - intros args e Hin.
    by apply (fatal_failure_returned gitops w (OpExec "sed" args));
      [apply obeys_AdjustGitopsRepo|..].
  - intros args e.
    by apply (proj2 (reports_exec_AdjustMetaphorRepo
                       destinationMetaphorRepoGitURL gitopsRepoDir
                       metaphorRepoName gitProvider k1Dir)
                w' (OpExec "sed" args) e I).
Qed.

Lemma substitution_witness :
  let file := resolve (reposTf "/k1/gitops") in
  let gitops name :=
    AdjustGitopsRepo examplePlatforms "amd64" "k3d" "dev" "local" "/k1/gitops"
      name "github" "/k1" true in
  let metaphor name :=
    AdjustMetaphorRepo "git@github.com:acme/metaphor.git" "/k1/gitops" name
      "github" "/k1" in
  (∃ after,
     fs (gitops "gitops" templateWorld).2 !! file = Some (File after)
     ∧ detokenized "GITOPS_REPO_NAME" "gitops" templateReposTf after)
  ∧ (∃ before after,
       fs gitopsWorld !! file = Some (File before)
       ∧ fs (metaphor "metaphor" gitopsWorld).2 !! file = Some (File after)
       ∧ detokenized "METAPHOR_REPO_NAME" "metaphor" before after)
  ∧ (gitops "acme/gitops" templateWorld).1 = Some "sed: bad script"
  ∧ (metaphor "acme/metaphor" gitopsWorld).1
    = Some ("error replacing gitops repo name in repos.tf: "
            +:+ "sed: bad script").
Proof.
  intros file gitops metaphor.
  pose proof (substitution_replaces_first_on_each_line examplePlatforms
                "amd64" "k3d" "dev" "local" "/k1/gitops" "gitops" "github"
                "/k1" true "git@github.com:acme/metaphor.git" "metaphor"
                templateWorld gitopsWorld) as (Hgitops & Hmetaphor & _).
  pose proof (substitution_replaces_first_on_each_line examplePlatforms
                "amd64" "k3d" "dev" "local" "/k1/gitops" "acme/gitops" "github"
                "/k1" true "git@github.com:acme/metaphor.git" "acme/metaphor"
                templateWorld gitopsWorld) as (_ & _ & Hfails & Hfails').
  split; [|split; [|split]].
  - apply Hgitops; vm_compute; reflexivity.
  - apply (Hmetaphor eq_refl)
      with (args := ["-i"; metaphorPattern "metaphor";
                     "/k1/gitops" +:+ "/terraform/github/repos.tf"]).
    + intros [[k Hk]|[k Hk]]; vm_compute in Hk; discriminate.
    + apply (list_elem_of_lookup_2 _ 12). vm_compute. reflexivity.
  - apply (Hfails ["-i"; gitopsPattern "acme/gitops"; reposTf "/k1/gitops"]).
    apply (list_elem_of_lookup_2 _ 13). vm_compute. reflexivity.
  - apply (Hfails' ["-i"; metaphorPattern "acme/metaphor";
                    "/k1/gitops" +:+ "/terraform/github/repos.tf"]).
    apply (list_elem_of_lookup_2 _ 12). vm_compute. reflexivity.
Defined.

(** C5 as stated fails: on a line with the placeholder twice the
    substitution succeeds and leaves the second one. *)
Lemma repeated_placeholder_is_left :
  let file := resolve (reposTf "/k1/gitops") in
  let gitops :=
    AdjustGitopsRepo examplePlatforms "amd64" "k3d" "dev" "local" "/k1/gitops"
      "gitops" "github" "/k1" true in
  let after := "gitops = " +:+ quoted "gitops" +:+ " # was GITOPS_REPO_NAME" in
  (gitops repeatedWorld).1 = None
  ∧ (OpExec "sed" ["-i"; gitopsPattern "gitops"; reposTf "/k1/gitops"], None)
    ∈ trace gitops repeatedWorld
  ∧ fs (gitops repeatedWorld).2 !! file = Some (File after)
  ∧ Strings.contains "GITOPS_REPO_NAME" after.
Proof.
  intros file gitops after. split; [vm_compute; reflexivity|]. split; [|split].
  - apply (list_elem_of_lookup_2 _ 13). vm_compute. reflexivity.
  - vm_compute. reflexivity.
  - apply contains_iff. exists ("gitops = " +:+ quoted "gitops" +:+ " # was "), "".
    vm_compute. reflexivity.
Qed.

(** * Further properties *)

(** ** [GetConfig] *)

(** X1: every path of the config that [GetConfig] returns lies below its
    [K1Dir], which is [$HOME/.k1/configs/{configName}]: the gitops and the
    metaphor directories, the kubeconfig, the kubefirst file, the tools
    directory with the four clients in it, and the two mkcert
    directories. *)
Theorem GetConfig_paths_below_K1Dir (e : Environ)
    (configName clusterName gitopsRepoName metaphorRepoName gitProvider
       gitOwner gitProtocol : string) (config : K3dConfig) :
  GetConfig e configName clusterName gitopsRepoName metaphorRepoName
    gitProvider gitOwner gitProtocol = Returns config →
  laid_out (Getenv e "HOME") configName config.
Proof.
  unfold GetConfig, UserHomeDir. simpl.
  destruct (String.eqb (Getenv e "HOME") ""); [done|].
  intros [= <-]. unfold laid_out. simpl.
  by rewrite !sapp_assoc.
Qed.

Lemma GetConfig_paths_witness :
  ∃ config,
    GetConfig unixEnviron "k3d-dev" "dev" "gitops" "metaphor" "github" "acme"
      "ssh" = Returns config
    ∧ laid_out "/home/dev" "k3d-dev" config.
Proof.
  eexists. split; [reflexivity|].
  apply (GetConfig_paths_below_K1Dir unixEnviron "k3d-dev" "dev" "gitops"
           "metaphor" "github" "acme" "ssh").
  reflexivity.
Defined.

(** X2: [GetConfig] ends the process with status 1 exactly when [$HOME] is
    empty; otherwise it returns a config that carries the git provider, the
    git protocol and the two repository names as they were given. *)
Theorem GetConfig_exits_iff_no_home (e : Environ)
    (configName clusterName gitopsRepoName metaphorRepoName gitProvider
       gitOwner gitProtocol : string) :
  let result := GetConfig e configName clusterName gitopsRepoName
                  metaphorRepoName gitProvider gitOwner gitProtocol in
  (result = Exits 1 ↔ Getenv e "HOME" = "")
  ∧ ((∃ config,
        result = Returns config
        ∧ GitProvider config = gitProvider
        ∧ GitProtocol config = gitProtocol
        ∧ GitopsRepoName config = gitopsRepoName
        ∧ MetaphorRepoName config = metaphorRepoName)
     ↔ Getenv e "HOME" ≠ "").
Proof.
  unfold GetConfig, UserHomeDir. simpl.
  destruct (String.eqb (Getenv e "HOME") "") eqn:E.
  - apply String.eqb_eq in E. split; [done|].
    split; [by intros (config & [=] & _)|done].
  - apply String.eqb_neq in E. split; [done|].
    split; [done|]. intros _. eexists. by repeat split.
Qed.

(** X3: the result of [GetConfig] depends on the environment through
    [$HOME] alone, and not at all on the cluster name: in particular no
    token variable of the environment reaches the config. *)
Theorem GetConfig_reads_only_home (e e' : Environ)
    (configName clusterName clusterName' gitopsRepoName metaphorRepoName
       gitProvider gitOwner gitProtocol : string) :
  Getenv e "HOME" = Getenv e' "HOME" →
  GetConfig e configName clusterName gitopsRepoName metaphorRepoName
    gitProvider gitOwner gitProtocol
  = GetConfig e' configName clusterName' gitopsRepoName metaphorRepoName
      gitProvider gitOwner gitProtocol.
Proof. intros H. unfold GetConfig, UserHomeDir. simpl. by rewrite H. Qed.

Lemma GetConfig_reads_only_home_witness :
  GetConfig unixEnviron "k3d-dev" "dev" "gitops" "metaphor" "github" "acme"
    "ssh"
  = GetConfig tokenEnviron "k3d-dev" "prod" "gitops" "metaphor" "github"
      "acme" "ssh".
Proof.
  apply (GetConfig_reads_only_home unixEnviron tokenEnviron). reflexivity.
Defined.

(** X4: [GetConfig] never fills the two token fields nor the two HTTPS URL
    fields: the struct has no [env] tag and the function assigns none of
    them, so they are empty in every config it returns. *)
Theorem GetConfig_leaves_tokens_and_https_urls_empty (e : Environ)
    (configName clusterName gitopsRepoName metaphorRepoName gitProvider
       gitOwner gitProtocol : string) (config : K3dConfig) :
  GetConfig e configName clusterName gitopsRepoName metaphorRepoName
    gitProvider gitOwner gitProtocol = Returns config →
  GithubToken config = "" ∧ GitlabToken config = ""
  ∧ DestinationGitopsRepoHttpsURL config = ""
  ∧ DestinationMetaphorRepoHttpsURL config = "".
Proof.
  unfold GetConfig, UserHomeDir. simpl.
  destruct (String.eqb (Getenv e "HOME") ""); [done|].
  by intros [= <-].
Qed.

Lemma GetConfig_empty_fields_witness :
  ∃ config,
    GetConfig tokenEnviron "k3d-dev" "dev" "gitops" "metaphor" "github" "acme"
      "https" = Returns config
    ∧ GithubToken config = "" ∧ GitlabToken config = ""
    ∧ DestinationGitopsRepoHttpsURL config = ""
    ∧ DestinationMetaphorRepoHttpsURL config = "".
Proof.
  eexists. split; [reflexivity|].
  apply (GetConfig_leaves_tokens_and_https_urls_empty tokenEnviron "k3d-dev"
           "dev" "gitops" "metaphor" "github" "acme" "https").
  reflexivity.
Defined.

(** ** What the two functions leave alone *)

Section outside_facts.

Implicit Types p q : path.

Lemma comparable_app p q xs : comparable q (p ++ xs) → comparable q p.
Proof.
  induction xs as [|x xs IH] using rev_ind; [by rewrite app_nil_r|].
  rewrite app_assoc. intros H. by apply IH, (comparable_app_r _ _ x).
Qed.

Lemma outside_incomparable p q xs :
  ¬ comparable q p → ¬ comparable q (p ++ xs).
Proof. intros H Hc. by apply H, (comparable_app _ _ xs). Qed.

Lemma outside_not_below p q xs : ¬ comparable q p → ¬ (p ++ xs) `prefix_of` q.
Proof. intros H Hp. apply H. right. etrans; [|done]. by apply prefix_app_r. Qed.

Lemma outside_ne p q xs : ¬ comparable q p → q ≠ p ++ xs.
Proof. intros H ->. apply H. right. by apply prefix_app_r. Qed.

Lemma keeps_range {A} q (l : list A) body :
  (∀ x, keeps q (body x)) → keeps q (range l body).
Proof.
  intros Hb. induction l as [|x l IH]; simpl; [apply keeps_ret|].
  apply keeps_bind; [apply Hb|]. by intros _.
Qed.

Lemma keeps_repos_ret {A} (a : A) : keeps_repos (mret a).
Proof. by intros w. Qed.

Lemma keeps_repos_bind {A B} (c : M A) (f : A → M B) :
  keeps_repos c → (∀ a, keeps_repos (f a)) → keeps_repos (c ≫= f).
Proof. intros Hc Hf w. by rewrite bind_run, Hf, Hc. Qed.

Lemma keeps_repos_on_error err handler k :
  keeps_repos k → keeps_repos (on_error err handler k).
Proof. intros Hk. destruct err; [apply keeps_repos_ret|done]. Qed.

Lemma keeps_repos_fs_op op f : keeps_repos (fs_op op f).
Proof. intros w. by rewrite fs_op_run. Qed.

Lemma keeps_repos_exec command args :
  keeps_repos (pkg.ExecShellReturnStrings command args).
Proof. intros w. by rewrite exec_run. Qed.

Lemma keeps_repos_range {A} (l : list A) body :
  (∀ x, keeps_repos (body x)) → keeps_repos (range l body).
Proof.
  intros Hb. induction l as [|x l IH]; simpl; [apply keeps_repos_ret|].
  apply keeps_repos_bind; [apply Hb|]. by intros _.
Qed.

Lemma keeps_repo_ret {A} r (a : A) : keeps_repo r (mret a).
Proof. by intros w. Qed.

Lemma keeps_repo_bind {A B} r (c : M A) (f : A → M B) :
  keeps_repo r c → (∀ a, keeps_repo r (f a)) → keeps_repo r (c ≫= f).
Proof. intros Hc Hf w. by rewrite bind_run, Hf, Hc. Qed.

Lemma keeps_repo_on_error r err handler k :
  keeps_repo r k → keeps_repo r (on_error err handler k).
Proof. intros Hk. destruct err; [apply keeps_repo_ret|done]. Qed.

Lemma keeps_repos_repo {A} r (c : M A) : keeps_repos c → keeps_repo r c.
Proof. intros H w. by rewrite H. Qed.

Lemma keeps_repo_git_op r' op r f : r' ≠ r → keeps_repo r' (git_op op r f).
Proof.
  intros Hr w. unfold git_op. destruct (gitFault w op); [done|].
  destruct (repos w !! r); [|done]. destruct (f _); [done|].
  simpl. by rewrite lookup_insert_ne.
Qed.

Lemma keeps_repo_PlainInit r' dir :
  r' ≠ resolve dir → keeps_repo r' (git.PlainInit dir).
Proof.
  intros Hr w. unfold git.PlainInit. cbv zeta.
  destruct (gitFault w (OpPlainInit dir)); [done|].
  destruct (repos w !! resolve dir); [done|].
  destruct (FS.MkdirAll _ _) as [[?|] m]; [done|].
  simpl. by rewrite lookup_insert_ne.
Qed.

Lemma keeps_repo_Commit r' r msg : r' ≠ r → keeps_repo r' (gitClient.Commit r msg).
Proof. intros Hr w. unfold gitClient.Commit. by apply keeps_repo_git_op. Qed.

Lemma keeps_repo_SetRefToMainBranch r' r :
  r' ≠ r → keeps_repo r' (gitClient.SetRefToMainBranch r).
Proof.
  intros Hr w. unfold gitClient.SetRefToMainBranch.
  match goal with
  | |- context [git_op ?op ?r ?f ?w] =>
      pose proof (keeps_repo_git_op r' op r f Hr w) as H;
      destruct (git_op op r f w) as [err w']
  end.
  done.
Qed.

End outside_facts.

Ltac solve_keeps_repos :=
  repeat first
    [ apply keeps_repos_ret
    | apply keeps_repos_on_error
    | apply keeps_repos_bind
    | apply keeps_repos_fs_op
    | apply keeps_repos_exec
    | apply keeps_repos_range
    | match goal with
      | |- ∀ _, keeps_repos _ => intros ?
      | |- keeps_repos (cpCopy _ _ _) => unfold cpCopy
      | |- keeps_repos (os.RemoveAll _) => unfold os.RemoveAll
      | |- keeps_repos (os.Remove _) => unfold os.Remove
      | |- keeps_repos (os.Mkdir _) => unfold os.Mkdir
      | |- keeps_repos (match ?x with _ => _ end) => destruct x
      | |- keeps_repos (if ?x then _ else _) => destruct x
      end ].

Section gitops_frame.

Variable SupportedPlatforms : list string.
Variable LocalhostARCH : string.

Lemma keeps_repos_AdjustGitopsRepo
    cloudProvider clusterName clusterType root name gitProvider k1Dir
    removeAtlantis :
  keeps_repos (AdjustGitopsRepo SupportedPlatforms LocalhostARCH cloudProvider
                 clusterName clusterType root name gitProvider k1Dir
                 removeAtlantis).
Proof.
  unfold AdjustGitopsRepo, promoteContent, cleanUpPlatforms, pruneRegistry,
    detokenizeReposTf.
  solve_keeps_repos.
Qed.

Lemma keeps_AdjustGitopsRepo
    cloudProvider clusterName clusterType root name gitProvider k1Dir
    removeAtlantis q :
  ¬ comparable q (resolve root) →
  keeps q (AdjustGitopsRepo SupportedPlatforms LocalhostARCH cloudProvider
             clusterName clusterType root name gitProvider k1Dir
             removeAtlantis).
Proof.
  intros Hq. unfold AdjustGitopsRepo, promoteContent.
  apply keeps_bind.
  { apply keeps_bind.
    - apply keeps_range. intros platform. case_bool_decide; [|apply keeps_ret].
      apply keeps_bind; [|intros _; apply keeps_ret].
      apply keeps_RemoveAll. rewrite resolve_platform.
      by apply outside_not_below.
    - intros _. apply keeps_bind; [by apply keeps_Copy|]. intros err.
      apply keeps_on_error, keeps_bind.
      { apply keeps_RemoveAll. rewrite resolve_driverContent.
        by apply outside_not_below. }
      intros _. apply keeps_bind; [|intros err'; apply keeps_on_error, keeps_ret].
      apply keeps_Copy. rewrite resolve_registry.
      by apply outside_incomparable. }
  intros err. apply keeps_on_error, keeps_bind.
  - apply pruneRegistry_keeps.
    + rewrite resolve_cluster_types. by apply outside_not_below.
    + rewrite resolve_services. by apply outside_not_below.
    + destruct (_ && _); rewrite ?resolve_amd, ?resolve_arm;
        by apply outside_ne.
    + intros _. rewrite resolve_atlantis. by apply outside_ne.
  - intros _. apply detokenizeReposTf_keeps. rewrite resolve_reposTf.
    by apply outside_incomparable.
Qed.

End gitops_frame.

(** X5: [AdjustGitopsRepo] works in the gitops directory alone: whatever it
    returns, every path that is neither in the gitops directory nor an
    ancestor of it holds what it held before, and no git repository is
    changed. *)
Theorem AdjustGitopsRepo_changes_only_gitops_dir
    (SupportedPlatforms : list string) (LocalhostARCH : string)
    (cloudProvider clusterName clusterType gitopsRepoDir gitopsRepoName
       gitProvider k1Dir : string) (removeAtlantis : bool) (w : World) :
  let run := AdjustGitopsRepo SupportedPlatforms LocalhostARCH cloudProvider
               clusterName clusterType gitopsRepoDir gitopsRepoName gitProvider
               k1Dir removeAtlantis w in
  repos run.2 = repos w
  ∧ ∀ q, ¬ comparable q (resolve gitopsRepoDir) → fs run.2 !! q = fs w !! q.
Proof.
  intros run. split.
  - apply keeps_repos_AdjustGitopsRepo.
  - intros q Hq. by apply keeps_AdjustGitopsRepo.
Qed.

Lemma AdjustGitopsRepo_frame_witness :
  let run := AdjustGitopsRepo examplePlatforms "amd64" "k3d" "dev" "local"
               "/k1/gitops" "gitops" "github" "/k1" true sharedWorld in
  run.1 = None
  ∧ fs run.2 !! resolve "/k1/tools/k3d" = Some (File "k3d")
  ∧ fs run.2 !! resolve "/k1/kubeconfig" = Some (File "clusters: []").
Proof.
  intros run. split; [vm_compute; reflexivity|].
  pose proof (proj2 (AdjustGitopsRepo_changes_only_gitops_dir examplePlatforms
                       "amd64" "k3d" "dev" "local" "/k1/gitops" "gitops"
                       "github" "/k1" true sharedWorld)) as H.
  split.
  - etrans; [apply (H (resolve "/k1/tools/k3d"))|vm_compute; reflexivity].
    intros [[k Hk]|[k Hk]]; vm_compute in Hk; discriminate.
  - etrans; [apply (H (resolve "/k1/kubeconfig"))|vm_compute; reflexivity].
    intros [[k Hk]|[k Hk]]; vm_compute in Hk; discriminate.
Defined.

Section metaphor_frame.

Implicit Types q r : path.

Lemma keeps_repo_bind_result {A B} r (P : A → Prop) (c : M A) (f : A → M B) :
  keeps_repo r c → (∀ w, P (c w).1) → (∀ a, P a → keeps_repo r (f a)) →
  keeps_repo r (c ≫= f).
Proof. intros Hc HP Hf w. rewrite bind_run, Hf, Hc; [done|apply HP]. Qed.

Lemma keeps_commitAndPublish q r url root name :
  q ≠ resolve (reposTf root) → keeps q (commitAndPublish r url root name).
Proof.
  intros Hq. unfold commitAndPublish.
  apply keeps_bind; [solve_keeps|]. intros err. apply keeps_on_error.
  apply keeps_bind; [solve_keeps|]. intros [r' err']. apply keeps_on_error.
  apply keeps_bind; [solve_keeps|]. intros err''. apply keeps_on_error.
  apply keeps_bind.
  - apply keeps_exec_sed.
    rewrite (resolve_under _ "terraform/github/repos.tf").
    by rewrite resolve_reposTf in Hq.
  - intros [[? ?] err3]. apply keeps_on_error. solve_keeps.
Qed.

Lemma keeps_repo_commitAndPublish r' r url root name :
  r' ≠ r → keeps_repo r' (commitAndPublish r url root name).
Proof.
  intros Hr. unfold commitAndPublish.
  apply keeps_repo_bind; [by apply keeps_repo_Commit|].
  intros err. apply keeps_repo_on_error.
  apply (keeps_repo_bind_result _ (λ a, a.1 = r));
    [by apply keeps_repo_SetRefToMainBranch| |].
  { intros w. unfold gitClient.SetRefToMainBranch. by destruct (git_op _ _ _ w). }
  intros [r'' err'] Hr''. simpl in Hr''. subst r''. apply keeps_repo_on_error.
  apply keeps_repo_bind; [by apply keeps_repo_git_op|].
  intros err''. apply keeps_repo_on_error.
  apply keeps_repo_bind; [apply keeps_repos_repo, keeps_repos_exec|].
  intros [[? ?] err3]. apply keeps_repo_on_error.
  apply keeps_repo_bind; [by apply keeps_repo_git_op|].
  intros err4. apply keeps_repo_on_error, keeps_repo_ret.
Qed.

Lemma keeps_copyCIContent q gitProvider k1Dir md :
  ¬ comparable q (resolve md) → keeps q (copyCIContent gitProvider k1Dir md).
Proof.
  intros Hq. unfold copyCIContent.
  destruct (String.eqb gitProvider "github");
    [|destruct (String.eqb gitProvider "gitlab")].
  - apply keeps_Copy. rewrite (resolve_under _ ".github").
    by apply outside_incomparable.
  - apply keeps_Copy. rewrite (resolve_under _ ".gitlab-ci.yml").
    by apply outside_incomparable.
  - apply keeps_ret.
Qed.

Lemma keeps_AdjustMetaphorRepo q url root name gitProvider k1Dir :
  ¬ comparable q (resolve (k1Dir +:+ "/metaphor")) →
  ¬ resolve (root +:+ "/ci") `prefix_of` q →
  ¬ resolve (root +:+ "/metaphor") `prefix_of` q →
  q ≠ resolve (reposTf root) →
  keeps q (AdjustMetaphorRepo url root name gitProvider k1Dir).
Proof.
  intros Hmd Hci Hmt Htf.
  assert (∀ xs, ¬ comparable q (resolve (k1Dir +:+ "/metaphor") ++ xs)) as Hin.
  { intros xs. by apply outside_incomparable. }
  unfold AdjustMetaphorRepo. cbv zeta.
  apply keeps_bind.
  { apply keeps_Mkdir. rewrite <-(app_nil_r (resolve _)).
    by apply outside_ne. }
  intros _. apply keeps_bind; [by apply keeps_PlainInit|].
  intros [r err]. apply keeps_on_error.
  apply keeps_bind; [by apply keeps_Copy|]. intros err1. apply keeps_on_error.
  apply keeps_bind; [by apply keeps_copyCIContent|].
  intros err2. apply keeps_on_error.
  apply keeps_bind.
  { apply keeps_Copy. rewrite (resolve_under _ ".argo"). apply Hin. }
  intros err3. apply keeps_on_error.
  apply keeps_bind.
  { apply keeps_Mkdir. rewrite (resolve_under _ "build"). by apply outside_ne. }
  intros _. apply keeps_bind.
  { apply keeps_Copy. rewrite (resolve_under _ "build/Dockerfile"). apply Hin. }
  intros err4. apply keeps_on_error.
  apply keeps_bind; [by apply keeps_RemoveAll|]. intros _.
  apply keeps_bind; [by apply keeps_RemoveAll|]. intros _.
  by apply keeps_commitAndPublish.
Qed.

Lemma keeps_repo_AdjustMetaphorRepo r url root name gitProvider k1Dir :
  r ≠ resolve (k1Dir +:+ "/metaphor") →
  keeps_repo r (AdjustMetaphorRepo url root name gitProvider k1Dir).
Proof.
  intros Hr. unfold AdjustMetaphorRepo. cbv zeta.
  apply keeps_repo_bind; [apply keeps_repos_repo; solve_keeps_repos|].
  intros _.
  apply (keeps_repo_bind_result _ (λ a, a.1 = resolve (k1Dir +:+ "/metaphor")));
    [by apply keeps_repo_PlainInit|apply PlainInit_handle|].
  intros [r' err] Hr'. simpl in Hr'. subst r'. apply keeps_repo_on_error.
  apply keeps_repo_bind; [apply keeps_repos_repo; solve_keeps_repos|].
  intros err1. apply keeps_repo_on_error.
  apply keeps_repo_bind.
  { apply keeps_repos_repo. unfold copyCIContent. solve_keeps_repos. }
  intros err2. apply keeps_repo_on_error.
  apply keeps_repo_bind; [apply keeps_repos_repo; solve_keeps_repos|].
  intros err3. apply keeps_repo_on_error.
  apply keeps_repo_bind; [apply keeps_repos_repo; solve_keeps_repos|].
  intros _.
  apply keeps_repo_bind; [apply keeps_repos_repo; solve_keeps_repos|].
  intros err4. apply keeps_repo_on_error.
  apply keeps_repo_bind; [apply keeps_repos_repo; solve_keeps_repos|].
  intros _.
  apply keeps_repo_bind; [apply keeps_repos_repo; solve_keeps_repos|].
  intros _.
  by apply keeps_repo_commitAndPublish.
Qed.

End metaphor_frame.

(** X6: [AdjustMetaphorRepo] changes, whatever it returns, no repository
    other than the one at the metaphor directory, and no path other than
    those in the metaphor directory (and its ancestors), in [ci] and
    [metaphor] of the gitops directory, and [repos.tf]. *)
Theorem AdjustMetaphorRepo_changes_only_its_directories
    (destinationMetaphorRepoGitURL gitopsRepoDir metaphorRepoName gitProvider
       k1Dir : string) (w : World) :
  let metaphorDir := resolve (k1Dir +:+ "/metaphor") in
  let run := AdjustMetaphorRepo destinationMetaphorRepoGitURL gitopsRepoDir
               metaphorRepoName gitProvider k1Dir w in
  (∀ r, r ≠ metaphorDir → repos run.2 !! r = repos w !! r)
  ∧ (∀ q,
       ¬ comparable q metaphorDir →
       ¬ resolve (gitopsRepoDir +:+ "/ci") `prefix_of` q →
       ¬ resolve (gitopsRepoDir +:+ "/metaphor") `prefix_of` q →
       q ≠ resolve (reposTf gitopsRepoDir) →
       fs run.2 !! q = fs w !! q).
Proof.
  intros md run. split.
  - intros r Hr. by apply keeps_repo_AdjustMetaphorRepo.
  - intros q H1 H2 H3 H4. by apply keeps_AdjustMetaphorRepo.
Qed.

Lemma AdjustMetaphorRepo_frame_witness :
  let run := AdjustMetaphorRepo "git@github.com:acme/metaphor.git" "/k1/gitops"
               "metaphor" "github" "/k1" sharedGitopsWorld in
  run.1 = None
  ∧ repos run.2 !! resolve "/k1/other" = Some git.empty
  ∧ fs run.2 !! resolve "/k1/tools/k3d" = Some (File "k3d").
Proof.
  intros run. split; [vm_compute; reflexivity|].
  pose proof (AdjustMetaphorRepo_changes_only_its_directories
                "git@github.com:acme/metaphor.git" "/k1/gitops" "metaphor"
                "github" "/k1" sharedGitopsWorld) as [Hrepos Hfs].
  split.
  - etrans; [apply (Hrepos (resolve "/k1/other"))|vm_compute; reflexivity].
    vm_compute. discriminate.
  - etrans; [apply (Hfs (resolve "/k1/tools/k3d"))|vm_compute; reflexivity].
    + intros [[k Hk]|[k Hk]]; vm_compute in Hk; discriminate.
    + intros [k Hk]; vm_compute in Hk; discriminate.
    + intros [k Hk]; vm_compute in Hk; discriminate.
    + vm_compute. discriminate.
Defined.

(** ** After a successful [AdjustMetaphorRepo] *)

Section ensures_facts.

Implicit Types Q : gmap path node → Prop.

Lemma ensures_bind {A} (c : M A) (f : A → M (option error)) Q :
  (∀ a, ensures (f a) Q) → ensures (c ≫= f) Q.
Proof. intros Hf w. rewrite bind_run. apply Hf. Qed.

Lemma ensures_on_error err (wrap : error → error) k Q :
  ensures k Q → ensures (on_error err (λ e, Some (wrap e)) k) Q.
Proof. intros Hk. destruct err; [|done]. by intros w. Qed.

Lemma ensures_hoare (c : M (option error)) Q :
  hoare (λ _, True) c Q → ensures c Q.
Proof. intros H w _. by apply H. Qed.

Lemma hoare_same {A} (c : M A) Q : (∀ q, keeps q c) → hoare Q c Q.
Proof.
  intros Hc w HQ.
  by assert (fs (c w).2 = fs w) as -> by (apply map_eq; intros q; apply Hc).
Qed.

Lemma hoare_absent_commitAndPublish p r url root name :
  hoare (λ m, FS.absent m p) (commitAndPublish r url root name)
    (λ m, FS.absent m p).
Proof.
  unfold commitAndPublish.
  eapply hoare_bind; [apply hoare_same; intros q; solve_keeps|].
  intros err. apply hoare_on_error; [done|].
  eapply hoare_bind; [apply hoare_same; intros q; solve_keeps|].
  intros [r' err']. apply hoare_on_error; [done|].
  eapply hoare_bind; [apply hoare_same; intros q; solve_keeps|].
  intros err''. apply hoare_on_error; [done|].
  eapply hoare_bind; [apply hoare_absent_exec_sed|].
  intros [[? ?] err3]. apply hoare_on_error; [done|].
  eapply hoare_bind; [apply hoare_same; intros q; solve_keeps|].
  intros err4. apply hoare_on_error; [done|apply hoare_ret].
Qed.

End ensures_facts.

(** X7: after [AdjustMetaphorRepo] has returned [nil], nothing is left of
    the [ci] and the [metaphor] subtrees of the gitops directory. *)
Theorem AdjustMetaphorRepo_removes_its_sources
    (destinationMetaphorRepoGitURL gitopsRepoDir metaphorRepoName gitProvider
       k1Dir : string) (w : World) :
  let run := AdjustMetaphorRepo destinationMetaphorRepoGitURL gitopsRepoDir
               metaphorRepoName gitProvider k1Dir w in
  run.1 = None →
  FS.absent (fs run.2) (resolve (gitopsRepoDir +:+ "/ci"))
  ∧ FS.absent (fs run.2) (resolve (gitopsRepoDir +:+ "/metaphor")).
Proof.
  intros run. unfold run.
  apply (ensures_bind _ _
           (λ m, FS.absent m (resolve (gitopsRepoDir +:+ "/ci"))
                 ∧ FS.absent m (resolve (gitopsRepoDir +:+ "/metaphor")))).
  intros _. apply ensures_bind. intros [r err].
  apply (ensures_on_error _ id), ensures_bind. intros err1.
  apply (ensures_on_error _ id), ensures_bind. intros err2.
  apply (ensures_on_error _ id), ensures_bind. intros err3.
  apply (ensures_on_error _ id), ensures_bind. intros _.
  apply ensures_bind. intros err4.
  apply (ensures_on_error _ id), ensures_hoare.
  eapply (hoare_bind _ (λ m, FS.absent m (resolve (gitopsRepoDir +:+ "/ci")))).
  { apply hoare_fs_op. intros m _. apply RemoveAll_absent.
    - by apply sapp_nonempty.
    - by apply (entry_name_endsWithDot gitopsRepoDir "ci"). }
  intros _.
  eapply (hoare_bind _
            (λ m, FS.absent m (resolve (gitopsRepoDir +:+ "/ci"))
                  ∧ FS.absent m (resolve (gitopsRepoDir +:+ "/metaphor")))).
  { apply hoare_fs_op. intros m H. split.
    - by apply RemoveAll_keeps_absent.
    - apply RemoveAll_absent.
      + by apply sapp_nonempty.
      + by apply (entry_name_endsWithDot gitopsRepoDir "metaphor"). }
  intros _. apply hoare_and; apply hoare_absent_commitAndPublish.
Qed.

Lemma AdjustMetaphorRepo_sources_witness :
  let run := AdjustMetaphorRepo "git@github.com:acme/metaphor.git" "/k1/gitops"
               "metaphor" "github" "/k1" gitopsWorld in
  is_Some (fs gitopsWorld !! resolve "/k1/gitops/ci/.argo/ci.yaml")
  ∧ FS.absent (fs run.2) (resolve ("/k1/gitops" +:+ "/ci"))
  ∧ FS.absent (fs run.2) (resolve ("/k1/gitops" +:+ "/metaphor")).
Proof.
  intros run. split; [vm_compute; eauto|].
  apply (AdjustMetaphorRepo_removes_its_sources
           "git@github.com:acme/metaphor.git" "/k1/gitops" "metaphor" "github"
           "/k1" gitopsWorld).
  vm_compute. reflexivity.
Defined.

(** X8: where a repository already exists at the metaphor directory,
    [AdjustMetaphorRepo] returns [git.ErrRepositoryAlreadyExists] after
    [os.Mkdir] and [git.PlainInit] and does nothing else: no repository is
    changed and no path other than the metaphor directory itself.  So the
    function cannot be run a second time. *)
Theorem AdjustMetaphorRepo_refuses_existing_repository
    (destinationMetaphorRepoGitURL gitopsRepoDir metaphorRepoName gitProvider
       k1Dir : string) (w : World) :
  let metaphorDir := k1Dir +:+ "/metaphor" in
  let run := AdjustMetaphorRepo destinationMetaphorRepoGitURL gitopsRepoDir
               metaphorRepoName gitProvider k1Dir in
  is_Some (repos w !! resolve metaphorDir) →
  gitFault w (OpPlainInit metaphorDir) = None →
  (run w).1 = Some git.ErrRepositoryAlreadyExists
  ∧ (trace run w).*1 = [OpMkdir metaphorDir; OpPlainInit metaphorDir]
  ∧ repos (run w).2 = repos w
  ∧ ∀ q, q ≠ resolve metaphorDir → fs (run w).2 !! q = fs w !! q.
Proof.
  intros md run [repo Hrepo] Hfault.
  assert (∃ err m,
    run w = (Some git.ErrRepositoryAlreadyExists,
             {| fs := m; repos := repos w; gitFault := gitFault w;
                log := log w ++ [(OpMkdir md, err);
                                 (OpPlainInit md,
                                  Some git.ErrRepositoryAlreadyExists)] |})
    ∧ m = (FS.Mkdir md (fs w)).2) as (err & m & Hrun & Hm).
  { unfold run, AdjustMetaphorRepo. cbv zeta. fold md.
    rewrite bind_run. unfold os.Mkdir at 1 2. rewrite fs_op_run.
    cbn [fst snd]. rewrite bind_run. unfold git.PlainInit. cbv zeta.
    cbn [fs repos gitFault log]. rewrite Hfault, Hrepo. cbn [fst snd on_error].
    eexists _, _. split; [|reflexivity]. by rewrite <-app_assoc. }
  rewrite Hrun. cbn [fst snd fs repos]. split; [done|]. split; [|split; [done|]].
  - rewrite (trace_unique run w _ (f_equal (λ x, log x.2) Hrun)). done.
  - intros q Hq. subst m. by apply Mkdir_frame.
Qed.

Lemma AdjustMetaphorRepo_second_run_witness :
  let run := AdjustMetaphorRepo "git@github.com:acme/metaphor.git" "/k1/gitops"
               "metaphor" "github" "/k1" in
  (run gitopsWorld).1 = None
  ∧ (run (run gitopsWorld).2).1 = Some git.ErrRepositoryAlreadyExists.
Proof.
  intros run. split; [vm_compute; reflexivity|].
  apply (AdjustMetaphorRepo_refuses_existing_repository
           "git@github.com:acme/metaphor.git" "/k1/gitops" "metaphor" "github"
           "/k1" (run gitopsWorld).2).
  - vm_compute. eauto.
  - reflexivity.
Defined.

(** ** [AdjustGitopsRepo] without the selected variant *)

Section missing_variant.

Lemma resolve_letter c s :
  c ≠ "/"%char → c ≠ "."%char → ∃ h t, resolve (String c s) = String c h :: t.
Proof.
  intros Hslash Hdot. unfold resolve. simpl.
  apply Ascii.eqb_neq in Hslash. rewrite Hslash.
  pose proof (split_on_nonempty "/" s) as Hne.
  destruct (split_on "/" s) as [|h t]; [done|].
  rewrite filter_cons_True; [by eauto|]. split; [done|]. intros [= ? _]. done.
Qed.

(** The selected variant is an entry of the gitops directory whose name
    begins with the letter k. *)
Lemma resolve_driverContent_head root gitProvider :
  ∃ h t, resolve (driverContent root gitProvider)
         = resolve root ++ String "k" h :: t.
Proof.
  rewrite resolve_driverContent.
  destruct (resolve_letter "k" ("3d" +:+ "-" +:+ gitProvider +:+ "/"))
    as (h & t & H); [done..|].
  exists h, t. by rewrite <-H.
Qed.

Lemma resolve_driverContent_nonempty root gitProvider :
  resolve (driverContent root gitProvider) ≠ [].
Proof.
  destruct (resolve_driverContent_head root gitProvider) as (h & t & ->).
  by intros [_ ?]%app_eq_nil.
Qed.

End missing_variant.

(** X9: when the gitops directory has no [k3d-{gitProvider}] subtree,
    [AdjustGitopsRepo] returns "no such file or directory" from the first
    copy, and what it leaves is the tree with the other platforms already
    removed: the removals are not undone and nothing else is run. *)
Theorem AdjustGitopsRepo_without_selected_variant
    (SupportedPlatforms : list string) (LocalhostARCH : string)
    (cloudProvider clusterName clusterType gitopsRepoDir gitopsRepoName
       gitProvider k1Dir : string) (removeAtlantis : bool) (w : World) :
  let variant := driverContent gitopsRepoDir gitProvider in
  let cleaned :=
    (cleanUpPlatforms SupportedPlatforms gitopsRepoDir gitProvider w).2 in
  let run := AdjustGitopsRepo SupportedPlatforms LocalhostARCH cloudProvider
               clusterName clusterType gitopsRepoDir gitopsRepoName gitProvider
               k1Dir removeAtlantis w in
  fs w !! resolve variant = None →
  run.1 = Some FS.ENOENT
  ∧ fs run.2 = fs cleaned
  ∧ log run.2 = log cleaned ++ [(OpCopy variant gitopsRepoDir true, Some FS.ENOENT)].
Proof.
  intros variant cleaned run Hnone.
  assert (fs cleaned !! resolve variant = None) as Hcleaned.
  { by apply (hoare_None_cleanUp (resolve variant)). }
  assert (cp.Copy variant gitopsRepoDir (default cp.default (Some opt))
            (fs cleaned)
          = (Some FS.ENOENT, fs cleaned)) as Hcopy.
  { unfold cp.Copy, FS.stat.
    rewrite decide_False by apply resolve_driverContent_nonempty.
    by rewrite Hcleaned. }
  unfold run, AdjustGitopsRepo, promoteContent. rewrite !bind_run.
  fold cleaned variant. unfold cpCopy. rewrite !fs_op_run, !Hcopy.
  rewrite bool_decide_eq_true_2 by eauto. done.
Qed.

Lemma AdjustGitopsRepo_missing_variant_witness :
  let run := AdjustGitopsRepo examplePlatforms "amd64" "k3d" "dev" "local"
               "/k1/gitops" "gitops" "bitbucket" "/k1" true templateWorld in
  run.1 = Some FS.ENOENT
  ∧ fs run.2 !! resolve "/k1/gitops/k3d-github/terraform/github/repos.tf.tmpl"
    = None
  ∧ fs run.2 !! resolve "/k1/gitops/cluster-types/local/atlantis.yaml"
    = Some (File "atlantis").
Proof.
  intros run.
  pose proof (AdjustGitopsRepo_without_selected_variant examplePlatforms
                "amd64" "k3d" "dev" "local" "/k1/gitops" "gitops" "bitbucket"
                "/k1" true templateWorld) as H.
  destruct H as (Herr & Hfs & _); [vm_compute; reflexivity|].
  split; [exact Herr|]. unfold run. rewrite Hfs.
  split; vm_compute; reflexivity.
Defined.

(** ** [AdjustMetaphorRepo]: which failures end the run *)

Section discipline_facts.

Context (wrap : Op → error → error).

Lemma unchecked_nil : unchecked_failures [].
Proof. intros op e H. by apply elem_of_nil in H. Qed.

Lemma unchecked_app l1 l2 :
  unchecked_failures (l1 ++ l2) ↔ unchecked_failures l1 ∧ unchecked_failures l2.
Proof.
  unfold unchecked_failures. split.
  - intros H. split; intros op e Hin; apply (H op e), elem_of_app;
      [by left|by right].
  - intros [H1 H2] op e [Hin|Hin]%elem_of_app; eauto.
Qed.

Lemma unchecked_singleton op r :
  (checked op = false ∨ r = None) → unchecked_failures [(op, r)].
Proof.
  intros H op' e Hin. apply list_elem_of_singleton in Hin.
  injection Hin as -> <-. by destruct H.
Qed.

Lemma aborts_with_prepend r l0 l :
  unchecked_failures l0 → aborts_with wrap r l → aborts_with wrap r (l0 ++ l).
Proof.
  intros H0 [[-> Hc]|(l1 & op & e & -> & Hf & -> & Hc)].
  - left. split; [done|]. by apply unchecked_app.
  - right. exists (l0 ++ l1), op, e. rewrite app_assoc.
    split; [done|]. split; [done|]. split; [done|]. by apply unchecked_app.
Qed.

Lemma silent_ret {A} (a : A) : silent (mret a).
Proof.
  split; [apply extends_ret|]. intros w. rewrite trace_ret. apply unchecked_nil.
Qed.

Lemma silent_fs_op op f : checked op = false → silent (fs_op op f).
Proof.
  intros H. split; [apply extends_fs_op|]. intros w. rewrite trace_fs_op.
  apply unchecked_singleton. by left.
Qed.

Lemma disciplined_ret_nil : disciplined wrap (mret None).
Proof.
  split; [apply extends_ret|]. intros w. rewrite trace_ret. left.
  split; [done|apply unchecked_nil].
Qed.

Lemma disciplined_ext (c c' : M (option error)) :
  (∀ w, c w = c' w) → disciplined wrap c' → disciplined wrap c.
Proof.
  intros Heq [H1 H2]. split.
  - intros w. unfold trace. rewrite Heq. apply H1.
  - intros w. unfold trace. rewrite Heq. apply H2.
Qed.

Lemma disciplined_bind_silent {A} (c : M A) (f : A → M (option error)) :
  silent c → (∀ a, disciplined wrap (f a)) → disciplined wrap (c ≫= f).
Proof.
  intros [Hc1 Hc2] Hf. split.
  - apply extends_bind; [done|]. intros a. apply Hf.
  - intros w. rewrite trace_bind; [|done|intros a; apply Hf].
    rewrite bind_run. apply aborts_with_prepend; [done|]. apply Hf.
Qed.

(** A checked operation: its error ends the run, under the message of the
    handler. *)
Lemma disciplined_step {A} (c : M A) (get : A → option error) op
    (f : A → M (option error)) (handler : error → option error)
    (k : A → M (option error)) :
  (∀ w, log (c w).2 = log w ++ [(op, get (c w).1)]) →
  checked op = true →
  (∀ e, handler e = Some (wrap op e)) →
  (∀ a, f a = on_error (get a) handler (k a)) →
  (∀ a, get a = None → disciplined wrap (k a)) →
  disciplined wrap (c ≫= f).
Proof.
  intros Hlog Hop Hh Hf Hk.
  assert (extends c) as Hc.
  { apply extends_intro. intros w. eexists. apply Hlog. }
  assert (∀ a, extends (f a)) as Hext.
  { intros a. rewrite Hf. destruct (get a) eqn:E; [apply extends_ret|].
    by apply Hk. }
  split; [by apply extends_bind|].
  intros w. rewrite trace_bind, bind_run by done.
  rewrite (trace_unique c w _ (Hlog w)), Hf.
  destruct (get (c w).1) as [e|] eqn:E; simpl.
  - rewrite trace_ret, Hh. right. exists [], op, e.
    split; [done|]. split; [done|]. split; [done|apply unchecked_nil].
  - apply (aborts_with_prepend _ [_]); [|by apply Hk].
    apply unchecked_singleton. by right.
Qed.

Lemma disciplined_checked (c : M (option error)) op handler
    (k : option error → M (option error)) :
  (∀ w, log (c w).2 = log w ++ [(op, (c w).1)]) →
  checked op = true →
  (∀ e, handler e = Some (wrap op e)) →
  (∀ a, a = None → disciplined wrap (k a)) →
  disciplined wrap (err ← c; on_error err handler (k err)).
Proof.
  intros Hlog Hop Hh Hk.
  by apply (disciplined_step c id op _ handler k).
Qed.

Lemma disciplined_checked_pair {X} (c : M (X * option error)) op handler
    (k : X → M (option error)) :
  (∀ w, log (c w).2 = log w ++ [(op, (c w).1.2)]) →
  checked op = true →
  (∀ e, handler e = Some (wrap op e)) →
  (∀ x, disciplined wrap (k x)) →
  disciplined wrap ('(x, err) ← c; on_error err handler (k x)).
Proof.
  intros Hlog Hop Hh Hk.
  apply (disciplined_step c snd op _ handler (λ a, k a.1)); try done.
  by intros [x err].
Qed.

Lemma disciplined_checked_exec command args handler k :
  (∀ e, handler e = Some (wrap (OpExec command args) e)) →
  disciplined wrap k →
  disciplined wrap
    ('(_, _, err) ← pkg.ExecShellReturnStrings command args;
     on_error err handler k).
Proof.
  intros Hh Hk.
  apply (disciplined_step _ snd (OpExec command args) _ handler (λ _, k));
    try done.
  - intros w. by rewrite exec_run.
  - by intros [[? ?] err].
Qed.

Lemma aborts_with_failure r l l0 op e l1 :
  aborts_with wrap r l → l = l0 ++ (op, Some e) :: l1 → checked op = true →
  l1 = [] ∧ r = Some (wrap op e).
Proof.
  intros [[-> Hc]|(k & op' & e' & -> & Hf & -> & Hc)] Hl Hop.
  - rewrite (Hc op e) in Hop; [done|]. rewrite Hl.
    apply elem_of_app. right. apply list_elem_of_here.
  - destruct l1 as [|x l1 _] using rev_ind.
    + apply app_inj_tail in Hl as [_ [= -> ->]]. done.
    + rewrite app_comm_cons, app_assoc in Hl.
      apply app_inj_tail in Hl as [-> _].
      rewrite (Hc op e) in Hop; [done|].
      apply elem_of_app. right. apply list_elem_of_here.
Qed.

End discipline_facts.

Section metaphor_discipline.

Context (url : string).

Local Abbreviation disc := (disciplined (metaphorError url)).

Lemma log_git_op op r f w :
  log (git_op op r f w).2 = log w ++ [(op, (git_op op r f w).1)].
Proof.
  destruct (git_op_run op r f w) as (err & rs & Hrun & _). by rewrite Hrun.
Qed.

Lemma log_fs_op op f w :
  log (fs_op op f w).2 = log w ++ [(op, (fs_op op f w).1)].
Proof. by rewrite fs_op_run. Qed.

Lemma disciplined_copy src dest o k :
  disc k → disc (err ← cpCopy src dest o; on_error err Some k).
Proof.
  intros Hk. unfold cpCopy.
  by apply (disciplined_checked _ _ (OpCopy src dest (bool_decide (is_Some o)))
              Some (λ _, k)); [apply log_fs_op|..].
Qed.

Lemma disciplined_commitAndPublish r root name :
  disc (commitAndPublish r url root name).
Proof.
  unfold commitAndPublish.
  eapply disciplined_checked;
    [intros w; unfold gitClient.Commit; apply log_git_op|done..|].
  intros _ _.
  eapply disciplined_checked_pair.
  { intros w. unfold gitClient.SetRefToMainBranch.
    match goal with
    | |- context [git_op ?op ?r ?f ?w] =>
        pose proof (log_git_op op r f w) as H;
        destruct (git_op op r f w) as [err w']
    end.
    exact H. }
  { done. }
  { done. }
  intros r'.
  eapply disciplined_checked;
    [intros w; unfold git.RemoveReference; apply log_git_op|done..|].
  intros _ _.
  apply disciplined_checked_exec; [done|].
  eapply disciplined_checked;
    [intros w; unfold git.CreateRemote; apply log_git_op|done..|].
  intros a ->. apply disciplined_ret_nil.
Qed.

Lemma disciplined_AdjustMetaphorRepo root name gitProvider k1Dir :
  disc (AdjustMetaphorRepo url root name gitProvider k1Dir).
Proof.
  unfold AdjustMetaphorRepo. cbv zeta.
  apply disciplined_bind_silent; [by apply silent_fs_op|]. intros _.
  eapply disciplined_checked_pair.
  { intros w. rewrite (extends_PlainInit _ w). by rewrite trace_PlainInit. }
  { done. }
  { done. }
  intros r.
  apply disciplined_copy.
  assert (∀ k, disc k →
            disc (err ← copyCIContent gitProvider k1Dir (k1Dir +:+ "/metaphor");
                  on_error err Some k)) as Hci.
  { intros k Hk. unfold copyCIContent.
    destruct (String.eqb gitProvider "github");
      [|destruct (String.eqb gitProvider "gitlab")].
    - by apply disciplined_copy.
    - by apply disciplined_copy.
    - by apply (disciplined_ext _ _ k). }
  apply Hci. apply disciplined_copy.
  apply disciplined_bind_silent; [by apply silent_fs_op|]. intros _.
  apply disciplined_copy.
  apply disciplined_bind_silent; [by apply silent_fs_op|]. intros _.
  apply disciplined_bind_silent; [by apply silent_fs_op|]. intros _.
  apply disciplined_commitAndPublish.
Qed.

End metaphor_discipline.

(** X10: in [AdjustMetaphorRepo] the copies, the [sed] subprocess and the
    operations of the git client are checked: the first of them that fails
    is the last operation of the run, and the run returns its error, under
    a message of its own for the removal of the old reference, the
    substitution and the creation of the remote, and as it is for
    [git.PlainInit], the copies, the commit and the branch.  A run returns
    an error in no other way: the results of [os.Mkdir] and [os.RemoveAll]
    are dropped. *)
Theorem AdjustMetaphorRepo_failure_policy
    (destinationMetaphorRepoGitURL gitopsRepoDir metaphorRepoName gitProvider
       k1Dir : string) (w : World) :
  let run := AdjustMetaphorRepo destinationMetaphorRepoGitURL gitopsRepoDir
               metaphorRepoName gitProvider k1Dir in
  let wrap := metaphorError destinationMetaphorRepoGitURL in
  (∀ before op e after,
     trace run w = before ++ (op, Some e) :: after → checked op = true →
     after = [] ∧ (run w).1 = Some (wrap op e))
  ∧ ((run w).1 = None
     ∨ ∃ before op e,
         trace run w = before ++ [(op, Some e)] ∧ checked op = true
         ∧ (run w).1 = Some (wrap op e)).
Proof.
  intros run wrap.
  destruct (disciplined_AdjustMetaphorRepo destinationMetaphorRepoGitURL
              gitopsRepoDir metaphorRepoName gitProvider k1Dir) as [_ H].
  specialize (H w). fold run wrap in H. split.
  - intros before op e after Htr Hop. by eapply aborts_with_failure.
  - destruct H as [[-> _]|(l0 & op & e & Hl & Hf & Hr & _)]; [by left|right].
    by exists l0, op, e.
Qed.

Lemma AdjustMetaphorRepo_failure_policy_witness :
  let url := "git@github.com:acme/metaphor.git" in
  let run := AdjustMetaphorRepo url "/k1/gitops" "metaphor" "github" "/k1" in
  (run readOnlyConfigWorld).1
  = Some ("error problem creating Metaphore repo: URL=" +:+ url +:+ ": "
          +:+ "config is read-only")
  ∧ (run (run gitopsWorld).2).1 = Some git.ErrRepositoryAlreadyExists.
Proof.
  intros url run. split.
  - apply (proj1 (AdjustMetaphorRepo_failure_policy url "/k1/gitops" "metaphor"
                    "github" "/k1" readOnlyConfigWorld)
             (take 13 (trace run readOnlyConfigWorld))
             (OpCreateRemote (resolve "/k1/metaphor")
                {| Name := "origin"; URLs := [url] |})
             "config is read-only" []);
      [vm_compute; reflexivity|reflexivity].
  - apply (proj1 (AdjustMetaphorRepo_failure_policy url "/k1/gitops" "metaphor"
                    "github" "/k1" (run gitopsWorld).2)
             [(OpMkdir "/k1/metaphor", Some FS.EEXIST)]
             (OpPlainInit "/k1/metaphor")
             git.ErrRepositoryAlreadyExists []);
      [vm_compute; reflexivity|reflexivity].
Defined.

(** ** The recursive copy: what it writes *)

Section written_facts.

Implicit Types m : gmap path node.
Implicit Types p q d sp dp rel : path.

Lemma written_refl d m : written d m m.
Proof. intros q. by left. Qed.

Lemma written_trans d m1 m2 m3 :
  written d m1 m2 → written d m2 m3 → written d m1 m3.
Proof.
  intros H1 H2 q.
  destruct (H1 q) as [E1|[?|(N1 & D1 & P1)]]; [|by right; left|];
    destruct (H2 q) as [E2|[?|(N2 & D2 & P2)]]; try (by right; left).
  - left. congruence.
  - right. right. rewrite <-E1. done.
  - right. right. rewrite E2. done.
  - congruence.
Qed.

Lemma written_child d x m m' : written (d ++ [x]) m m' → written d m m'.
Proof.
  intros H q. destruct (H q) as [?|[Hp|(N & D & Hp)]]; [by left| |].
  - right. left. etrans; [|done]. by apply prefix_app_r.
  - destruct Hp as [k Hk]. destruct k as [|y k _] using rev_ind.
    + right. left. rewrite app_nil_r in Hk. subst q. by apply prefix_app_r.
    + right. right. rewrite app_assoc in Hk. apply app_inj_tail in Hk as [-> _].
      split; [done|]. split; [done|]. by exists k.
Qed.

Lemma written_within d m m' : written d m m' → within d m m'.
Proof.
  intros H q Hq. destruct (H q) as [?|[Hp|(_ & _ & Hp)]]; [done| |].
  - destruct Hq. by right.
  - destruct Hq. by left.
Qed.

(** What exists outside the destination is not changed. *)
Lemma written_present d m m' q :
  written d m m' → ¬ d `prefix_of` q → is_Some (m !! q) → m' !! q = m !! q.
Proof.
  intros H Hq [v Hv]. destruct (H q) as [?|[?|(N & _)]]; [done..|congruence].
Qed.

Lemma MkdirAll_written p m : written p m (FS.MkdirAll p m).2.
Proof.
  intros q. destruct (MkdirAll_lookup p m q) as [?|?]; [by left|by right; right].
Qed.

Lemma fcopy_written data d m : written d m (cp.fcopy data d m).2.
Proof.
  intros q. unfold cp.fcopy.
  pose proof (MkdirAll_lookup (FS.parent d) m q) as Hmk.
  destruct (FS.MkdirAll (FS.parent d) m) as [[e|] m1]; simpl in *.
  { destruct Hmk as [?|(N & D & Hp)]; [by left|]. right. right.
    split; [done|]. split; [done|]. etrans; [done|]. apply parent_prefix. }
  assert (m1 !! q = m !! q ∨ d `prefix_of` q
          ∨ m !! q = None ∧ m1 !! q = Some Dir ∧ q `prefix_of` d) as H1.
  { destruct Hmk as [?|(N & D & Hp)]; [by left|]. right. right.
    split; [done|]. split; [done|]. etrans; [done|]. apply parent_prefix. }
  destruct (FS.stat m1 d) as [[?|]|]; simpl; [|done|];
    (destruct (decide (q = d)) as [->|Hne]; [by right; left|];
     by rewrite lookup_insert_ne).
Qed.

Lemma switchboard_written fuel opt src sp dp m :
  written dp m (cp.switchboard fuel opt src sp dp m).2.
Proof.
  revert src sp dp m. induction fuel as [|fuel IH]; intros src sp dp m; simpl.
  { apply written_refl. }
  destruct (FS.stat m sp) as [[data|]|]; [apply fcopy_written| |apply written_refl].
  pose proof (MkdirAll_written dp m) as Hmk.
  destruct (FS.MkdirAll dp m) as [[e|] m1]; [done|]. simpl in Hmk.
  apply (for_each_inv (written dp m)); [done|].
  intros name m' _ Hm'.
  destruct (cp.OptSkip opt (Join src name)) as [[|] [e|]]; try done.
  eapply written_trans; [done|]. eapply written_child. apply IH.
Qed.

Lemma mkdirAll_go_dir base rest m m' :
  FS.stat m base = Some Dir → FS.mkdirAll_go base rest m = inr m' →
  FS.stat m' (base ++ rest) = Some Dir.
Proof.
  revert base m. induction rest as [|x rest IH]; intros base m Hb; simpl.
  - intros [= <-]. by rewrite app_nil_r.
  - assert (base ++ [x] ≠ []) as Hne by (by destruct base).
    replace (base ++ x :: rest) with ((base ++ [x]) ++ rest)
      by (by rewrite <-app_assoc).
    destruct (m !! (base ++ [x])) as [[data|]|] eqn:E; [done| |].
    + apply IH. unfold FS.stat. by rewrite decide_False.
    + apply IH. unfold FS.stat. rewrite decide_False by done.
      apply lookup_insert_eq.
Qed.

Lemma MkdirAll_dir p m :
  (FS.MkdirAll p m).1 = None → FS.stat (FS.MkdirAll p m).2 p = Some Dir.
Proof.
  unfold FS.MkdirAll. destruct (FS.mkdirAll_go [] p m) as [e|m'] eqn:E; [done|].
  intros _. simpl. by apply (mkdirAll_go_dir [] p m).
Qed.

Lemma depth_ge m k v : m !! k = Some v → (length k ≤ cp.depth m)%nat.
Proof.
  unfold cp.depth. revert k v.
  apply (map_fold_weak_ind
           (λ r m, ∀ k v, m !! k = Some v → (length k ≤ r)%nat)).
  - intros k v. by rewrite lookup_empty.
  - intros i x m' r Hi IH k v.
    destruct (decide (k = i)) as [->|Hne].
    + intros _. lia.
    + rewrite lookup_insert_ne by done. intros H%IH. lia.
Qed.

Lemma readDir_elem_of m p n :
  is_Some (m !! (p ++ [n])) → n ∈ FS.readDir m p.
Proof.
  intros [v Hv]. unfold FS.readDir.
  rewrite merge_sort_Permutation, list_elem_of_omap.
  exists (p ++ [n], v). split; [by apply elem_of_map_to_list|].
  by apply child_of_Some.
Qed.

Lemma stat_ext m m' q : m' !! q = m !! q → FS.stat m' q = FS.stat m q.
Proof. intros H. unfold FS.stat. by rewrite H. Qed.

Lemma tree_path_ext m m' sp rel v :
  (∀ q, sp `prefix_of` q → m' !! q = m !! q) →
  tree_path m sp rel v → tree_path m' sp rel v.
Proof.
  revert sp. induction rel as [|n rel IH]; intros sp Hm; simpl.
  - by rewrite (stat_ext m m') by (by apply Hm).
  - rewrite (stat_ext m m') by (by apply Hm).
    intros [? H]. split; [done|]. apply IH; [|done].
    intros q Hq. apply Hm. etrans; [|done]. by apply prefix_app_r.
Qed.

Lemma tree_path_lookup m sp rel v :
  tree_path m sp rel v → FS.stat m (sp ++ rel) = Some v.
Proof.
  revert sp. induction rel as [|n rel IH]; intros sp; simpl.
  - by rewrite app_nil_r.
  - intros [_ H]. apply IH in H. by rewrite <-app_assoc in H.
Qed.

Lemma tree_path_here m sp rel v :
  tree_path m sp rel v → is_Some (FS.stat m sp).
Proof. destruct rel; simpl; [eauto|]. intros [? _]. eauto. Qed.

Lemma tree_path_child m sp n rel v :
  tree_path m sp (n :: rel) v → is_Some (m !! (sp ++ [n])).
Proof.
  intros [_ H]. apply tree_path_here in H. unfold FS.stat in H.
  by rewrite decide_False in H by (by destruct sp).
Qed.

Lemma incomparable_app p d a b :
  ¬ comparable p d → ¬ comparable (p ++ a) (d ++ b).
Proof.
  intros H [Hc|Hc]; apply H.
  - apply (prefix_weak_total _ _ (d ++ b)); [|by apply prefix_app_r].
    etrans; [|done]. by apply prefix_app_r.
  - apply comparable_sym. 
    apply (prefix_weak_total _ _ (p ++ a)); [|by apply prefix_app_r].
    etrans; [|done]. by apply prefix_app_r.
Qed.

End written_facts.

Section copies_facts.

Implicit Types m : gmap path node.
Implicit Types p q d sp dp rel : path.

(** A loop that keeps [I], establishes [T] at the element [n] and does not
    lose it at the others, ends with [T] when it succeeds. *)
Lemma for_each_target {S : Type} (f : string → S → option error * S)
    (I T : S → Prop) (n : string) (l : list string) (s : S) :
  (∀ x s s', x ∈ l → I s → f x s = (None, s') →
     I s' ∧ (x = n → T s') ∧ (T s → T s')) →
  I s → (cp.for_each f l s).1 = None → n ∈ l ∨ T s → T (cp.for_each f l s).2.
Proof.
  revert s. induction l as [|x l IH]; intros s Hf Hs; simpl.
  - intros _ [Hin|?]; [by apply elem_of_nil in Hin|done].
  - destruct (f x s) as [[e|] s'] eqn:E; [done|].
    destruct (Hf x s s' (list_elem_of_here _ _) Hs E) as (HI & Hn & HT).
    intros Hok Hin. apply IH; [|done|done|].
    { intros y t t' Hy. apply Hf. by apply list_elem_of_further. }
    destruct Hin as [[->|Hin]%elem_of_cons|Ht]; [right; by apply Hn|by left|].
    right. by apply HT.
Qed.

Lemma switchboard_copies fuel opt src sp dp m rel v :
  (length rel < fuel)%nat →
  ¬ sp `prefix_of` dp →
  (∀ x, is_Some (m !! (sp ++ [x])) → ¬ comparable sp (dp ++ [x])) →
  tree_path m sp rel v → unskipped opt src rel →
  (cp.switchboard fuel opt src sp dp m).1 = None →
  FS.stat (cp.switchboard fuel opt src sp dp m).2 (dp ++ rel) = Some v.
Proof.
  revert opt src sp dp m rel.
  induction fuel as [|fuel IH]; intros opt src sp dp m rel Hfuel Hsd Hkids;
    [lia|].
  destruct rel as [|n rel]; simpl.
  - (* the entry itself *)
    intros Hv _. rewrite Hv, app_nil_r. destruct v as [data|].
    + unfold cp.fcopy.
      destruct (FS.MkdirAll (FS.parent dp) m) as [[e|] m1]; [done|].
      destruct (FS.stat m1 dp) as [[?|]|] eqn:E; simpl; intros ?; try done;
        unfold FS.stat in *; case_decide; try done; apply lookup_insert_eq.
    + pose proof (MkdirAll_dir dp m) as Hdir.
      destruct (FS.MkdirAll dp m) as [[e|] m1]; [done|]. simpl in Hdir.
      specialize (Hdir eq_refl). intros _.
      apply (for_each_inv (λ m', FS.stat m' dp = Some Dir)); [done|].
      intros name m' _ Hm'.
      destruct (cp.OptSkip opt (Join src name)) as [[|] [e|]]; try done.
      unfold FS.stat in *. case_decide; [done|].
      rewrite <-Hm'.
      apply (written_present (dp ++ [name])); [apply switchboard_written| |by rewrite Hm'].
      apply prefix_snoc_not.
  - (* an entry below *)
    intros [Hsp Hpath] [Hskip Hun].
    assert (is_Some (m !! (sp ++ [n]))) as Hn.
    { destruct rel; simpl in Hpath; [|destruct Hpath as [Hpath _]];
        unfold FS.stat in Hpath; rewrite decide_False in Hpath
          by (by destruct sp); eauto. }
    rewrite Hsp.
    pose proof (MkdirAll_lookup dp m) as Hmk.
    destruct (FS.MkdirAll dp m) as [[e|] m1]; [done|]. simpl in Hmk.
    assert (∀ q, sp `prefix_of` q → m1 !! q = m !! q) as Hsrc1.
    { intros q Hq. destruct (Hmk q) as [?|(_ & _ & Hp)]; [done|].
      destruct Hsd. by etrans. }
    intros Hok.
    assert (dp ++ n :: rel ≠ []) as Hne by (by destruct dp).
    unfold FS.stat at 1. rewrite decide_False by done.
    apply (for_each_target _
             (λ m', ∀ q, sp `prefix_of` q → m' !! q = m !! q)
             (λ m', m' !! (dp ++ n :: rel) = Some v) n);
      [|done|done|].
    2:{ left. apply readDir_elem_of. rewrite Hsrc1; [done|].
        by apply prefix_app_r. }
    intros x m' m'' Hx Hm' Hstep.
    assert (¬ comparable sp (dp ++ [x])) as Hx'.
    { apply Hkids. apply readDir_elem in Hx. rewrite <-Hsrc1; [done|].
      by apply prefix_app_r. }
    destruct (cp.OptSkip opt (Join src x)) as [[|] [e|]] eqn:Eskip;
      try discriminate.
    { injection Hstep as <-. split; [done|]. split; [|done].
      intros ->. congruence. }
    pose proof (switchboard_written fuel opt (Join src x) (sp ++ [x])
                  (dp ++ [x]) m') as Hw.
    assert (x = n → m'' !! (dp ++ n :: rel) = Some v) as Hat.
    { intros ->.
      pose proof (IH opt (Join src n) (sp ++ [n]) (dp ++ [n]) m' rel) as Hrec.
      rewrite Hstep in Hrec. simpl in Hrec.
      unfold FS.stat in Hrec. rewrite <-app_assoc in Hrec. simpl in Hrec.
      rewrite decide_False in Hrec by done.
      apply Hrec; [simpl in Hfuel; lia| | | |done|done].
      - intros Hp. apply Hx'. left. etrans; [|done]. by apply prefix_app_r.
      - intros y _. by apply (incomparable_app sp (dp ++ [n]) [n] [y]).
      - apply (tree_path_ext m); [|done].
        intros q Hq. apply Hm'. etrans; [|done]. by apply prefix_app_r. }
    split; [|split; [done|]].
    + intros q Hq. rewrite <-Hm' by done.
      replace m'' with (cp.switchboard fuel opt (Join src x) (sp ++ [x])
                          (dp ++ [x]) m').2 by (by rewrite Hstep).
      apply written_within in Hw. apply Hw.
      by eapply below_incomparable.
    + intros HT. destruct (decide (x = n)) as [Heq|Hxn]; [by apply Hat|].
      replace m'' with (cp.switchboard fuel opt (Join src x) (sp ++ [x])
                          (dp ++ [x]) m').2 by (by rewrite Hstep).
      rewrite <-HT. apply (written_present (dp ++ [x])); [done| |by rewrite HT].
      intros Hp. apply prefix_app_inv, prefix_cons_inv_1 in Hp. congruence.
Qed.

End copies_facts.

Section copy_top.

Implicit Types m : gmap path node.
Implicit Types p q d sp dp rel : path.

(** What [cp.Copy] makes of an entry of the source that the filter lets
    through, when the destination does not lie in the source and no entry
    of the source is copied over the source. *)
Lemma Copy_copies (src dest : string) (opt : cp.Options) m rel (v : node) :
  ¬ resolve src `prefix_of` resolve dest →
  (∀ x, is_Some (m !! (resolve src ++ [x])) →
        ¬ comparable (resolve src) (resolve dest ++ [x])) →
  tree_path m (resolve src) rel v → unskipped opt src rel →
  (cp.Copy src dest opt m).1 = None →
  FS.stat (cp.Copy src dest opt m).2 (resolve dest ++ rel) = Some v.
Proof.
  intros Hsd Hkids Hpath Hun.
  assert (length rel < S (S (cp.depth m)))%nat as Hfuel.
  { pose proof (tree_path_lookup _ _ _ _ Hpath) as Hl. unfold FS.stat in Hl.
    case_decide as Hnil.
    - apply app_eq_nil in Hnil as [_ ->]. simpl. lia.
    - apply depth_ge in Hl. rewrite length_app in Hl. lia. }
  assert (is_Some (FS.stat m (resolve src))) as [v0 Hv0].
  { destruct rel; simpl in Hpath; [eauto|]. destruct Hpath. eauto. }
  unfold cp.Copy. rewrite Hv0.
  destruct v0 as [data|]; [destruct (FS.dir_only src); [done|]|];
    by apply switchboard_copies.
Qed.

(** An entry that the filter refuses is not copied: what the destination
    has under its name stays as it is. *)
Lemma Copy_skips (src dest : string) (opt : cp.Options) m (x : string) q :
  cp.OptSkip opt (Join src x) ≠ (false, None) →
  (resolve dest ++ [x]) `prefix_of` q →
  (cp.Copy src dest opt m).2 !! q = m !! q.
Proof.
  intros Hskip Hq.
  assert (¬ q `prefix_of` resolve dest) as Hqd.
  { intros H. eapply prefix_snoc_not. by etrans. }
  assert (∀ fuel,
    (cp.switchboard (S fuel) opt src (resolve src) (resolve dest) m).2 !! q
    = m !! q) as Hsw.
  { intros fuel. simpl.
    destruct (FS.stat m (resolve src)) as [[data|]|]; [|  |done].
    { by apply fcopy_lookup. }
    assert ((FS.MkdirAll (resolve dest) m).2 !! q = m !! q) as Hmk.
    { by destruct (MkdirAll_lookup (resolve dest) m q) as [?|(_&_&?)]. }
    destruct (FS.MkdirAll (resolve dest) m) as [[e|] m1]; [done|].
    simpl in Hmk. rewrite <-Hmk.
    apply (for_each_inv (λ m', m' !! q = m1 !! q)); [done|].
    intros name m' _ Hm'.
    destruct (cp.OptSkip opt (Join src name)) as [[|] [e|]] eqn:E; try done.
    rewrite <-Hm'. apply switchboard_within.
    assert (name ≠ x) as Hne by (intros ->; congruence).
    eapply (below_incomparable (resolve dest ++ [x])); [|done].
    by apply (incomparable_siblings (resolve dest) x name [] []). }
  unfold cp.Copy. destruct (FS.stat m (resolve src)) as [[data|]|];
    [|apply Hsw|done].
  destruct (FS.dir_only src); [done|apply Hsw].
Qed.

Lemma join_with_snoc sep (l : list string) x :
  ∃ pre, join_with sep (l ++ [x]) = pre +:+ x.
Proof.
  induction l as [|y l [pre IH]]; [by exists ""|].
  destruct l as [|z l].
  - exists (y +:+ sep). simpl. by rewrite sapp_assoc.
  - exists (y +:+ sep +:+ pre).
    change (join_with sep ((y :: z :: l) ++ [x]))
      with (y +:+ sep +:+ join_with sep ((z :: l) ++ [x])).
    by rewrite IH, !sapp_assoc.
Qed.

(** [filepath.Join] ends in the name that it joins. *)
Lemma Join_ends_with src x : entry_name x → Strings.ends_with x (Join src x).
Proof.
  intros Hx. pose proof Hx as (Hne & _ & _).
  assert (∀ s, resolve s ≠ [] → (∃ l, resolve s = l ++ [x]) →
            Strings.ends_with x (Clean s)) as Hclean.
  { intros s Hs [l Hl]. unfold Clean. rewrite Hl.
    destruct (join_with_snoc "/" l x) as [pre Hpre]. rewrite Hpre.
    destruct (rooted s).
    - exists ("/" +:+ pre). by rewrite sapp_assoc.
    - destruct (String.eqb (pre +:+ x) "") eqn:E; [|by exists pre].
      apply String.eqb_eq in E. by apply sapp_nonempty in E. }
  unfold Join. apply String.eqb_neq in Hne as Hne'. rewrite Hne'.
  destruct (String.eqb src "").
  - apply Hclean; rewrite (entry_name_resolve x) by done; [done|by exists []].
  - change (src +:+ "/" +:+ x) with (src +:+ String "/" x).
    apply Hclean; rewrite resolve_app_slash, (entry_name_resolve x) by done.
    + by destruct (resolve src).
    + by exists (resolve src).
Qed.

(** Both functions' filter refuses an entry named [.git], wherever it
    is. *)
Lemma Skip_git src : Skip (Join src ".git") = (true, None).
Proof.
  apply Skip_true_iff. left. apply HasSuffix_spec.
  by apply Join_ends_with.
Qed.

End copy_top.

(** ** The [.git] directories *)

Section git_dir.

Implicit Types p q : path.

Lemma sibling_not_below p (x y : string) k q :
  x ≠ y → (p ++ [y]) `prefix_of` q → ¬ (p ++ x :: k) `prefix_of` q.
Proof.
  intros Hxy Hy Hx.
  apply (incomparable_siblings p x y k []); [done|].
  by apply (prefix_weak_total _ _ q).
Qed.

Lemma sibling_incomparable p (x y : string) k q :
  x ≠ y → (p ++ [y]) `prefix_of` q → ¬ comparable q (p ++ x :: k).
Proof.
  intros Hxy Hy. eapply below_incomparable; [|done].
  apply (incomparable_siblings p y x [] k). congruence.
Qed.

Lemma sibling_ne p (x y : string) k q :
  x ≠ y → (p ++ [y]) `prefix_of` q → q ≠ p ++ x :: k.
Proof.
  intros Hxy Hy ->. by apply (sibling_not_below p x y k (p ++ x :: k)).
Qed.

Lemma keeps_Copy_skipped q src dest (x : string) :
  Skip (Join src x) = (true, None) →
  (resolve dest ++ [x]) `prefix_of` q →
  keeps q (cpCopy src dest (Some opt)).
Proof.
  intros Hskip Hq. apply keeps_fs_op. intros m.
  apply (Copy_skips src dest opt m x); [|done].
  simpl. by rewrite Hskip.
Qed.


End git_dir.

(** X11: [AdjustGitopsRepo] never changes the [.git] directory of the
    gitops directory nor anything in it, whatever it returns, when the
    supported platforms are [{cloud}-{git}] directory names: no removal
    reaches it, and the filter keeps a [.git] entry of the variant from
    being copied over it. *)
Theorem AdjustGitopsRepo_leaves_git_directory
    (SupportedPlatforms : list string) (LocalhostARCH : string)
    (cloudProvider clusterName clusterType gitopsRepoDir gitopsRepoName
       gitProvider k1Dir : string) (removeAtlantis : bool) (w : World) :
  (∀ platform, platform ∈ SupportedPlatforms → pair_name platform) →
  let run := AdjustGitopsRepo SupportedPlatforms LocalhostARCH cloudProvider
               clusterName clusterType gitopsRepoDir gitopsRepoName gitProvider
               k1Dir removeAtlantis w in
  ∀ q, (resolve gitopsRepoDir ++ [".git"]) `prefix_of` q →
       fs run.2 !! q = fs w !! q.
Proof.
  intros Hpairs run q Hq. unfold run. clear run.
  destruct (resolve_driverContent_head gitopsRepoDir gitProvider)
    as (h & t & Hdriver).
  revert w. change (keeps q (AdjustGitopsRepo SupportedPlatforms LocalhostARCH
    cloudProvider clusterName clusterType gitopsRepoDir gitopsRepoName
    gitProvider k1Dir removeAtlantis)).
  unfold AdjustGitopsRepo, promoteContent.
  apply keeps_bind.
  { apply keeps_bind.
    - unfold cleanUpPlatforms.
      assert (∀ l, (∀ p, p ∈ l → pair_name p) →
                keeps q (range l (λ platform,
                  if bool_decide (platform ≠ CloudProvider +:+ "-" +:+ gitProvider)
                  then _ ← os.RemoveAll (gitopsRepoDir +:+ "/" +:+ platform);
                       mret ()
                  else mret ()))) as Hloop.
      { intros l Hl. induction l as [|p l IH]; simpl; [apply keeps_ret|].
        apply keeps_bind.
        - case_bool_decide; [|apply keeps_ret].
          apply keeps_bind; [|intros _; apply keeps_ret].
          apply keeps_RemoveAll.
          rewrite resolve_platform, (entry_name_resolve p)
            by apply Hl, list_elem_of_here.
          apply (sibling_not_below _ _ ".git"); [|done].
          apply pair_name_not_literal; [|done]. apply Hl, list_elem_of_here.
        - intros _. apply IH. intros p' Hp'. by apply Hl, list_elem_of_further. }
      by apply Hloop.
    - intros _. apply keeps_bind.
      { by apply (keeps_Copy_skipped _ _ _ ".git"); [apply Skip_git|]. }
      intros err. apply keeps_on_error, keeps_bind.
      { apply keeps_RemoveAll. rewrite Hdriver. by apply (sibling_not_below _ _ ".git"). }
      intros _. apply keeps_bind; [|intros err'; apply keeps_on_error, keeps_ret].
      apply keeps_Copy. rewrite resolve_registry. by apply (sibling_incomparable _ _ ".git"). }
  intros err. apply keeps_on_error, keeps_bind.
  - apply pruneRegistry_keeps.
    + rewrite resolve_cluster_types. by apply (sibling_not_below _ _ ".git").
    + rewrite resolve_services. by apply (sibling_not_below _ _ ".git").
    + destruct (_ && _); rewrite ?resolve_amd, ?resolve_arm;
        by apply (sibling_ne _ _ ".git").
    + intros _. rewrite resolve_atlantis. by apply (sibling_ne _ _ ".git").
  - intros _. apply detokenizeReposTf_keeps. rewrite resolve_reposTf.
    by apply (sibling_incomparable _ _ ".git").
Qed.

Lemma AdjustGitopsRepo_git_directory_witness :
  let run := AdjustGitopsRepo examplePlatforms "amd64" "k3d" "dev" "local"
               "/k1/gitops" "gitops" "github" "/k1" true templateWorld in
  run.1 = None
  ∧ fs run.2 !! resolve "/k1/gitops/.git/HEAD"
    = Some (File "ref: refs/heads/main").
Proof.
  intros run. split; [vm_compute; reflexivity|].
  etrans.
  - apply (AdjustGitopsRepo_leaves_git_directory examplePlatforms "amd64"
             "k3d" "dev" "local" "/k1/gitops" "gitops" "github" "/k1" true
             templateWorld).
    + intros platform Hin. vm_compute in Hin.
      repeat (apply elem_of_cons in Hin as [->|Hin];
              [repeat split; discriminate || reflexivity|]).
      by apply elem_of_nil in Hin.
    + exists ["HEAD"]. vm_compute. reflexivity.
  - vm_compute. reflexivity.
Defined.



(** ** [AdjustGitopsRepo]: where the content goes *)

Section promotion.

Variable SupportedPlatforms : list string.
Variable LocalhostARCH : string.

Implicit Types q : path.

Lemma promoteContent_split clusterName clusterType root gitProvider w :
  let pv := promoteVariant SupportedPlatforms root gitProvider w in
  promoteContent SupportedPlatforms clusterName clusterType root gitProvider w
  = match pv.1 with
    | Some e => (Some e, pv.2)
    | None =>
        (err ← cpCopy (clusterContent root clusterType)
                 (registryLocation root clusterName) (Some opt);
         on_error err Some (mret None)) pv.2
    end.
Proof.
  unfold promoteContent, promoteVariant. cbv zeta. rewrite !bind_run.
  destruct (cpCopy _ _ _ _) as [[e|] w1]; cbn [fst snd on_error]; [done|].
  by rewrite !bind_run.
Qed.

Lemma promoteVariant_success root gitProvider w :
  let cleaned := (cleanUpPlatforms SupportedPlatforms root gitProvider w).2 in
  let copied := cp.Copy (driverContent root gitProvider) root opt (fs cleaned) in
  (promoteVariant SupportedPlatforms root gitProvider w).1 = None →
  copied.1 = None
  ∧ fs (promoteVariant SupportedPlatforms root gitProvider w).2
    = (FS.RemoveAll (driverContent root gitProvider) copied.2).2.
Proof.
  intros cleaned copied. unfold promoteVariant. rewrite !bind_run.
  fold cleaned. unfold cpCopy, os.RemoveAll. rewrite fs_op_run.
  change (default cp.default (Some opt)) with opt. cbn [fst snd].
  unfold copied. clear copied.
  destruct (cp.Copy _ _ opt (fs cleaned)) as [[e|] m];
    cbn [fst snd on_error]; [done|].
  intros _. by rewrite bind_run, fs_op_run.
Qed.

Lemma keeps_cleanUpPlatforms root gitProvider q :
  (∀ p, p ∈ SupportedPlatforms → p ≠ CloudProvider +:+ "-" +:+ gitProvider →
        ¬ resolve (root +:+ "/" +:+ p) `prefix_of` q) →
  keeps q (cleanUpPlatforms SupportedPlatforms root gitProvider).
Proof.
  unfold cleanUpPlatforms. generalize SupportedPlatforms.
  intros l Hl. induction l as [|p l IH]; simpl; [apply keeps_ret|].
  apply keeps_bind.
  - case_bool_decide; [|apply keeps_ret].
    apply keeps_bind; [|intros _; apply keeps_ret].
    apply keeps_RemoveAll. apply Hl; [apply list_elem_of_here|done].
  - intros _. apply IH. intros p' Hp'. by apply Hl, list_elem_of_further.
Qed.

Lemma entry_name_selected gitProvider :
  has_byte "/" gitProvider = false →
  entry_name (CloudProvider +:+ "-" +:+ gitProvider).
Proof.
  intros H. repeat split; [done|done|].
  unfold CloudProvider. by rewrite !has_byte_app, H.
Qed.

Lemma resolve_driverContent_entry root gitProvider :
  has_byte "/" gitProvider = false →
  resolve (driverContent root gitProvider)
  = resolve root ++ [CloudProvider +:+ "-" +:+ gitProvider].
Proof.
  intros H. rewrite resolve_driverContent. f_equal.
  change (CloudProvider +:+ "-" +:+ gitProvider +:+ "/")
    with (String "k" (String "3" (String "d" (String "-"
            (gitProvider +:+ String "/" ""))))).
  change (CloudProvider +:+ "-" +:+ gitProvider)
    with (String "k" (String "3" (String "d" (String "-" gitProvider)))).
  pose proof (resolve_app_slash (String "k" (String "3" (String "d"
                (String "-" gitProvider)))) "") as Hr.
  rewrite !sapp_cons in Hr. rewrite Hr.
  rewrite (entry_name_resolve (String "k" _)); [done|].
  by apply (entry_name_selected gitProvider).
Qed.

(** What the promotion of the variant makes of an entry of the variant. *)
Lemma promoteVariant_copies root gitProvider w (n : string) rel (v : node) :
  let selected := CloudProvider +:+ "-" +:+ gitProvider in
  let variant := resolve root ++ [selected] in
  (∀ p, p ∈ SupportedPlatforms → entry_name p) →
  has_byte "/" gitProvider = false →
  fs w !! (variant ++ [selected]) = None →
  tree_path (fs w) variant (n :: rel) v →
  unskipped opt (driverContent root gitProvider) (n :: rel) →
  (promoteVariant SupportedPlatforms root gitProvider w).1 = None →
  fs (promoteVariant SupportedPlatforms root gitProvider w).2
    !! (resolve root ++ n :: rel) = Some v.
Proof.
  intros selected variant Hplatforms Hgp Hself Hpath Hun Hok.
  destruct (promoteVariant_success root gitProvider w Hok) as [Hcopy ->].
  set (cleaned := (cleanUpPlatforms SupportedPlatforms root gitProvider w).2)
    in *.
  pose proof (resolve_driverContent_entry root gitProvider Hgp) as Hdriver.
  fold selected variant in Hdriver.
  assert (∀ q, variant `prefix_of` q → fs cleaned !! q = fs w !! q) as Hsrc.
  { intros q Hq. apply keeps_cleanUpPlatforms. intros p Hp Hsel.
    rewrite resolve_platform, (entry_name_resolve p) by by apply Hplatforms.
    intros Hpq. apply (incomparable_siblings (resolve root) p selected [] []);
      [done|]. by apply (prefix_weak_total _ _ q). }
  assert (n ≠ selected) as Hn.
  { intros ->. apply tree_path_child in Hpath as [? ?]. congruence. }
  rewrite RemoveAll_frame.
  2:{ rewrite Hdriver. fold variant.
      intros Hp. apply prefix_app_inv, prefix_cons_inv_1 in Hp. congruence. }
  pose proof (Copy_copies (driverContent root gitProvider) root opt
                (fs cleaned) (n :: rel) v) as Hcopies.
  rewrite Hdriver in Hcopies. unfold FS.stat in Hcopies.
  rewrite decide_False in Hcopies by (by destruct (resolve root)).
  apply Hcopies; [apply prefix_snoc_not| |by apply (tree_path_ext (fs w))|done..].
  intros x [y Hx] Hc.
  apply (incomparable_siblings (resolve root) selected x [] []); [|done].
  intros <-. rewrite Hsrc in Hx by (by apply prefix_app_r). congruence.
Qed.

Lemma tree_path_prefix_dir m sp (a : path) x (b : path) v :
  tree_path m sp (a ++ x :: b) v → tree_path m sp a Dir.
Proof.
  revert sp. induction a as [|y a IH]; intros sp; simpl.
  - by intros [? _].
  - intros [? H]. split; [done|]. by apply IH in H.
Qed.

Lemma unskipped_app o src (a b : path) :
  unskipped o src (a ++ b) → unskipped o src a.
Proof.
  revert src. induction a as [|y a IH]; intros src; simpl; [done|].
  intros [? H]. split; [done|]. by apply IH in H.
Qed.

(** The promotion keeps the shape of what it copies: the directories on the
    way to an entry are directories at the root as well. *)
Lemma promoteVariant_tree root gitProvider w (n : string) (a b : path)
    (v : node) :
  let selected := CloudProvider +:+ "-" +:+ gitProvider in
  let variant := resolve root ++ [selected] in
  (∀ p, p ∈ SupportedPlatforms → entry_name p) →
  has_byte "/" gitProvider = false →
  fs w !! (variant ++ [selected]) = None →
  tree_path (fs w) variant (n :: a ++ b) v →
  unskipped opt (driverContent root gitProvider) (n :: a ++ b) →
  (promoteVariant SupportedPlatforms root gitProvider w).1 = None →
  tree_path (fs (promoteVariant SupportedPlatforms root gitProvider w).2)
    (resolve root ++ n :: a) b v.
Proof.
  intros selected variant Hplatforms Hgp Hself Hpath Hun Hok.
  revert a Hpath Hun. induction b as [|x b IH]; intros a Hpath Hun.
  - rewrite app_nil_r in Hpath, Hun. cbn [tree_path]. unfold FS.stat.
    rewrite decide_False by (by destruct (resolve root)).
    by apply promoteVariant_copies.
  - cbn [tree_path]. split.
    + unfold FS.stat. rewrite decide_False by (by destruct (resolve root)).
      apply promoteVariant_copies; [done|done|done| | |done].
      * by apply (tree_path_prefix_dir _ _ (n :: a) x b v).
      * by apply (unskipped_app _ _ (n :: a) (x :: b)).
    + rewrite <-app_assoc. cbn [app].
      apply (IH (a ++ [x])); by rewrite <-app_assoc.
Qed.

Lemma resolve_clusterContent root clusterType :
  resolve (clusterContent root clusterType)
  = resolve root ++ "cluster-types" :: resolve clusterType.
Proof.
  unfold clusterContent.
  change ("/cluster-types/" +:+ clusterType)
    with (String "/" ("cluster-types" +:+ String "/" clusterType)).
  by rewrite !resolve_app_slash.
Qed.

Lemma keeps_second_copy clusterName clusterType root q :
  ¬ comparable q (resolve (registryLocation root clusterName)) →
  keeps q (err ← cpCopy (clusterContent root clusterType)
                   (registryLocation root clusterName) (Some opt);
           on_error err Some (mret None)).
Proof.
  intros Hq. apply keeps_bind; [by apply keeps_Copy|].
  intros err. apply keeps_on_error, keeps_ret.
Qed.

(** The run after a successful promotion of the variant. *)
Lemma AdjustGitopsRepo_after_variant
    cloudProvider clusterName clusterType root name gitProvider k1Dir
    removeAtlantis w :
  let run := AdjustGitopsRepo SupportedPlatforms LocalhostARCH cloudProvider
               clusterName clusterType root name gitProvider k1Dir
               removeAtlantis w in
  let pv := promoteVariant SupportedPlatforms root gitProvider w in
  let copied := cp.Copy (clusterContent root clusterType)
                  (registryLocation root clusterName) opt (fs pv.2) in
  run.1 = None →
  pv.1 = None ∧ copied.1 = None
  ∧ ∀ q, ¬ resolve (root +:+ "/cluster-types") `prefix_of` q →
         ¬ resolve (root +:+ "/services") `prefix_of` q →
         q ≠ resolve (if String.eqb LocalhostARCH "arm64"
                           && String.eqb cloudProvider CloudProvider
                      then amdConsoleFileLocation root clusterName
                      else armConsoleFileLocation root clusterName) →
         (removeAtlantis = true →
          q ≠ resolve (atlantisRegistryFileLocation root clusterName)) →
         ¬ comparable q (resolve (reposTf root)) →
         fs run.2 !! q = copied.2 !! q.
Proof.
  intros run pv copied Hok.
  pose proof (AdjustGitopsRepo_promoted SupportedPlatforms LocalhostARCH
                cloudProvider clusterName clusterType root name gitProvider
                k1Dir removeAtlantis w Hok) as Hpromoted.
  unfold run.
  rewrite (AdjustGitopsRepo_after_promote SupportedPlatforms LocalhostARCH
             cloudProvider clusterName clusterType root name gitProvider
             k1Dir removeAtlantis w Hpromoted).
  clear Hok run. rewrite promoteContent_split in Hpromoted |- *.
  fold pv in Hpromoted |- *.
  destruct pv.1 as [e|] eqn:Epv; [done|]. split; [done|].
  revert Hpromoted. rewrite !bind_run. unfold cpCopy. rewrite fs_op_run.
  change (default cp.default (Some opt)) with opt. cbn [fst snd]. fold copied.
  destruct copied.1 as [e|] eqn:Ecopied; cbn [on_error]; [done|].
  intros _. split; [done|]. intros q H1 H2 H3 H4 H5.
  rewrite detokenizeReposTf_keeps by done.
  by rewrite pruneRegistry_keeps.
Qed.

End promotion.

(** X13: what [AdjustGitopsRepo] promotes.  Every entry of the selected
    variant [k3d-{gitProvider}], at any depth, that the filter lets through
    is, after a run that returns [nil], at the same place relative to the
    gitops directory, a regular file with its content and a directory as a
    directory; this for the entries that the later steps do not work on
    (those below [registry], [cluster-types] and [services], and
    [terraform/github/repos.tf]), for a variant without an entry of its own
    name, and for supported platforms that are directory names. *)
Theorem AdjustGitopsRepo_promotes_variant_content
    (SupportedPlatforms : list string) (LocalhostARCH : string)
    (cloudProvider clusterName clusterType gitopsRepoDir gitopsRepoName
       gitProvider k1Dir : string) (removeAtlantis : bool) (w : World)
    (n : string) (rel : path) (v : node) :
  let selected := CloudProvider +:+ "-" +:+ gitProvider in
  let variant := resolve gitopsRepoDir ++ [selected] in
  let target := resolve gitopsRepoDir ++ n :: rel in
  let run := AdjustGitopsRepo SupportedPlatforms LocalhostARCH cloudProvider
               clusterName clusterType gitopsRepoDir gitopsRepoName gitProvider
               k1Dir removeAtlantis w in
  (∀ p, p ∈ SupportedPlatforms → entry_name p) →
  has_byte "/" gitProvider = false →
  fs w !! (variant ++ [selected]) = None →
  tree_path (fs w) variant (n :: rel) v →
  unskipped opt (driverContent gitopsRepoDir gitProvider) (n :: rel) →
  n ∉ ["registry"; "cluster-types"; "services"] →
  ¬ comparable target (resolve (reposTf gitopsRepoDir)) →
  run.1 = None →
  fs run.2 !! target = Some v.
Proof.
  intros selected variant target run Hplatforms Hgp Hself Hpath Hun Hn Htf Hok.
  destruct (AdjustGitopsRepo_after_variant SupportedPlatforms LocalhostARCH
              cloudProvider clusterName clusterType gitopsRepoDir
              gitopsRepoName gitProvider k1Dir removeAtlantis w Hok)
    as (Hpv & _ & Hrest).
  assert (n ≠ "registry" ∧ n ≠ "cluster-types" ∧ n ≠ "services")
    as (Hn1 & Hn2 & Hn3).
  { repeat split; intros ->; apply Hn; repeat constructor. }
  unfold run. rewrite (Hrest target); [| | | | |exact Htf].
  - rewrite Copy_within.
    + by apply promoteVariant_copies.
    + rewrite resolve_registry.
      by apply (incomparable_siblings _ n "registry" rel _).
  - rewrite resolve_cluster_types. intros Hp.
    apply prefix_app_inv, prefix_cons_inv_1 in Hp. exact (Hn2 (eq_sym Hp)).
  - rewrite resolve_services. intros Hp.
    apply prefix_app_inv, prefix_cons_inv_1 in Hp. exact (Hn3 (eq_sym Hp)).
  - unfold target.
    destruct (_ && _); rewrite ?resolve_amd, ?resolve_arm; intros Heq;
      apply app_inv_head in Heq; injection Heq as Hhead _; exact (Hn1 Hhead).
  - intros _. unfold target. rewrite resolve_atlantis. intros Heq.
    apply app_inv_head in Heq. injection Heq as Hhead _. exact (Hn1 Hhead).
Qed.

Lemma AdjustGitopsRepo_promotes_witness :
  let run := AdjustGitopsRepo examplePlatforms "amd64" "k3d" "dev" "local"
               "/k1/gitops" "gitops" "github" "/k1" true variantWorld in
  run.1 = None
  ∧ fs run.2 !! (resolve "/k1/gitops" ++ ["terraform"; "github"; "main.tf"])
    = Some (File "provider github").
Proof.
  intros run. split; [vm_compute; reflexivity|].
  refine (AdjustGitopsRepo_promotes_variant_content examplePlatforms "amd64"
            "k3d" "dev" "local" "/k1/gitops" "gitops" "github" "/k1" true
            variantWorld "terraform" ["github"; "main.tf"]
            (File "provider github") _ _ _ _ _ _ _ _).
  - intros p Hin. vm_compute in Hin.
    repeat (apply elem_of_cons in Hin as [->|Hin];
            [repeat split; discriminate || reflexivity|]).
    by apply elem_of_nil in Hin.
  - reflexivity.
  - vm_compute. reflexivity.
  - vm_compute. repeat split; reflexivity.
  - vm_compute. repeat split; reflexivity.
  - intros Hin. vm_compute in Hin.
    repeat (apply elem_of_cons in Hin as [Hin|Hin]; [discriminate|]).
    by apply elem_of_nil in Hin.
  - intros [[k Hk]|[k Hk]]; vm_compute in Hk; discriminate.
  - vm_compute. reflexivity.
Defined.

(** The second copy: what is below [cluster-types/{clusterType}] after the
    promotion of the variant is below [registry/{clusterName}] at the end. *)
Lemma AdjustGitopsRepo_registry_from_promoted
    (SupportedPlatforms : list string) (LocalhostARCH : string)
    (cloudProvider clusterName clusterType gitopsRepoDir gitopsRepoName
       gitProvider k1Dir : string) (removeAtlantis : bool) (w : World)
    (rel : path) (v : node) :
  let promoted := (promoteVariant SupportedPlatforms gitopsRepoDir gitProvider
                     w).2 in
  let source := resolve (clusterContent gitopsRepoDir clusterType) in
  let target := resolve (registryLocation gitopsRepoDir clusterName) ++ rel in
  let removed :=
    resolve (if String.eqb LocalhostARCH "arm64"
                  && String.eqb cloudProvider CloudProvider
             then amdConsoleFileLocation gitopsRepoDir clusterName
             else armConsoleFileLocation gitopsRepoDir clusterName) in
  let run := AdjustGitopsRepo SupportedPlatforms LocalhostARCH cloudProvider
               clusterName clusterType gitopsRepoDir gitopsRepoName gitProvider
               k1Dir removeAtlantis w in
  tree_path (fs promoted) source rel v →
  unskipped opt (clusterContent gitopsRepoDir clusterType) rel →
  target ≠ removed →
  (removeAtlantis = true →
   target ≠ resolve (atlantisRegistryFileLocation gitopsRepoDir clusterName)) →
  run.1 = None →
  fs run.2 !! target = Some v.
Proof.
  intros promoted source target removed run Hpath Hun Hremoved Hatlantis Hok.
  destruct (AdjustGitopsRepo_after_variant SupportedPlatforms LocalhostARCH
              cloudProvider clusterName clusterType gitopsRepoDir
              gitopsRepoName gitProvider k1Dir removeAtlantis w Hok)
    as (_ & Hcopy & Hrest).
  assert (¬ comparable source
            (resolve (registryLocation gitopsRepoDir clusterName))) as Hinc.
  { unfold source. rewrite resolve_clusterContent, resolve_registry.
    by apply incomparable_siblings. }
  unfold run. rewrite (Hrest target); [| | |exact Hremoved|exact Hatlantis|].
  - pose proof (Copy_copies (clusterContent gitopsRepoDir clusterType)
                  (registryLocation gitopsRepoDir clusterName) opt
                  (fs promoted) rel v) as Hcopies.
    unfold FS.stat in Hcopies. rewrite decide_False in Hcopies.
    2:{ rewrite resolve_registry. by destruct (resolve gitopsRepoDir). }
    apply Hcopies; [|intros x _|done..].
    + intros Hp. apply Hinc. by left.
    + rewrite <-(app_nil_r (resolve (clusterContent _ _))).
      by apply incomparable_app.
  - unfold target. rewrite resolve_cluster_types, resolve_registry.
    rewrite <-app_assoc. intros Hp.
    apply prefix_app_inv, prefix_cons_inv_1 in Hp. congruence.
  - unfold target. rewrite resolve_services, resolve_registry.
    rewrite <-app_assoc. intros Hp.
    apply prefix_app_inv, prefix_cons_inv_1 in Hp. congruence.
  - unfold target. rewrite resolve_reposTf, resolve_registry, <-app_assoc.
    by apply (incomparable_siblings _ "registry" "terraform").
Qed.

(** X14: what [AdjustGitopsRepo] puts into the registry.  Every entry of
    [k3d-{gitProvider}/cluster-types/{clusterType}] of the tree the run
    starts from, at any depth, that the filter lets through in both copies
    is, after a run that returns [nil], at the same place relative to
    [registry/{clusterName}], a regular file with its content and a
    directory as a directory, except the console manifest that the run
    removes and, on request, the Atlantis manifest. *)
Theorem AdjustGitopsRepo_fills_registry
    (SupportedPlatforms : list string) (LocalhostARCH : string)
    (cloudProvider clusterName clusterType gitopsRepoDir gitopsRepoName
       gitProvider k1Dir : string) (removeAtlantis : bool) (w : World)
    (rel : path) (v : node) :
  let selected := CloudProvider +:+ "-" +:+ gitProvider in
  let variant := resolve gitopsRepoDir ++ [selected] in
  let chosen := "cluster-types" :: resolve clusterType in
  let target := resolve (registryLocation gitopsRepoDir clusterName) ++ rel in
  let removed :=
    resolve (if String.eqb LocalhostARCH "arm64"
                  && String.eqb cloudProvider CloudProvider
             then amdConsoleFileLocation gitopsRepoDir clusterName
             else armConsoleFileLocation gitopsRepoDir clusterName) in
  let run := AdjustGitopsRepo SupportedPlatforms LocalhostARCH cloudProvider
               clusterName clusterType gitopsRepoDir gitopsRepoName gitProvider
               k1Dir removeAtlantis w in
  (∀ p, p ∈ SupportedPlatforms → entry_name p) →
  has_byte "/" gitProvider = false →
  fs w !! (variant ++ [selected]) = None →
  tree_path (fs w) variant (chosen ++ rel) v →
  unskipped opt (driverContent gitopsRepoDir gitProvider) (chosen ++ rel) →
  unskipped opt (clusterContent gitopsRepoDir clusterType) rel →
  target ≠ removed →
  (removeAtlantis = true →
   target ≠ resolve (atlantisRegistryFileLocation gitopsRepoDir clusterName)) →
  run.1 = None →
  fs run.2 !! target = Some v.
Proof.
  intros selected variant chosen target removed run Hplatforms Hgp Hself Hpath
    Hun1 Hun2 Hremoved Hatlantis Hok.
  destruct (AdjustGitopsRepo_after_variant SupportedPlatforms LocalhostARCH
              cloudProvider clusterName clusterType gitopsRepoDir
              gitopsRepoName gitProvider k1Dir removeAtlantis w Hok)
    as (Hpv & _ & _).
  apply AdjustGitopsRepo_registry_from_promoted;
    [|exact Hun2|exact Hremoved|exact Hatlantis|exact Hok].
  rewrite resolve_clusterContent.
  by apply promoteVariant_tree.
Qed.

Lemma AdjustGitopsRepo_registry_witness :
  let run := AdjustGitopsRepo examplePlatforms "amd64" "k3d" "dev" "local"
               "/k1/gitops" "gitops" "github" "/k1" true variantWorld in
  variantTree !! resolve
    "/k1/gitops/k3d-github/cluster-types/local/components/argocd/app.yaml"
  = Some (File "kind: Application")
  ∧ run.1 = None
  ∧ fs run.2 !! (resolve (registryLocation "/k1/gitops" "dev")
                 ++ ["components"; "argocd"; "app.yaml"])
    = Some (File "kind: Application").
Proof.
  intros run. split; [vm_compute; reflexivity|].
  split; [vm_compute; reflexivity|].
  refine (AdjustGitopsRepo_fills_registry examplePlatforms "amd64" "k3d" "dev"
            "local" "/k1/gitops" "gitops" "github" "/k1" true variantWorld
            ["components"; "argocd"; "app.yaml"] (File "kind: Application")
            _ _ _ _ _ _ _ _ _).
  - intros p Hin. vm_compute in Hin.
    repeat (apply elem_of_cons in Hin as [->|Hin];
            [repeat split; discriminate || reflexivity|]).
    by apply elem_of_nil in Hin.
  - reflexivity.
  - vm_compute. reflexivity.
  - vm_compute. repeat split; reflexivity.
  - vm_compute. repeat split; reflexivity.
  - vm_compute. repeat split; reflexivity.
  - vm_compute. discriminate.
  - intros _. vm_compute. discriminate.
  - vm_compute. reflexivity.
Defined.

(** * What the copy filter refuses *)

Section refused.

Implicit Types (m : gmap path node) (p q sp dp rel : path).

(** Nothing is written at or below an entry that the filter refuses, or
    that lies below a directory it refuses. *)
Lemma switchboard_skips fuel o (src : string) sp dp m rel q :
  ¬ unskipped o src rel → (dp ++ rel) `prefix_of` q →
  (cp.switchboard fuel o src sp dp m).2 !! q = m !! q.
Proof.
  revert o src sp dp m rel.
  induction fuel as [|fuel IH]; intros o src sp dp m rel Hun Hq; [done|].
  destruct rel as [|n rel]; [by destruct Hun|].
  assert ((dp ++ [n]) `prefix_of` q) as Hqn.
  { etrans; [|exact Hq]. apply prefix_app, prefix_cons, prefix_nil. }
  assert (¬ q `prefix_of` dp) as Hqd.
  { intros H. eapply prefix_snoc_not. by etrans. }
  simpl. destruct (FS.stat m sp) as [[data|]|]; [| |done].
  { by apply fcopy_lookup. }
  assert ((FS.MkdirAll dp m).2 !! q = m !! q) as Hmk.
  { by destruct (MkdirAll_lookup dp m q) as [?|(_&_&?)]. }
  destruct (FS.MkdirAll dp m) as [[e|] m1]; [done|].
  simpl in Hmk. rewrite <-Hmk.
  apply (for_each_inv (λ m', m' !! q = m1 !! q)); [done|].
  intros name m' _ Hm'.
  destruct (cp.OptSkip o (Join src name)) as [[|] [e|]] eqn:E; try done.
  rewrite <-Hm'. destruct (decide (name = n)) as [->|Hne].
  - apply (IH _ _ _ _ _ rel); [|by rewrite <-app_assoc].
    intros Hrel. by apply Hun.
  - apply switchboard_within.
    eapply (below_incomparable (dp ++ [n])); [|done].
    by apply (incomparable_siblings dp n name [] []).
Qed.

Lemma Copy_refused (src dest : string) o m rel q :
  ¬ unskipped o src rel → (resolve dest ++ rel) `prefix_of` q →
  (cp.Copy src dest o m).2 !! q = m !! q.
Proof.
  intros Hun Hq. unfold cp.Copy.
  destruct (FS.stat m (resolve src)) as [[data|]|];
    [|by apply (switchboard_skips _ _ _ _ _ _ rel)|done].
  destruct (FS.dir_only src); [done|].
  by apply (switchboard_skips _ _ _ _ _ _ rel).
Qed.

Lemma hoare_absent_Copy_refused (src dest : string) rel :
  ¬ unskipped opt src rel →
  hoare (λ m, FS.absent m (resolve dest ++ rel)) (cpCopy src dest (Some opt))
    (λ m, FS.absent m (resolve dest ++ rel)).
Proof.
  intros Hun. apply hoare_fs_op. intros m Habs q Hq.
  change (default cp.default (Some opt)) with opt.
  rewrite (Copy_refused _ _ _ _ rel) by done. by apply Habs.
Qed.

(** Absence in a given tree can be read off its keys. *)
Lemma absent_by_keys m p :
  bool_decide (Forall (λ k, ¬ p `prefix_of` k) (map_to_list m).*1) = true →
  FS.absent m p.
Proof.
  intros H q Hq. apply bool_decide_eq_true_1 in H.
  destruct (m !! q) as [v|] eqn:E; [|done]. exfalso.
  rewrite Forall_forall in H. apply (H q); [|done].
  apply list_elem_of_fmap. exists (q, v). split; [done|].
  by apply elem_of_map_to_list.
Qed.

End refused.

(** X15: what the copy filter refuses is never promoted.  When the filter
    refuses an entry of the selected variant, or a directory on the way to
    it, and the gitops directory has nothing at that place (relative to its
    root) before the call, it has nothing there after the call, whatever the
    call returns; this for a place that is neither in [registry/{clusterName}]
    nor [terraform/github/repos.tf], which the later steps write. *)
Theorem AdjustGitopsRepo_never_promotes_refused
    (SupportedPlatforms : list string) (LocalhostARCH : string)
    (cloudProvider clusterName clusterType gitopsRepoDir gitopsRepoName
       gitProvider k1Dir : string) (removeAtlantis : bool) (w : World)
    (rel : path) :
  let target := resolve gitopsRepoDir ++ rel in
  let run := AdjustGitopsRepo SupportedPlatforms LocalhostARCH cloudProvider
               clusterName clusterType gitopsRepoDir gitopsRepoName gitProvider
               k1Dir removeAtlantis w in
  ¬ unskipped opt (driverContent gitopsRepoDir gitProvider) rel →
  ¬ comparable target (resolve (registryLocation gitopsRepoDir clusterName)) →
  ¬ comparable target (resolve (reposTf gitopsRepoDir)) →
  FS.absent (fs w) target →
  FS.absent (fs run.2) target.
Proof.
  intros target run Hun Hregistry Htf.
  assert (hoare (λ m, FS.absent m target)
            (AdjustGitopsRepo SupportedPlatforms LocalhostARCH cloudProvider
               clusterName clusterType gitopsRepoDir gitopsRepoName gitProvider
               k1Dir removeAtlantis)
            (λ m, FS.absent m target)) as Hrun; [|by apply Hrun].
  unfold AdjustGitopsRepo, promoteContent.
  eapply hoare_bind with (Q := λ m, FS.absent m target).
  { eapply hoare_bind; [apply hoare_absent_cleanUp|]. intros _.
    eapply hoare_bind; [by apply hoare_absent_Copy_refused|]. intros err.
    apply hoare_on_error; [done|].
    eapply hoare_bind; [apply hoare_absent_RemoveAll|]. intros _.
    eapply hoare_bind; [by apply hoare_absent_Copy|]. intros err'.
    apply hoare_on_error; [done|apply hoare_ret]. }
  intros err. apply hoare_on_error; [done|].
  eapply hoare_bind; [apply hoare_absent_pruneRegistry|]. intros _.
  by apply hoare_absent_detokenize.
Qed.

Lemma AdjustGitopsRepo_refused_witness :
  let run := AdjustGitopsRepo examplePlatforms "amd64" "k3d" "dev" "local"
               "/k1/gitops" "gitops" "github" "/k1" true variantWorld in
  variantTree !! resolve "/k1/gitops/k3d-github/terraform/.terraform/lock"
  = Some (File "lock")
  ∧ run.1 = None
  ∧ FS.absent (fs run.2) (resolve "/k1/gitops" ++ ["terraform"; ".terraform"]).
Proof.
  intros run. split; [vm_compute; reflexivity|].
  split; [vm_compute; reflexivity|].
  refine (AdjustGitopsRepo_never_promotes_refused examplePlatforms "amd64"
            "k3d" "dev" "local" "/k1/gitops" "gitops" "github" "/k1" true
            variantWorld ["terraform"; ".terraform"] _ _ _ _).
  - intros H. vm_compute in H. destruct H as (_ & H & _). discriminate.
  - intros [[k Hk]|[k Hk]]; vm_compute in Hk; discriminate.
  - intros [[k Hk]|[k Hk]]; vm_compute in Hk; discriminate.
  - apply absent_by_keys. vm_compute. reflexivity.
Defined.

(** * The content of the metaphor directory *)

Section achieves_rules.

Implicit Types P Q R : gmap path node → Prop.

Lemma achieves_hoare P (c : M (option error)) Q : hoare P c Q → achieves P c Q.
Proof. intros H w HP _. by apply H. Qed.

Lemma achieves_bind {A} P R Q (c : M A) (f : A → M (option error)) :
  hoare P c R → (∀ a, achieves R (f a) Q) → achieves P (c ≫= f) Q.
Proof. intros Hc Hf w HP. rewrite bind_run. apply Hf. by apply Hc. Qed.

Lemma achieves_on_error P Q err (wrap : error → error) k :
  achieves P k Q → achieves P (on_error err (λ e, Some (wrap e)) k) Q.
Proof. intros Hk. destruct err; [|done]. by intros w. Qed.

Lemma achieves_checked P R Q (c : M (option error)) (wrap : error → error) k :
  achieves P c R → achieves R k Q →
  achieves P (err ← c; on_error err (λ e, Some (wrap e)) k) Q.
Proof.
  intros Hc Hk w HP. rewrite bind_run. specialize (Hc w HP).
  destruct (c w).1 as [e|]; [done|]. cbn [on_error].
  apply Hk. by apply Hc.
Qed.

Lemma hoare_keeps {A} q (x : option node) (c : M A) :
  keeps q c → hoare (λ m, m !! q = x) c (λ m, m !! q = x).
Proof. intros H w Hq. by rewrite H. Qed.

Lemma hoare_keeps_pair {A} a b (c : M A) :
  keeps a c → keeps b c →
  hoare (λ m, is_Some (m !! a) ∧ m !! b = m !! a) c
    (λ m, is_Some (m !! a) ∧ m !! b = m !! a).
Proof. intros Ha Hb w. by rewrite Ha, Hb. Qed.

Lemma hoare_tree_path {A} sp rel (v : node) (c : M A) :
  (∀ q, sp `prefix_of` q → keeps q c) →
  hoare (λ m, tree_path m sp rel v) c (λ m, tree_path m sp rel v).
Proof.
  intros H w Hp. eapply tree_path_ext; [|done]. intros q Hq. by apply H.
Qed.

Lemma achieves_Copy (src dest : string) rel (v : node) :
  ¬ comparable (resolve src) (resolve dest) →
  resolve dest ++ rel ≠ [] →
  unskipped opt src rel →
  achieves (λ m, tree_path m (resolve src) rel v) (cpCopy src dest (Some opt))
    (λ m, m !! (resolve dest ++ rel) = Some v).
Proof.
  intros Hsd Hne Hun w Hpath. unfold cpCopy. rewrite fs_op_run.
  change (default cp.default (Some opt)) with opt. cbn [fst snd fs].
  intros Hok.
  pose proof (Copy_copies src dest opt (fs w) rel v) as Hcopies.
  unfold FS.stat in Hcopies. rewrite decide_False in Hcopies by done.
  apply Hcopies; [|intros x _|done..].
  - intros Hp. apply Hsd. by left.
  - rewrite <-(app_nil_r (resolve src)). by apply incomparable_app.
Qed.

(** The walk through [AdjustMetaphorRepo], with an assertion on the file
    system at each of its steps. *)
Lemma achieves_AdjustMetaphorRepo (url root name gitProvider k1Dir : string)
    (P A1 A2 A3 A4 A5 A6 A7 A8 A9 Q : gmap path node → Prop) :
  let md := k1Dir +:+ "/metaphor" in
  hoare P (os.Mkdir md) A1 →
  hoare A1 (git.PlainInit md) A2 →
  achieves A2 (cpCopy (root +:+ "/metaphor") md (Some opt)) A3 →
  achieves A3 (copyCIContent gitProvider k1Dir md) A4 →
  achieves A4 (cpCopy (k1Dir +:+ "/gitops/ci/.argo") (md +:+ "/.argo")
                 (Some opt)) A5 →
  hoare A5 (os.Mkdir (md +:+ "/build")) A6 →
  achieves A6 (cpCopy (md +:+ "/Dockerfile") (md +:+ "/build/Dockerfile")
                 (Some opt)) A7 →
  hoare A7 (os.RemoveAll (root +:+ "/ci")) A8 →
  hoare A8 (os.RemoveAll (root +:+ "/metaphor")) A9 →
  (∀ r, hoare A9 (commitAndPublish r url root name) Q) →
  achieves P (AdjustMetaphorRepo url root name gitProvider k1Dir) Q.
Proof.
  intros md H1 H2 H3 H4 H5 H6 H7 H8 H9 HQ.
  unfold AdjustMetaphorRepo. cbv zeta. fold md.
  eapply achieves_bind; [exact H1|]. intros _.
  eapply achieves_bind; [exact H2|]. intros [r err].
  apply (achieves_on_error _ _ _ id).
  eapply (achieves_checked _ _ _ _ id); [exact H3|].
  eapply (achieves_checked _ _ _ _ id); [exact H4|].
  eapply (achieves_checked _ _ _ _ id); [exact H5|].
  eapply achieves_bind; [exact H6|]. intros _.
  eapply (achieves_checked _ _ _ _ id); [exact H7|].
  eapply achieves_bind; [exact H8|]. intros _.
  eapply achieves_bind; [exact H9|]. intros _.
  apply achieves_hoare, HQ.
Qed.

End achieves_rules.

Section metaphor_steps.

Variables (gitProvider k1Dir : string).

Local Abbreviation md := (k1Dir +:+ "/metaphor").

Implicit Types (n : string) (rel : path).

Lemma keeps_at_copyCI n rel :
  n ≠ ".github" → n ≠ ".gitlab-ci.yml" →
  keeps (resolve md ++ n :: rel) (copyCIContent gitProvider k1Dir md).
Proof.
  intros H1 H2. unfold copyCIContent.
  destruct (String.eqb gitProvider "github");
    [|destruct (String.eqb gitProvider "gitlab")].
  - apply keeps_Copy. rewrite (resolve_under _ ".github").
    by apply (incomparable_siblings _ n ".github" rel []).
  - apply keeps_Copy. rewrite (resolve_under _ ".gitlab-ci.yml").
    by apply (incomparable_siblings _ n ".gitlab-ci.yml" rel []).
  - apply keeps_ret.
Qed.

Lemma keeps_at_argo n rel :
  n ≠ ".argo" →
  keeps (resolve md ++ n :: rel)
    (cpCopy (k1Dir +:+ "/gitops/ci/.argo") (md +:+ "/.argo") (Some opt)).
Proof.
  intros H. apply keeps_Copy. rewrite (resolve_under _ ".argo").
  by apply (incomparable_siblings _ n ".argo" rel []).
Qed.

Lemma keeps_at_build_Mkdir n rel :
  n ≠ "build" → keeps (resolve md ++ n :: rel) (os.Mkdir (md +:+ "/build")).
Proof.
  intros H. apply keeps_Mkdir. rewrite (resolve_under _ "build").
  intros Heq. apply app_inv_head in Heq. by injection Heq.
Qed.

Lemma keeps_at_build_Copy n rel :
  n ≠ "build" →
  keeps (resolve md ++ n :: rel)
    (cpCopy (md +:+ "/Dockerfile") (md +:+ "/build/Dockerfile") (Some opt)).
Proof.
  intros H. apply keeps_Copy. rewrite (resolve_under _ "build/Dockerfile").
  by apply (incomparable_siblings _ n "build" rel ["Dockerfile"]).
Qed.

(** The sources of the CI content and the metaphor directory are apart: both
    are below [k1Dir]. *)
Lemma ci_sources_apart q :
  resolve (k1Dir +:+ "/gitops/ci") `prefix_of` q →
  ¬ comparable q (resolve md).
Proof.
  intros Hq. rewrite (resolve_under _ "metaphor").
  eapply below_incomparable; [|exact Hq].
  rewrite (resolve_under _ "gitops/ci").
  by apply (incomparable_siblings _ "gitops" "metaphor" ["ci"] []).
Qed.

Lemma PlainInit_within dir w :
  within (resolve dir ++ [".git"]) (fs w) (fs (git.PlainInit dir w).2).
Proof.
  unfold git.PlainInit. cbv zeta.
  destruct (gitFault w (OpPlainInit dir)); [apply within_refl|].
  destruct (repos w !! resolve dir); [apply within_refl|].
  pose proof (MkdirAll_within (resolve dir ++ [".git"]) (fs w)) as Hmk.
  by destruct (FS.MkdirAll _ _) as [[?|] m].
Qed.

Lemma hoare_absent_Mkdir p (s : string) :
  ¬ p `prefix_of` resolve s →
  hoare (λ m, FS.absent m p) (os.Mkdir s) (λ m, FS.absent m p).
Proof.
  intros Hp. apply hoare_fs_op. intros m Habs q Hq.
  rewrite Mkdir_frame; [by apply Habs|]. by intros ->.
Qed.

Lemma hoare_absent_PlainInit p dir :
  ¬ comparable p (resolve dir ++ [".git"]) →
  hoare (λ m, FS.absent m p) (git.PlainInit dir) (λ m, FS.absent m p).
Proof.
  intros Hp w Habs. eapply within_absent; [apply PlainInit_within|done..].
Qed.

Lemma Copy_missing_source (src dest : string) o m :
  resolve src ≠ [] → m !! resolve src = None →
  (cp.Copy src dest o m).1 ≠ None.
Proof.
  intros Hne Hm. unfold cp.Copy, FS.stat. rewrite decide_False by done.
  by rewrite Hm.
Qed.

(** A copy that succeeds leaves at the destination the kind of entry, and
    for a regular file the content, that the source has. *)
Lemma Copy_duplicates (src dest : string) o m :
  ¬ comparable (resolve src) (resolve dest) →
  resolve src ≠ [] → resolve dest ≠ [] →
  (cp.Copy src dest o m).1 = None →
  is_Some ((cp.Copy src dest o m).2 !! resolve src)
  ∧ (cp.Copy src dest o m).2 !! resolve dest
    = (cp.Copy src dest o m).2 !! resolve src.
Proof.
  intros Hsd Hs Hd Hok.
  assert ((cp.Copy src dest o m).2 !! resolve src = m !! resolve src) as Hsrc.
  { by apply Copy_within. }
  rewrite Hsrc. destruct (m !! resolve src) as [v|] eqn:E.
  - split; [eauto|].
    pose proof (Copy_copies src dest o m [] v) as Hcopies.
    rewrite app_nil_r in Hcopies. unfold FS.stat in Hcopies.
    rewrite !decide_False in Hcopies by done.
    apply Hcopies; [|intros x _| |done|done].
    + intros Hp. apply Hsd. by left.
    + rewrite <-(app_nil_r (resolve src)). by apply incomparable_app.
    + cbn [tree_path]. unfold FS.stat. by rewrite decide_False.
  - by destruct (Copy_missing_source src dest o m).
Qed.

End metaphor_steps.

Section metaphor_apart.

Variables (root k1Dir : string).

Local Abbreviation md := (k1Dir +:+ "/metaphor").

Hypothesis apart : ¬ comparable (resolve root) (resolve md).

Lemma below_metaphor_apart q xs :
  resolve md `prefix_of` q → ¬ comparable (resolve root ++ xs) q.
Proof.
  intros [k ->]. by apply incomparable_app.
Qed.

Lemma below_sources_apart q xs :
  (resolve root ++ xs) `prefix_of` q → ¬ comparable q (resolve md).
Proof.
  intros [k ->]. rewrite <-app_assoc, <-(app_nil_r (resolve md)).
  intros H. apply comparable_sym in H. revert H.
  apply (incomparable_app (resolve md) (resolve root)).
  intros H. by apply apart, comparable_sym.
Qed.

Lemma keeps_at_tail q r url name :
  resolve md `prefix_of` q →
  keeps q (os.RemoveAll (root +:+ "/ci"))
  ∧ keeps q (os.RemoveAll (root +:+ "/metaphor"))
  ∧ keeps q (commitAndPublish r url root name).
Proof.
  intros Hq. split; [|split].
  - apply keeps_RemoveAll. rewrite (resolve_under _ "ci").
    intros H. apply (below_metaphor_apart q (resolve "ci")); [done|by left].
  - apply keeps_RemoveAll. rewrite (resolve_under _ "metaphor").
    intros H. apply (below_metaphor_apart q (resolve "metaphor")); [done|by left].
  - apply keeps_commitAndPublish. rewrite resolve_reposTf. intros ->.
    by apply (below_metaphor_apart
                (resolve root ++ ["terraform"; "github"; "repos.tf"])
                ["terraform"; "github"; "repos.tf"]); [|left].
Qed.

(** What the copy of the metaphor sources puts into the metaphor directory
    is there at the end, unless a later step writes at its place. *)
Lemma metaphor_sources_reach url name gitProvider w n rel (v : node) :
  let run := AdjustMetaphorRepo url root name gitProvider k1Dir w in
  tree_path (fs w) (resolve (root +:+ "/metaphor")) (n :: rel) v →
  unskipped opt (root +:+ "/metaphor") (n :: rel) →
  n ∉ [".github"; ".gitlab-ci.yml"; ".argo"; "build"] →
  run.1 = None →
  fs run.2 !! (resolve md ++ n :: rel) = Some v.
Proof.
  intros run Hpath Hun Hn.
  assert (n ≠ ".github" ∧ n ≠ ".gitlab-ci.yml" ∧ n ≠ ".argo" ∧ n ≠ "build")
    as (Hn1 & Hn2 & Hn3 & Hn4).
  { repeat split; intros ->; apply Hn; repeat constructor. }
  assert (resolve md `prefix_of` resolve md ++ n :: rel) as Hbelow.
  { by apply prefix_app_r. }
  intros Hok. revert Hpath Hok. unfold run. revert w run.
  change (achieves
            (λ m, tree_path m (resolve (root +:+ "/metaphor")) (n :: rel) v)
            (AdjustMetaphorRepo url root name gitProvider k1Dir)
            (λ m, m !! (resolve md ++ n :: rel) = Some v)).
  apply (achieves_AdjustMetaphorRepo url root name gitProvider k1Dir
           (λ m, tree_path m (resolve (root +:+ "/metaphor")) (n :: rel) v)
           (λ m, tree_path m (resolve (root +:+ "/metaphor")) (n :: rel) v)
           (λ m, tree_path m (resolve (root +:+ "/metaphor")) (n :: rel) v)
           (λ m, m !! (resolve md ++ n :: rel) = Some v)
           (λ m, m !! (resolve md ++ n :: rel) = Some v)
           (λ m, m !! (resolve md ++ n :: rel) = Some v)
           (λ m, m !! (resolve md ++ n :: rel) = Some v)
           (λ m, m !! (resolve md ++ n :: rel) = Some v)
           (λ m, m !! (resolve md ++ n :: rel) = Some v)
           (λ m, m !! (resolve md ++ n :: rel) = Some v)).
  - apply hoare_tree_path. intros q Hq. apply keeps_Mkdir.
    rewrite (resolve_under _ "metaphor") in Hq.
    apply below_sources_apart in Hq. intros ->. apply Hq. by left.
  - apply hoare_tree_path. intros q Hq. apply keeps_PlainInit.
    rewrite (resolve_under _ "metaphor") in Hq.
    by apply below_sources_apart in Hq.
  - apply achieves_Copy; [|by destruct (resolve md)|done].
    rewrite (resolve_under _ "metaphor").
    by apply (below_sources_apart _ (resolve "metaphor")).
  - by apply achieves_hoare, hoare_keeps, keeps_at_copyCI.
  - by apply achieves_hoare, hoare_keeps, keeps_at_argo.
  - by apply hoare_keeps, keeps_at_build_Mkdir.
  - by apply achieves_hoare, hoare_keeps, keeps_at_build_Copy.
  - apply hoare_keeps. by apply (keeps_at_tail _ [] url name).
  - apply hoare_keeps. by apply (keeps_at_tail _ [] url name).
  - intros r. apply hoare_keeps. by apply (keeps_at_tail _ r url name).
Qed.

(** What the copies of the CI content put into the metaphor directory is
    there at the end. *)
Lemma ci_content_reaches url name gitProvider w n rel (v : node) :
  let run := AdjustMetaphorRepo url root name gitProvider k1Dir w in
  n ∈ ".argo" :: (if String.eqb gitProvider "github" then [".github"]
                  else if String.eqb gitProvider "gitlab"
                       then [".gitlab-ci.yml"] else []) →
  tree_path (fs w) (resolve (k1Dir +:+ "/gitops/ci") ++ [n]) rel v →
  unskipped opt (k1Dir +:+ "/gitops/ci/" +:+ n) rel →
  run.1 = None →
  fs run.2 !! (resolve md ++ n :: rel) = Some v.
Proof.
  intros run Hn Hpath Hun Hok. revert Hpath Hok. unfold run. revert w run.
  change (achieves
            (λ m, tree_path m (resolve (k1Dir +:+ "/gitops/ci") ++ [n]) rel v)
            (AdjustMetaphorRepo url root name gitProvider k1Dir)
            (λ m, m !! (resolve md ++ n :: rel) = Some v)).
  assert (resolve md `prefix_of` resolve md ++ n :: rel) as Hbelow.
  { by apply prefix_app_r. }
  assert (∀ q, (resolve (k1Dir +:+ "/gitops/ci") ++ [n]) `prefix_of` q →
               ¬ comparable q (resolve md)) as Hsrc.
  { intros q Hq. apply ci_sources_apart. etrans; [|exact Hq].
    by apply prefix_app_r. }
  assert (∀ x : string,
            ¬ comparable (resolve (k1Dir +:+ "/gitops/ci") ++ [n])
                (resolve md ++ [x])) as Hdest.
  { intros x. rewrite (resolve_under _ "gitops/ci"), (resolve_under _ "metaphor").
    rewrite <-!app_assoc.
    by apply (incomparable_siblings _ "gitops" "metaphor"). }
  assert (hoare
            (λ m, tree_path m (resolve (k1Dir +:+ "/gitops/ci") ++ [n]) rel v)
            (os.Mkdir md)
            (λ m, tree_path m (resolve (k1Dir +:+ "/gitops/ci") ++ [n]) rel v))
    as Hmkdir.
  { apply hoare_tree_path. intros q Hq. apply keeps_Mkdir.
    intros ->. apply (Hsrc _ Hq). by left. }
  assert (hoare
            (λ m, tree_path m (resolve (k1Dir +:+ "/gitops/ci") ++ [n]) rel v)
            (git.PlainInit md)
            (λ m, tree_path m (resolve (k1Dir +:+ "/gitops/ci") ++ [n]) rel v))
    as Hinit.
  { apply hoare_tree_path. intros q Hq. by apply keeps_PlainInit, Hsrc. }
  assert (achieves
            (λ m, tree_path m (resolve (k1Dir +:+ "/gitops/ci") ++ [n]) rel v)
            (cpCopy (root +:+ "/metaphor") md (Some opt))
            (λ m, tree_path m (resolve (k1Dir +:+ "/gitops/ci") ++ [n]) rel v))
    as Hsources.
  { apply achieves_hoare, hoare_tree_path. intros q Hq.
    by apply keeps_Copy, Hsrc. }
  assert (∀ r, hoare (λ m, m !! (resolve md ++ n :: rel) = Some v)
                 (commitAndPublish r url root name)
                 (λ m, m !! (resolve md ++ n :: rel) = Some v)) as Hpublish.
  { intros r. apply hoare_keeps. by apply (keeps_at_tail _ r url name). }
  assert (hoare (λ m, m !! (resolve md ++ n :: rel) = Some v)
            (os.RemoveAll (root +:+ "/ci"))
            (λ m, m !! (resolve md ++ n :: rel) = Some v)) as Hci.
  { apply hoare_keeps. by apply (keeps_at_tail _ [] url name). }
  assert (hoare (λ m, m !! (resolve md ++ n :: rel) = Some v)
            (os.RemoveAll (root +:+ "/metaphor"))
            (λ m, m !! (resolve md ++ n :: rel) = Some v)) as Hmetaphor.
  { apply hoare_keeps. by apply (keeps_at_tail _ [] url name). }
  pose (T := λ (x : string) (m : gmap path node),
               tree_path m (resolve (k1Dir +:+ "/gitops/ci") ++ [x]) rel v).
  pose (L := λ (x : string) (m : gmap path node),
               m !! (resolve md ++ x :: rel) = Some v).
  apply elem_of_cons in Hn as [->|Hn].
  - (* the Argo workflows *)
    apply (achieves_AdjustMetaphorRepo url root name gitProvider k1Dir
             (T ".argo") (T ".argo") (T ".argo") (T ".argo") (T ".argo")
             (L ".argo") (L ".argo") (L ".argo") (L ".argo") (L ".argo")
             (L ".argo") Hmkdir Hinit Hsources);
      [| | | |exact Hci|exact Hmetaphor|exact Hpublish]; unfold T, L.
    + apply achieves_hoare, hoare_tree_path. intros q Hq.
      by apply keeps_copyCIContent, Hsrc.
    + pose proof (achieves_Copy (k1Dir +:+ "/gitops/ci/.argo")
                    (md +:+ "/.argo") rel v) as Hcopy.
      rewrite (resolve_under _ "gitops/ci/.argo"), (resolve_under md ".argo")
        in Hcopy.
      rewrite (resolve_under _ "gitops/ci"), <-!app_assoc in *.
      apply Hcopy; [|intros H; apply app_eq_nil in H as [_ H]; discriminate H|done].
      rewrite (resolve_under _ "metaphor"), <-!app_assoc.
      by apply (incomparable_siblings _ "gitops" "metaphor").
    + by apply hoare_keeps, keeps_at_build_Mkdir.
    + by apply achieves_hoare, hoare_keeps, keeps_at_build_Copy.
  - destruct (String.eqb gitProvider "github") eqn:Egithub;
      [|destruct (String.eqb gitProvider "gitlab") eqn:Egitlab;
        [|by apply elem_of_nil in Hn]];
      apply list_elem_of_singleton in Hn as ->.
    + (* the GitHub workflows *)
      apply (achieves_AdjustMetaphorRepo url root name gitProvider k1Dir
               (T ".github") (T ".github") (T ".github") (T ".github")
               (L ".github") (L ".github") (L ".github") (L ".github")
               (L ".github") (L ".github") (L ".github")
               Hmkdir Hinit Hsources);
        [| | | |exact Hci|exact Hmetaphor|exact Hpublish]; unfold T, L.
      * unfold copyCIContent. rewrite Egithub.
        pose proof (achieves_Copy (k1Dir +:+ "/gitops/ci/.github")
                      (md +:+ "/.github") rel v) as Hcopy.
        rewrite (resolve_under _ "gitops/ci/.github"),
          (resolve_under md ".github") in Hcopy.
        rewrite (resolve_under _ "gitops/ci"), <-!app_assoc in *.
        apply Hcopy; [|intros H; apply app_eq_nil in H as [_ H]; discriminate H|done].
        rewrite (resolve_under _ "metaphor"), <-!app_assoc.
        by apply (incomparable_siblings _ "gitops" "metaphor").
      * by apply achieves_hoare, hoare_keeps, keeps_at_argo.
      * by apply hoare_keeps, keeps_at_build_Mkdir.
      * by apply achieves_hoare, hoare_keeps, keeps_at_build_Copy.
    + (* the GitLab pipeline *)
      apply (achieves_AdjustMetaphorRepo url root name gitProvider k1Dir
               (T ".gitlab-ci.yml") (T ".gitlab-ci.yml") (T ".gitlab-ci.yml")
               (T ".gitlab-ci.yml") (L ".gitlab-ci.yml") (L ".gitlab-ci.yml")
               (L ".gitlab-ci.yml") (L ".gitlab-ci.yml") (L ".gitlab-ci.yml")
               (L ".gitlab-ci.yml") (L ".gitlab-ci.yml")
               Hmkdir Hinit Hsources);
        [| | | |exact Hci|exact Hmetaphor|exact Hpublish]; unfold T, L.
      * unfold copyCIContent. rewrite Egithub, Egitlab.
        pose proof (achieves_Copy (k1Dir +:+ "/gitops/ci/.gitlab-ci.yml")
                      (md +:+ "/.gitlab-ci.yml") rel v) as Hcopy.
        rewrite (resolve_under _ "gitops/ci/.gitlab-ci.yml"),
          (resolve_under md ".gitlab-ci.yml") in Hcopy.
        rewrite (resolve_under _ "gitops/ci"), <-!app_assoc in *.
        apply Hcopy; [|intros H; apply app_eq_nil in H as [_ H]; discriminate H|done].
        rewrite (resolve_under _ "metaphor"), <-!app_assoc.
        by apply (incomparable_siblings _ "gitops" "metaphor").
      * by apply achieves_hoare, hoare_keeps, keeps_at_argo.
      * by apply hoare_keeps, keeps_at_build_Mkdir.
      * by apply achieves_hoare, hoare_keeps, keeps_at_build_Copy.
Qed.

(** The Dockerfile copy: after a run that returns [nil] the metaphor
    directory has a [Dockerfile], and [build/Dockerfile] holds the same. *)
Lemma dockerfile_duplicated url name gitProvider w :
  let run := AdjustMetaphorRepo url root name gitProvider k1Dir w in
  run.1 = None →
  is_Some (fs run.2 !! (resolve md ++ ["Dockerfile"]))
  ∧ fs run.2 !! (resolve md ++ ["build"; "Dockerfile"])
    = fs run.2 !! (resolve md ++ ["Dockerfile"]).
Proof.
  intros run Hok. revert Hok. unfold run. revert w run.
  pose (U := λ _ : gmap path node, True).
  pose (D := λ m : gmap path node,
               is_Some (m !! (resolve md ++ ["Dockerfile"]))
               ∧ m !! (resolve md ++ ["build"; "Dockerfile"])
                 = m !! (resolve md ++ ["Dockerfile"])).
  assert (achieves U (AdjustMetaphorRepo url root name gitProvider k1Dir) D)
    as Hrun; [|intros w; by apply Hrun].
  assert (∀ xs, resolve md `prefix_of` resolve md ++ xs) as Hbelow.
  { intros xs. by apply prefix_app_r. }
  apply (achieves_AdjustMetaphorRepo url root name gitProvider k1Dir
           U U U U U U U D D D D); try done; unfold D.
  - intros w _. unfold cpCopy. rewrite fs_op_run.
    change (default cp.default (Some opt)) with opt. cbn [fst snd fs].
    intros Hok.
    pose proof (Copy_duplicates (md +:+ "/Dockerfile")
                  (md +:+ "/build/Dockerfile") opt (fs w)) as Hcopy.
    rewrite (resolve_under md "Dockerfile"),
      (resolve_under md "build/Dockerfile") in Hcopy.
    apply Hcopy; [| | |done].
    + by apply (incomparable_siblings _ "Dockerfile" "build" [] ["Dockerfile"]).
    + intros H. apply app_eq_nil in H as [_ H]. discriminate H.
    + intros H. apply app_eq_nil in H as [_ H]. discriminate H.
  - apply hoare_keeps_pair; by apply (keeps_at_tail _ [] url name).
  - apply hoare_keeps_pair; by apply (keeps_at_tail _ [] url name).
  - intros r. apply hoare_keeps_pair; by apply (keeps_at_tail _ r url name).
Qed.

(** Without a [Dockerfile] in the metaphor sources, and none in the
    metaphor directory, no run returns [nil]. *)
Lemma dockerfile_required url name gitProvider w :
  let run := AdjustMetaphorRepo url root name gitProvider k1Dir w in
  fs w !! (resolve (root +:+ "/metaphor") ++ ["Dockerfile"]) = None →
  FS.absent (fs w) (resolve md ++ ["Dockerfile"]) →
  run.1 ≠ None.
Proof.
  intros run Hsrc Habs Hok.
  pose (A := λ m : gmap path node, FS.absent m (resolve md ++ ["Dockerfile"])).
  pose (P := λ m : gmap path node,
               m !! (resolve (root +:+ "/metaphor") ++ ["Dockerfile"]) = None
               ∧ A m).
  pose (N := λ _ : gmap path node, False).
  assert (achieves P (AdjustMetaphorRepo url root name gitProvider k1Dir) N)
    as Hrun; [|by apply (Hrun w)].
  clear w run Hsrc Habs Hok.
  assert (¬ comparable (resolve (root +:+ "/metaphor") ++ ["Dockerfile"])
            (resolve md)) as Hfar.
  { rewrite (resolve_under _ "metaphor"), <-app_assoc.
    by apply (below_sources_apart _ (resolve "metaphor" ++ ["Dockerfile"])). }
  assert (∀ x k, x ≠ "Dockerfile" →
            ¬ comparable (resolve md ++ ["Dockerfile"]) (resolve md ++ x :: k))
    as Hsibling.
  { intros x k Hx. apply incomparable_siblings. congruence. }
  apply (achieves_AdjustMetaphorRepo url root name gitProvider k1Dir
           P P P A A A A N N N N); unfold P, A, N; try (by intros ? []).
  - apply hoare_and.
    + apply hoare_keeps, keeps_Mkdir. intros H. apply Hfar. left. by rewrite H.
    + apply hoare_absent_Mkdir. apply prefix_snoc_not.
  - apply hoare_and.
    + by apply hoare_keeps, keeps_PlainInit.
    + apply hoare_absent_PlainInit. by apply Hsibling.
  - intros w [Hsrc Habs] _. unfold cpCopy. rewrite fs_op_run. cbn [snd fs].
    apply Copy_keeps_absent_child; [done..|].
    intros H. apply Hfar. by left.
  - apply achieves_hoare. unfold copyCIContent.
    destruct (String.eqb gitProvider "github");
      [|destruct (String.eqb gitProvider "gitlab")].
    + apply hoare_absent_Copy. rewrite (resolve_under md ".github").
      by apply Hsibling.
    + apply hoare_absent_Copy. rewrite (resolve_under md ".gitlab-ci.yml").
      by apply Hsibling.
    + apply hoare_ret.
  - apply achieves_hoare, hoare_absent_Copy.
    rewrite (resolve_under md ".argo"). by apply Hsibling.
  - apply hoare_absent_Mkdir. rewrite (resolve_under md "build").
    intros H. apply prefix_app_inv, prefix_cons_inv_1 in H. discriminate H.
  - intros w Habs. unfold cpCopy. rewrite fs_op_run. cbn [fst].
    intros Hok. revert Hok. apply Copy_missing_source.
    + rewrite (resolve_under md "Dockerfile"). intros H.
      apply app_eq_nil in H as [_ H]. discriminate H.
    + rewrite (resolve_under md "Dockerfile"). by apply Habs.
Qed.

End metaphor_apart.

(** X16: where the metaphor sources go.  When the gitops directory and the
    metaphor directory [{k1Dir}/metaphor] are apart (neither is inside the
    other), every entry of [{gitopsRepoDir}/metaphor], at any depth, that
    the filter lets through is, after a run that returns [nil], at the same
    place relative to the metaphor directory, a regular file with its
    content and a directory as a directory; this for the entries outside
    [.github], [.gitlab-ci.yml], [.argo] and [build], which the later copies
    write. *)
Theorem AdjustMetaphorRepo_copies_metaphor_sources
    (destinationMetaphorRepoGitURL gitopsRepoDir metaphorRepoName gitProvider
       k1Dir : string) (w : World) (n : string) (rel : path) (v : node) :
  let sources := resolve (gitopsRepoDir +:+ "/metaphor") in
  let metaphorDir := resolve (k1Dir +:+ "/metaphor") in
  let run := AdjustMetaphorRepo destinationMetaphorRepoGitURL gitopsRepoDir
               metaphorRepoName gitProvider k1Dir w in
  ¬ comparable (resolve gitopsRepoDir) metaphorDir →
  tree_path (fs w) sources (n :: rel) v →
  unskipped opt (gitopsRepoDir +:+ "/metaphor") (n :: rel) →
  n ∉ [".github"; ".gitlab-ci.yml"; ".argo"; "build"] →
  run.1 = None →
  fs run.2 !! (metaphorDir ++ n :: rel) = Some v.
Proof.
  intros sources metaphorDir run Hapart. by apply metaphor_sources_reach.
Qed.

Lemma AdjustMetaphorRepo_sources_copied_witness :
  let run := AdjustMetaphorRepo "git@github.com:acme/metaphor.git" "/k1/gitops"
               "metaphor" "github" "/k1" gitopsWorld in
  run.1 = None
  ∧ fs run.2 !! (resolve ("/k1" +:+ "/metaphor") ++ ["main.go"])
    = Some (File "package main").
Proof.
  intros run. split; [vm_compute; reflexivity|].
  refine (AdjustMetaphorRepo_copies_metaphor_sources
            "git@github.com:acme/metaphor.git" "/k1/gitops" "metaphor" "github"
            "/k1" gitopsWorld "main.go" [] (File "package main") _ _ _ _ _).
  - intros [[k Hk]|[k Hk]]; vm_compute in Hk; discriminate.
  - vm_compute. repeat split; reflexivity.
  - vm_compute. repeat split; reflexivity.
  - intros Hin. vm_compute in Hin.
    repeat (apply elem_of_cons in Hin as [Hin|Hin]; [discriminate|]).
    by apply elem_of_nil in Hin.
  - vm_compute. reflexivity.
Defined.

(** X17: where the CI content goes.  When the gitops directory and the
    metaphor directory are apart, every entry of [{k1Dir}/gitops/ci/.argo],
    and of [{k1Dir}/gitops/ci/.github] for the git provider [github] or of
    [{k1Dir}/gitops/ci/.gitlab-ci.yml] for [gitlab], at any depth, that the
    filter lets through is, after a run that returns [nil], at the same
    place below [.argo], [.github] or [.gitlab-ci.yml] of the metaphor
    directory. *)
Theorem AdjustMetaphorRepo_copies_ci_content
    (destinationMetaphorRepoGitURL gitopsRepoDir metaphorRepoName gitProvider
       k1Dir : string) (w : World) (n : string) (rel : path) (v : node) :
  let ci := resolve (k1Dir +:+ "/gitops/ci") in
  let metaphorDir := resolve (k1Dir +:+ "/metaphor") in
  let copied := ".argo" :: (if String.eqb gitProvider "github" then [".github"]
                            else if String.eqb gitProvider "gitlab"
                                 then [".gitlab-ci.yml"] else []) in
  let run := AdjustMetaphorRepo destinationMetaphorRepoGitURL gitopsRepoDir
               metaphorRepoName gitProvider k1Dir w in
  ¬ comparable (resolve gitopsRepoDir) metaphorDir →
  n ∈ copied →
  tree_path (fs w) (ci ++ [n]) rel v →
  unskipped opt (k1Dir +:+ "/gitops/ci/" +:+ n) rel →
  run.1 = None →
  fs run.2 !! (metaphorDir ++ n :: rel) = Some v.
Proof.
  intros ci metaphorDir copied run Hapart. by apply ci_content_reaches.
Qed.

Lemma AdjustMetaphorRepo_ci_content_witness :
  let run := AdjustMetaphorRepo "git@github.com:acme/metaphor.git" "/k1/gitops"
               "metaphor" "github" "/k1" gitopsWorld in
  run.1 = None
  ∧ fs run.2 !! (resolve ("/k1" +:+ "/metaphor")
                 ++ [".github"; "workflows"; "main.yaml"])
    = Some (File "on: push").
Proof.
  intros run. split; [vm_compute; reflexivity|].
  refine (AdjustMetaphorRepo_copies_ci_content
            "git@github.com:acme/metaphor.git" "/k1/gitops" "metaphor" "github"
            "/k1" gitopsWorld ".github" ["workflows"; "main.yaml"]
            (File "on: push") _ _ _ _ _).
  - intros [[k Hk]|[k Hk]]; vm_compute in Hk; discriminate.
  - vm_compute. apply list_elem_of_further, list_elem_of_here.
  - vm_compute. repeat split; reflexivity.
  - vm_compute. repeat split; reflexivity.
  - vm_compute. reflexivity.
Defined.

(** X18: the Dockerfile is duplicated.  When the gitops directory and the
    metaphor directory are apart, after a run that returns [nil] the
    metaphor directory has an entry [Dockerfile], and its [build/Dockerfile]
    is an entry of the same kind, with the same content when it is a
    regular file. *)
Theorem AdjustMetaphorRepo_duplicates_Dockerfile
    (destinationMetaphorRepoGitURL gitopsRepoDir metaphorRepoName gitProvider
       k1Dir : string) (w : World) :
  let metaphorDir := resolve (k1Dir +:+ "/metaphor") in
  let run := AdjustMetaphorRepo destinationMetaphorRepoGitURL gitopsRepoDir
               metaphorRepoName gitProvider k1Dir w in
  ¬ comparable (resolve gitopsRepoDir) metaphorDir →
  run.1 = None →
  is_Some (fs run.2 !! (metaphorDir ++ ["Dockerfile"]))
  ∧ fs run.2 !! (metaphorDir ++ ["build"; "Dockerfile"])
    = fs run.2 !! (metaphorDir ++ ["Dockerfile"]).
Proof.
  intros metaphorDir run Hapart. by apply dockerfile_duplicated.
Qed.

Lemma AdjustMetaphorRepo_Dockerfile_witness :
  let run := AdjustMetaphorRepo "git@github.com:acme/metaphor.git" "/k1/gitops"
               "metaphor" "github" "/k1" gitopsWorld in
  fs run.2 !! resolve "/k1/metaphor/Dockerfile" = Some (File "FROM scratch")
  ∧ fs run.2 !! (resolve ("/k1" +:+ "/metaphor") ++ ["build"; "Dockerfile"])
    = fs run.2 !! (resolve ("/k1" +:+ "/metaphor") ++ ["Dockerfile"]).
Proof.
  intros run. split; [vm_compute; reflexivity|].
  refine (proj2 (AdjustMetaphorRepo_duplicates_Dockerfile
                   "git@github.com:acme/metaphor.git" "/k1/gitops" "metaphor"
                   "github" "/k1" gitopsWorld _ _)).
  - intros [[k Hk]|[k Hk]]; vm_compute in Hk; discriminate.
  - vm_compute. reflexivity.
Defined.

(** X19: the Dockerfile is required.  When the gitops directory and the
    metaphor directory are apart, the metaphor sources have no entry
    [Dockerfile] and the metaphor directory has none either,
    [AdjustMetaphorRepo] returns an error. *)
Theorem AdjustMetaphorRepo_requires_Dockerfile
    (destinationMetaphorRepoGitURL gitopsRepoDir metaphorRepoName gitProvider
       k1Dir : string) (w : World) :
  let sources := resolve (gitopsRepoDir +:+ "/metaphor") in
  let metaphorDir := resolve (k1Dir +:+ "/metaphor") in
  let run := AdjustMetaphorRepo destinationMetaphorRepoGitURL gitopsRepoDir
               metaphorRepoName gitProvider k1Dir w in
  ¬ comparable (resolve gitopsRepoDir) metaphorDir →
  fs w !! (sources ++ ["Dockerfile"]) = None →
  FS.absent (fs w) (metaphorDir ++ ["Dockerfile"]) →
  run.1 ≠ None.
Proof.
  intros sources metaphorDir run Hapart. by apply dockerfile_required.
Qed.

Lemma AdjustMetaphorRepo_missing_Dockerfile_witness :
  let run := AdjustMetaphorRepo "git@github.com:acme/metaphor.git" "/k1/gitops"
               "metaphor" "github" "/k1" bareMetaphorWorld in
  fs bareMetaphorWorld !! resolve "/k1/gitops/metaphor/main.go"
  = Some (File "package main")
  ∧ run.1 ≠ None.
Proof.
  intros run. split; [vm_compute; reflexivity|].
  refine (AdjustMetaphorRepo_requires_Dockerfile
            "git@github.com:acme/metaphor.git" "/k1/gitops" "metaphor" "github"
            "/k1" bareMetaphorWorld _ _ _).
  - intros [[k Hk]|[k Hk]]; vm_compute in Hk; discriminate.
  - vm_compute. reflexivity.
  - apply absent_by_keys. vm_compute. reflexivity.
Defined.

(** * [GetConfig] and [AdjustMetaphorRepo] together *)

Lemma GetConfig_dirs (e : Environ)
    (configName clusterName gitopsRepoName metaphorRepoName gitProvider
       gitOwner gitProtocol : string) (config : K3dConfig) :
  GetConfig e configName clusterName gitopsRepoName metaphorRepoName
    gitProvider gitOwner gitProtocol = Returns config →
  GitopsDir config = K1Dir config +:+ "/gitops"
  ∧ MetaphorDir config = K1Dir config +:+ "/metaphor"
  ∧ GitProvider config = gitProvider.
Proof.
  unfold GetConfig, UserHomeDir. simpl.
  destruct (String.eqb (Getenv e "HOME") ""); [done|].
  by intros [= <-].
Qed.

(** X20: the directories of a config fit [AdjustMetaphorRepo].  When the
    function is called with the gitops directory, the git provider and the
    [K1Dir] of a config that [GetConfig] returned, a run that returns [nil]
    has put into the config's [MetaphorDir] the entries of
    [GitopsDir/metaphor] (outside [.github], [.gitlab-ci.yml], [.argo] and
    [build]) and, below [.argo] and below [.github] or [.gitlab-ci.yml],
    the entries of [GitopsDir/ci] for the config's provider, as far as the
    filter lets them through: the CI sources that the function looks up
    below [{k1Dir}/gitops] are those of the config's gitops directory, and
    no condition on the two directories is left. *)
Theorem GetConfig_directories_fit_AdjustMetaphorRepo (e : Environ)
    (configName clusterName gitopsRepoName metaphorRepoName gitProvider
       gitOwner gitProtocol : string) (config : K3dConfig) (w : World) :
  let run := AdjustMetaphorRepo (DestinationMetaphorRepoGitURL config)
               (GitopsDir config) (MetaphorRepoName config)
               (GitProvider config) (K1Dir config) w in
  let ciCopied := ".argo" :: (if String.eqb gitProvider "github"
                              then [".github"]
                              else if String.eqb gitProvider "gitlab"
                                   then [".gitlab-ci.yml"] else []) in
  GetConfig e configName clusterName gitopsRepoName metaphorRepoName
    gitProvider gitOwner gitProtocol = Returns config →
  run.1 = None →
  (∀ n rel v,
     tree_path (fs w) (resolve (GitopsDir config) ++ ["metaphor"]) (n :: rel) v →
     unskipped opt (GitopsDir config +:+ "/metaphor") (n :: rel) →
     n ∉ [".github"; ".gitlab-ci.yml"; ".argo"; "build"] →
     fs run.2 !! (resolve (MetaphorDir config) ++ n :: rel) = Some v)
  ∧ (∀ n rel v,
       n ∈ ciCopied →
       tree_path (fs w) (resolve (GitopsDir config) ++ ["ci"; n]) rel v →
       unskipped opt (GitopsDir config +:+ "/ci/" +:+ n) rel →
       fs run.2 !! (resolve (MetaphorDir config) ++ n :: rel) = Some v).
Proof.
  intros run ciCopied Hconfig Hok.
  destruct (GetConfig_dirs _ _ _ _ _ _ _ _ _ Hconfig) as (Hg & Hm & Hp).
  assert (¬ comparable (resolve (GitopsDir config))
            (resolve (K1Dir config +:+ "/metaphor"))) as Hapart.
  { rewrite Hg, (resolve_under _ "gitops"), (resolve_under _ "metaphor").
    by apply (incomparable_siblings _ "gitops" "metaphor" [] []). }
  split.
  - intros n rel v Hpath Hun Hn. rewrite Hm.
    apply (metaphor_sources_reach (GitopsDir config) (K1Dir config) Hapart
             (DestinationMetaphorRepoGitURL config) (MetaphorRepoName config)
             (GitProvider config) w n rel v); [|done..].
    by rewrite (resolve_under _ "metaphor").
  - intros n rel v Hn Hpath Hun. rewrite Hm.
    apply (ci_content_reaches (GitopsDir config) (K1Dir config) Hapart
             (DestinationMetaphorRepoGitURL config) (MetaphorRepoName config)
             (GitProvider config) w n rel v); [by rewrite Hp| | |done].
    + rewrite Hg, (resolve_under _ "gitops"), <-app_assoc in Hpath.
      rewrite (resolve_under _ "gitops/ci"), <-app_assoc. exact Hpath.
    + rewrite Hg, sapp_assoc in Hun. exact Hun.
Qed.

Lemma GetConfig_AdjustMetaphorRepo_witness :
  ∃ config,
    GetConfig unixEnviron "k3d-dev" "dev" "gitops" "metaphor" "github" "acme"
      "ssh" = Returns config
    ∧ let run := AdjustMetaphorRepo (DestinationMetaphorRepoGitURL config)
                   (GitopsDir config) (MetaphorRepoName config)
                   (GitProvider config) (K1Dir config) homeWorld in
      run.1 = None
      ∧ fs run.2 !! (resolve (MetaphorDir config) ++ ["main.go"])
        = Some (File "package main")
      ∧ fs run.2 !! (resolve (MetaphorDir config) ++ [".argo"; "ci.yaml"])
        = Some (File "kind: Workflow").
Proof.
  eexists. split; [reflexivity|]. intros run.
  assert (run.1 = None) as Hok by (vm_compute; reflexivity).
  split; [exact Hok|].
  destruct (GetConfig_directories_fit_AdjustMetaphorRepo unixEnviron "k3d-dev"
              "dev" "gitops" "metaphor" "github" "acme" "ssh" _ homeWorld
              eq_refl Hok) as [Hsources Hci].
  split.
  - apply (Hsources "main.go" [] (File "package main")).
    + vm_compute. repeat split; reflexivity.
    + vm_compute. repeat split; reflexivity.
    + clear. intros Hin. vm_compute in Hin.
      repeat (apply elem_of_cons in Hin as [Hin|Hin]; [discriminate Hin|]).
      by apply elem_of_nil in Hin.
  - apply (Hci ".argo" ["ci.yaml"] (File "kind: Workflow")).
    + apply list_elem_of_here.
    + vm_compute. repeat split; reflexivity.
    + vm_compute. repeat split; reflexivity.
Defined.

(** * A second run of [AdjustGitopsRepo] *)

Section repeat.

Variable SupportedPlatforms : list string.
Variable LocalhostARCH : string.

Lemma slash_not_slash_dot x : Strings.HasSuffix (x +:+ "/") "/." = false.
Proof.
  destruct (Strings.HasSuffix (x +:+ "/") "/.") eqn:E; [|done].
  apply HasSuffix_spec in E as [pre Hpre]. exfalso.
  revert pre Hpre. induction x as [|c x IH]; intros pre Hpre.
  - apply (f_equal Strings.len) in Hpre. rewrite !slen_app in Hpre.
    unfold Strings.len in Hpre. simpl in Hpre. lia.
  - destruct pre as [|d pre].
    + destruct x as [|c' x]; [done|]. injection Hpre as _ _ Hpre.
      apply (f_equal Strings.len) in Hpre. rewrite !slen_app in Hpre.
      unfold Strings.len in Hpre. simpl in Hpre. lia.
    + rewrite !sapp_cons in Hpre. injection Hpre as _ Hpre. by apply (IH pre).
Qed.

Lemma driverContent_removable root gitProvider :
  driverContent root gitProvider ≠ ""
  ∧ FS.endsWithDot (driverContent root gitProvider) = false.
Proof.
  unfold driverContent. split.
  - rewrite <-!sapp_assoc. by apply sapp_nonempty.
  - unfold FS.endsWithDot. apply orb_false_iff. split.
    + apply String.eqb_neq. intros H. apply (f_equal Strings.len) in H.
      rewrite !slen_app in H. unfold Strings.len in H. simpl in H. lia.
    + rewrite <-!sapp_assoc. apply slash_not_slash_dot.
Qed.

Lemma variant_apart root gitProvider (x : string) k :
  (∀ h, x ≠ String "k" h) →
  ¬ comparable (resolve (driverContent root gitProvider)) (resolve root ++ x :: k).
Proof.
  intros Hx. destruct (resolve_driverContent_head root gitProvider)
    as (h & t & ->).
  apply incomparable_siblings. intros H. by apply (Hx h).
Qed.

(** After a run that returns [nil] nothing is left of the selected
    variant. *)
Lemma AdjustGitopsRepo_consumes_variant
    cloudProvider clusterName clusterType root name gitProvider k1Dir
    removeAtlantis :
  achieves (λ _, True)
    (AdjustGitopsRepo SupportedPlatforms LocalhostARCH cloudProvider
       clusterName clusterType root name gitProvider k1Dir removeAtlantis)
    (λ m, FS.absent m (resolve (driverContent root gitProvider))).
Proof.
  pose (U := λ _ : gmap path node, True).
  pose (A := λ m : gmap path node,
               FS.absent m (resolve (driverContent root gitProvider))).
  destruct (driverContent_removable root gitProvider) as [Hne Hdot].
  unfold AdjustGitopsRepo.
  apply (achieves_checked U A A _ id).
  - unfold promoteContent.
    apply (achieves_bind U U A); [done|]. intros _.
    apply (achieves_checked U U A _ id); [done|].
    apply (achieves_bind U A A).
    { apply hoare_fs_op. intros m _. by apply RemoveAll_absent. }
    intros _. apply (achieves_checked A A A _ id).
    + apply achieves_hoare, hoare_absent_Copy. rewrite resolve_registry.
      by apply variant_apart.
    + apply achieves_hoare, hoare_ret.
  - apply (achieves_bind A A A); [apply hoare_absent_pruneRegistry|].
    intros _. apply achieves_hoare, hoare_absent_detokenize.
    rewrite resolve_reposTf. by apply variant_apart.
Qed.

Lemma AdjustGitopsRepo_needs_variant
    cloudProvider clusterName clusterType root name gitProvider k1Dir
    removeAtlantis w :
  fs w !! resolve (driverContent root gitProvider) = None →
  (AdjustGitopsRepo SupportedPlatforms LocalhostARCH cloudProvider clusterName
     clusterType root name gitProvider k1Dir removeAtlantis w).1
  = Some FS.ENOENT.
Proof.
  intros Hnone.
  set (cleaned := (cleanUpPlatforms SupportedPlatforms root gitProvider w).2).
  assert (fs cleaned !! resolve (driverContent root gitProvider) = None)
    as Hcleaned.
  { by apply (hoare_None_cleanUp (resolve (driverContent root gitProvider))). }
  assert (cp.Copy (driverContent root gitProvider) root
            (default cp.default (Some opt)) (fs cleaned)
          = (Some FS.ENOENT, fs cleaned)) as Hcopy.
  { unfold cp.Copy, FS.stat.
    rewrite decide_False by apply resolve_driverContent_nonempty.
    by rewrite Hcleaned. }
  unfold AdjustGitopsRepo, promoteContent. rewrite !bind_run.
  fold cleaned. unfold cpCopy. by rewrite !fs_op_run, !Hcopy.
Qed.

End repeat.

(** X21: [AdjustGitopsRepo] cannot be repeated.  A run that returns [nil]
    leaves nothing of the selected variant [k3d-{gitProvider}], so a second
    run on the same gitops directory for the same git provider, whatever its
    other arguments, returns "no such file or directory" from its first
    copy. *)
Theorem AdjustGitopsRepo_second_run_fails
    (SupportedPlatforms : list string) (LocalhostARCH : string)
    (cloudProvider clusterName clusterType gitopsRepoDir gitopsRepoName
       gitProvider k1Dir : string) (removeAtlantis : bool)
    (cloudProvider' clusterName' clusterType' gitopsRepoName' k1Dir' : string)
    (removeAtlantis' : bool) (w : World) :
  let first := AdjustGitopsRepo SupportedPlatforms LocalhostARCH cloudProvider
                 clusterName clusterType gitopsRepoDir gitopsRepoName
                 gitProvider k1Dir removeAtlantis w in
  let second := AdjustGitopsRepo SupportedPlatforms LocalhostARCH
                  cloudProvider' clusterName' clusterType' gitopsRepoDir
                  gitopsRepoName' gitProvider k1Dir' removeAtlantis' first.2 in
  first.1 = None →
  FS.absent (fs first.2) (resolve (driverContent gitopsRepoDir gitProvider))
  ∧ second.1 = Some FS.ENOENT.
Proof.
  intros first second Hok.
  assert (FS.absent (fs first.2)
            (resolve (driverContent gitopsRepoDir gitProvider))) as Habs.
  { by apply (AdjustGitopsRepo_consumes_variant SupportedPlatforms
                LocalhostARCH cloudProvider clusterName clusterType
                gitopsRepoDir gitopsRepoName gitProvider k1Dir removeAtlantis
                w). }
  split; [exact Habs|].
  apply AdjustGitopsRepo_needs_variant. by apply Habs.
Qed.

Lemma AdjustGitopsRepo_second_run_witness :
  let first := AdjustGitopsRepo examplePlatforms "amd64" "k3d" "dev" "local"
                 "/k1/gitops" "gitops" "github" "/k1" true templateWorld in
  let second := AdjustGitopsRepo examplePlatforms "amd64" "k3d" "dev" "local"
                  "/k1/gitops" "gitops" "github" "/k1" true first.2 in
  first.1 = None ∧ second.1 = Some FS.ENOENT.
Proof.
  intros first second.
  assert (first.1 = None) as Hok by (vm_compute; reflexivity).
  split; [exact Hok|].
  exact (proj2 (AdjustGitopsRepo_second_run_fails examplePlatforms "amd64"
                  "k3d" "dev" "local" "/k1/gitops" "gitops" "github" "/k1" true
                  "k3d" "dev" "local" "gitops" "/k1" true templateWorld Hok)).
Defined.
